(** * Transition-matrix bookkeeping of the worldmodel tree

    A shallow embedding of the split bookkeeping of the repository:
    [worldmodel.py] (class [WorldModelTree], the monolithic tree),
    [split_params.py] (class [SplitParams]), [partitioning.py]
    (class [Partitioning]) and [worldmodel_tree.py] (class
    [WorldmodelTree]).

    numpy arrays are lists: a label vector is a list of integers, a
    transition matrix is a list of rows.  Python's [None] action is
    [None : option Z].  An operation that raises in Python (a failed
    [assert], an [IndexError], a [ValueError]) returns [None].
    Floating-point numbers are read as real numbers: the entropies are
    the exact values of the formulas that the code evaluates. *)

From Stdlib Require Import List ZArith Lia Bool Arith Permutation Sorted.
From Stdlib Require Import Reals Lra.
Import ListNotations.

Set Implicit Arguments.

(* ================================================================= *)
(** * Part I: the program *)

(** ** Indexed list updates *)

Section ListUpdate.
Variable A : Type.

(** [l[i] = x] on an index that exists. *)
Fixpoint set_at (i : nat) (x : A) (l : list A) : list A :=
  match l, i with
  | [], _ => []
  | _ :: l', O => x :: l'
  | y :: l', S i' => y :: set_at i' x l'
  end.

(** [np.insert(l, i, x)]: [x] is placed before position [i]. *)
Fixpoint insert_at (i : nat) (x : A) (l : list A) : list A :=
  match i, l with
  | O, _ => x :: l
  | S _, [] => [x]
  | S i', y :: l' => y :: insert_at i' x l'
  end.

(** Fancy indexing [l[refs]]: an [IndexError] when a reference is not
    an index of [l]. *)
Definition take (d : A) (l : list A) (refs : list nat) : option (list A) :=
  if forallb (fun r => r <? length l) refs
  then Some (map (fun r => nth r l d) refs)
  else None.

End ListUpdate.

(** ** Matrices *)

Definition Matrix := list (list Z).

(** [np.zeros((r, c))] *)
Definition zeros (r c : nat) : Matrix := repeat (repeat 0%Z c) r.

(** [M[s, t]], with [0] outside of the matrix (only used for reading
    cells that exist; writes check their indices). *)
Definition cell (M : Matrix) (s t : nat) : Z := nth t (nth s M []) 0%Z.

(** [M.shape[0]] and [M.shape[1]] *)
Definition nrows (M : Matrix) : nat := length M.
Definition ncols (M : Matrix) : nat := length (hd [] M).

Definition shape (M : Matrix) (r c : nat) : Prop :=
  length M = r /\ Forall (fun row => length row = c) M.

(** [M[i, :] = 0] *)
Definition zero_row (i : nat) (M : Matrix) : Matrix :=
  set_at i (map (fun _ => 0%Z) (nth i M [])) M.

(** [M[:, j] = 0] *)
Definition zero_col (j : nat) (M : Matrix) : Matrix :=
  map (set_at j 0%Z) M.

(** [np.insert(M, i, 0, axis=0)] *)
Definition insert_row (i : nat) (M : Matrix) : Matrix :=
  insert_at i (repeat 0%Z (ncols M)) M.

(** [np.insert(M, j, 0, axis=1)] *)
Definition insert_col (j : nat) (M : Matrix) : Matrix :=
  map (insert_at j 0%Z) M.

(** [M[s, t] = v] *)
Definition set_cell (s t : nat) (v : Z) (M : Matrix) : Matrix :=
  set_at s (set_at t v (nth s M [])) M.

(** [M[s, t] += 1] *)
Definition incr_cell (s t : nat) (M : Matrix) : Matrix :=
  set_cell s t (cell M s t + 1)%Z M.

(** [np.sum(M)] *)
Definition vsum (v : list Z) : Z := fold_right Z.add 0%Z v.
Definition msum (M : Matrix) : Z := vsum (map vsum M).

(** The four statements shared by
    [WorldModelTree._split_transition_matrix] (worldmodel.py) and
    [SplitParams._update_transition_matrices] (split_params.py):
<<
    new_trans[index1,:] = 0
    new_trans = np.insert(new_trans, index2, 0, axis=0)
    new_trans[:,index1] = 0
    new_trans = np.insert(new_trans, index2, 0, axis=1)
>>
    The row and column assignments raise an [IndexError] when [index1]
    is not an index of the matrix, [np.insert] when [index2] is past
    its end. *)
Definition split_row_col (M : Matrix) (index1 index2 : nat) : option Matrix :=
  if (index1 <? nrows M) && (index1 <? ncols M)
     && (index2 <=? nrows M) && (index2 <=? ncols M)
  then Some (insert_col index2 (zero_col index1
              (insert_row index2 (zero_row index1 M))))
  else None.


(** ** Python and numpy helpers *)

(** Computations that can raise. *)
Definition bind {A B : Type} (m : option A) (k : A -> option B) : option B :=
  match m with
  | Some x => k x
  | None => None
  end.

Notation "'let?' x ':=' m 'in' k" := (bind m (fun x => k))
  (at level 10, x name, m at level 100, k at level 200).

(** [assert b] *)
Definition assert (b : bool) : option unit := if b then Some tt else None.

(** A loop [for x in l: acc = f(acc, x)] whose body can raise. *)
Fixpoint foldM {A B : Type} (f : B -> A -> option B) (l : list A) (acc : B)
  : option B :=
  match l with
  | [] => Some acc
  | x :: l' => let? acc' := f acc x in foldM f l' acc'
  end.

(** [[f(x) for x in l]] where [f] can raise. *)
Fixpoint mapM {A B : Type} (f : A -> option B) (l : list A) : option (list B) :=
  match l with
  | [] => Some []
  | x :: l' => let? y := f x in let? ys := mapM f l' in Some (y :: ys)
  end.

(** Comparisons of real numbers, as booleans. *)
Definition Rltb (x y : R) : bool := if Rlt_dec x y then true else false.
Definition Rleb (x y : R) : bool := if Rle_dec x y then true else false.
Definition Reqb (x y : R) : bool := if Req_dec_T x y then true else false.

(** An action label; Python's [None] is the unknown action. *)
Abbreviation action := (option Z) (only parsing).

(** [a == b] on actions. *)
Definition action_eqb (a b : action) : bool :=
  match a, b with
  | None, None => true
  | Some x, Some y => Z.eqb x y
  | _, _ => false
  end.

Definition action_eq_dec (a b : action) : {a = b} + {a <> b}.
Proof. decide equality. apply Z.eq_dec. Defined.

(** A dictionary with actions as keys, in the order of its keys. *)
Definition lookup {V : Type} (a : action) (d : list (action * V)) : option V :=
  option_map snd (find (fun kv => action_eqb (fst kv) a) d).

(** [range(n)] for a Python integer [n] (empty when [n <= 0]). *)
Definition range (n : Z) : list nat := seq 0 (Z.to_nat n).

(** Python's index into a sequence of [len] elements: a negative index
    counts from the end, anything else out of range is an [IndexError]. *)
Definition py_index (len : nat) (i : Z) : option nat :=
  if ((0 <=? i) && (i <? Z.of_nat len))%Z then Some (Z.to_nat i)
  else if ((- Z.of_nat len <=? i) && (i <? 0))%Z
       then Some (Z.to_nat (i + Z.of_nat len))
       else None.

(** [M[s, t] += 1] with Python indices. *)
Definition incr_at (s t : Z) (M : Matrix) : option Matrix :=
  let? s' := py_index (nrows M) s in
  let? t' := py_index (ncols M) t in
  Some (incr_cell s' t' M).

(** [M[s, t] = v] for natural indices: an [IndexError] out of range. *)
Definition set_cell_chk (s t : nat) (v : Z) (M : Matrix) : option Matrix :=
  if (s <? nrows M) && (t <? ncols M) then Some (set_cell s t v M) else None.

(** Equality of two cell positions. *)
Definition pair_eqb (p q : nat * nat) : bool :=
  (fst p =? fst q) && (snd p =? snd q).

(** [l == v], elementwise *)
Definition eq_mask (l : list Z) (v : Z) : list bool :=
  map (fun x => Z.eqb x v) l.

(** [a & b & c], elementwise *)
Definition and3 (a b c : list bool) : list bool :=
  map (fun xyz => fst xyz && fst (snd xyz) && snd (snd xyz))
      (combine a (combine b c)).

(** [np.count_nonzero(m)] *)
Definition count_nonzero (m : list bool) : Z :=
  Z.of_nat (length (filter (fun b => b) m)).

(** [np.where(l == v)[0]] *)
Definition where_eq (v : Z) (l : list Z) : list nat :=
  filter (fun i => Z.eqb (nth i l 0%Z) v) (seq 0 (length l)).

(** [np.setdiff1d(refs, [x], assume_unique=True)] *)
Definition setdiff1 (refs : list nat) (x : Z) : list nat :=
  filter (fun r => negb (Z.eqb (Z.of_nat r) x)) refs.

(** [max(l)]: a [ValueError] on the empty sequence. *)
Definition py_max (l : list Z) : option Z :=
  match l with
  | [] => None
  | x :: l' => Some (fold_left Z.max l' x)
  end.

(** Broadcasting of the right operand of [P += M]. *)
Definition broadcast_row (c : nat) (row : list Z) : option (list Z) :=
  if length row =? c then Some row
  else if length row =? 1 then Some (repeat (hd 0%Z row) c)
  else None.

Definition broadcast (r c : nat) (M : Matrix) : option Matrix :=
  let? rows := mapM (broadcast_row c) M in
  if length rows =? r then Some rows
  else if length rows =? 1 then Some (repeat (hd [] rows) r)
  else None.

Definition add_rows (u v : list Z) : list Z :=
  map (fun xy => (fst xy + snd xy)%Z) (combine u v).

(** [P += M] *)
Definition iadd (P M : Matrix) : option Matrix :=
  let? M' := broadcast (nrows P) (ncols P) M in
  Some (map (fun uv => add_rows (fst uv) (snd uv)) (combine P M')).

(** ** Transition counts, as the data model defines them

    Entry [(s, t)] of the matrix of action [a] is the number of index
    pairs [(i, i+1)] with [label[i] = s], [label[i+1] = t] and
    [action[i] = a]. *)

Definition is_transition (labels : list Z) (actions : list action)
    (a : action) (s t : nat) (i : nat) : bool :=
  Z.eqb (nth i labels 0%Z) (Z.of_nat s)
  && Z.eqb (nth (S i) labels 0%Z) (Z.of_nat t)
  && action_eqb (nth i actions None) a.

Definition transition_count (labels : list Z) (actions : list action)
    (a : action) (s t : nat) : Z :=
  Z.of_nat (length (filter (is_transition labels actions a s t)
                           (seq 0 (length labels - 1)))).

(** The [K]-by-[K] matrix of action [a] recounted from scratch over
    every transition [(i, i+1)] of the streams. *)
Definition recount (K : nat) (labels : list Z) (actions : list action)
    (a : action) : Matrix :=
  map (fun s => map (fun t => transition_count labels actions a s t) (seq 0 K))
      (seq 0 K).

(** [l[refs] = vals] for arrays [refs] and [vals] of one length. *)
Definition assign_at (refs : list nat) (vals : list Z) (l : list Z) : list Z :=
  fold_left (fun acc rv => set_at (fst rv) (snd rv) acc) (combine refs vals) l.

(** Where row (column) [x] of the new matrix comes from, for [x]
    other than [index] and [index + 1]. *)
Definition unshift (index x : nat) : nat := if x <? index then x else x - 1.

(** Every label is the index of one of the [K] leaves. *)
Definition labels_in_range (K : nat) (labels : list Z) : bool :=
  forallb (fun l => (0 <=? l)%Z && (l <? Z.of_nat K)%Z) labels.

(** ** split_params.py: class SplitParams *)

Module SplitParams.

(** What a split candidate reads from its node, its partitioning and
    the model.  The model class and the tree base class are not part of
    the sources at hand, so the values of their getters are fields. *)
Record Env : Type := {
  number_of_samples : nat;            (* _model.get_number_of_samples() *)
  actions : list action;              (* _model.actions *)
  known_actions : list action;        (* _model.get_known_actions() *)
  labels : list Z;                    (* _partitioning.labels *)
  transitions : list (action * Matrix); (* _partitioning.transitions *)
  data_refs : list nat;               (* _node.get_data_refs() *)
  leaf_index : nat;                   (* _node.get_leaf_index() *)
  number_of_leaves : nat;   (* _node.get_root().get_number_of_leaves() *)
  number_of_samples_when_created : nat;
  t : nat -> Z  (* lambda r: test_function(data[r], params=test_params) *)
}.

(** [_init_new_labels]; [cache] is [self._new_labels] before the call,
    the result is [self._new_labels] after it. *)
Definition _init_new_labels (e : Env) (cache : option (list Z)) : list Z :=
  let current_state := Z.of_nat (leaf_index e) in
  match cache with
  | None =>
      let new_labels :=
        map (fun l => if (l >? current_state)%Z then (l + 1)%Z else l)
            (labels e) in
      map (fun l => if (l =? current_state)%Z then (-1)%Z else l) new_labels
  | Some new_labels => new_labels
  end.

(** [_update_labels] *)
Definition _update_labels (e : Env) (cache : option (list Z))
  : option (list Z) :=
  let current_state := Z.of_nat (leaf_index e) in
  let new_labels := _init_new_labels e cache in
  let refs := where_eq (-1) new_labels in
  let child_indices := map (t e) refs in
  let new_labels :=
    assign_at refs (map (fun c => (current_state + c)%Z) child_indices)
              new_labels in
  let? _ := assert (count_nonzero (eq_mask new_labels (-1)) =? 0)%Z in
  let? _ := assert (length new_labels =? length (labels e)) in
  Some new_labels.

(** [get_new_labels] *)
Definition get_new_labels (e : Env) (cache : option (list Z))
  : option (list Z) :=
  match cache with
  | None => _update_labels e cache
  | Some l =>
      if existsb (fun x => (x <? 0)%Z) l then _update_labels e cache
      else Some l
  end.

(** [_update_dat_refs] *)
Definition _update_dat_refs (e : Env) (cache : option (list Z))
  : option (list nat * list nat) :=
  let current_state := Z.of_nat (leaf_index e) in
  let? new_labels := get_new_labels e cache in
  let? _ := assert (count_nonzero (map (fun x => (x <? 0)%Z) new_labels) =? 0)%Z in
  let? _ := assert (Z.of_nat (length (data_refs e)) =?
               count_nonzero (eq_mask new_labels current_state)
               + count_nonzero (eq_mask new_labels (current_state + 1)))%Z in
  let new_dat_refs_0 := where_eq current_state new_labels in
  let new_dat_refs_1 := where_eq (current_state + 1) new_labels in
  let? _ := assert (0 <? length new_dat_refs_0) in
  let? _ := assert (0 <? length new_dat_refs_1) in
  Some (new_dat_refs_0, new_dat_refs_1).

(** The two assignments of one round of a counting loop of
    [_update_transition_matrices]. *)
Definition count_cell (labels_1 labels_2 : list Z) (mask : list bool)
    (s t : nat) : Z :=
  count_nonzero (and3 (eq_mask labels_1 (Z.of_nat s))
                      (eq_mask labels_2 (Z.of_nat t)) mask).

(** The body of the loop over the known actions in
    [_update_transition_matrices]. *)
Definition new_trans_of_action (e : Env) (new_labels : list Z) (a : action)
  : option Matrix :=
  let refs := data_refs e in
  let index_1 := leaf_index e in
  let index_2 := index_1 + 1 in
  let? old := lookup a (transitions e) in
  let? new_trans := split_row_col old index_1 index_1 in
  (* transitions from current state to another *)
  let refs_1 := setdiff1 refs (Z.of_nat (number_of_samples e) - 1) in
  let refs_2 := map (fun r => r + 1) refs_1 in
  let? labels_1 := take 0%Z new_labels refs_1 in
  let? labels_2 := take 0%Z new_labels refs_2 in
  let? acts := take None (actions e) refs_1 in
  let mask_actions := map (fun x => action_eqb x a) acts in
  let? new_trans :=
    foldM (fun M i =>
             let? M := set_cell_chk index_1 i
                    (count_cell labels_1 labels_2 mask_actions index_1 i) M in
             set_cell_chk index_2 i
                    (count_cell labels_1 labels_2 mask_actions index_2 i) M)
          (range (Z.of_nat (number_of_leaves e) + 1)) new_trans in
  (* transitions into current state *)
  let refs_2 := setdiff1 refs 0 in
  let refs_1 := map (fun r => r - 1) refs_2 in
  let? labels_1 := take 0%Z new_labels refs_1 in
  let? labels_2 := take 0%Z new_labels refs_2 in
  let? acts := take None (actions e) refs_1 in
  let mask_actions := map (fun x => action_eqb x a) acts in
  let? new_trans :=
    foldM (fun M i =>
             let? M := set_cell_chk i index_1
                    (count_cell labels_1 labels_2 mask_actions i index_1) M in
             set_cell_chk i index_2
                    (count_cell labels_1 labels_2 mask_actions i index_2) M)
          (range (Z.of_nat (number_of_leaves e) + 1)) new_trans in
  let? _ := assert (msum new_trans =? msum old)%Z in
  Some new_trans.

(** [_update_transition_matrices]: the new value of [self._new_trans]. *)
Definition _update_transition_matrices (e : Env) (cache : option (list Z))
  : option (list (action * Matrix)) :=
  let? new_labels := get_new_labels e cache in
  let? _ := assert (length (data_refs e) =? number_of_samples_when_created e) in
  mapM (fun a => let? M := new_trans_of_action e new_labels a in Some (a, M))
       (known_actions e).

(** The invariants of the data model on what a candidate reads: one
    label and one action per sample, every label the index of a leaf,
    the node's references the samples that carry its index, and every
    known action's matrix the count of its transitions. *)
Record consistent (e : Env) : Prop := {
  labels_length : length (labels e) = number_of_samples e;
  actions_length : length (actions e) = number_of_samples e;
  labels_range : labels_in_range (number_of_leaves e) (labels e) = true;
  leaf_index_range : leaf_index e < number_of_leaves e;
  data_refs_labels :
    Permutation (data_refs e) (where_eq (Z.of_nat (leaf_index e)) (labels e));
  samples_when_created :
    number_of_samples_when_created e = length (data_refs e);
  transitions_counted :
    forall a, In a (known_actions e) ->
      lookup a (transitions e) =
      Some (recount (number_of_leaves e) (labels e) (actions e) a)
}.

(** The test function of the candidate is binary. *)
Definition binary_test (e : Env) : Prop :=
  forall r, t e r = 0%Z \/ t e r = 1%Z.

(** The test sends references of the node to both children. *)
Definition separates (e : Env) : Prop :=
  (exists r, In r (data_refs e) /\ t e r = 0%Z)
  /\ (exists r, In r (data_refs e) /\ t e r = 1%Z).

(** The known actions are listed once, and every transition of the
    stream is taken with one of them. *)
Definition actions_known (e : Env) : Prop :=
  NoDup (known_actions e)
  /\ forall i, i < number_of_samples e - 1 ->
       In (nth i (actions e) None) (known_actions e).

End SplitParams.

(** ** The split of a row and a column, as a statement

    Where row (column) [x] of the old matrix is found after a row
    (column) has been inserted immediately after [index]. *)
Definition past (index x : nat) : nat := if x <=? index then x else S x.

(** "Inserts a zeroed row and a zeroed column immediately after
    [index]; every entry outside the inserted row and column is left
    unchanged (same value, shifted position past the insertion
    point)". *)
Definition inserts_after (M : Matrix) (K index : nat) (M' : Matrix) : Prop :=
  shape M' (S K) (S K) /\
  (forall t, t <= K -> cell M' (S index) t = 0%Z) /\
  (forall s, s <= K -> cell M' s (S index) = 0%Z) /\
  (forall s t, s < K -> t < K ->
     cell M' (past index s) (past index t) = cell M s t).

(** What the four statements do: the row and the column of [index] are
    zeroed as well, the other entries keep their value. *)
Definition splits_at (M : Matrix) (K index : nat) (M' : Matrix) : Prop :=
  shape M' (S K) (S K) /\
  (forall t, cell M' index t = 0%Z /\ cell M' (S index) t = 0%Z) /\
  (forall s, cell M' s index = 0%Z /\ cell M' s (S index) = 0%Z) /\
  (forall s t, s < K -> t < K -> s <> index -> t <> index ->
     cell M' (past index s) (past index t) = cell M s t).

(** ** The labels after a split, as a statement

    A reference of the split leaf stays at the leaf's index when the
    test gives 0 and moves to the index plus one when it gives 1; every
    label above the leaf's index moves up by one. *)
Definition relabel (current_state : Z) (t : nat -> Z) (i : nat) (l : Z) : Z :=
  if (l >? current_state)%Z then (l + 1)%Z
  else if (l =? current_state)%Z then (current_state + t i)%Z
  else l.

Definition relabelled (current_state : nat) (t : nat -> Z) (labels : list Z)
  : list Z :=
  map (fun i => relabel (Z.of_nat current_state) t i (nth i labels 0%Z))
      (seq 0 (length labels)).

(** The number of transitions [(i, i+1)] taken with action [a]. *)
Definition transitions_with (labels : list Z) (actions : list action)
    (a : action) : Z :=
  Z.of_nat (length (filter (fun i => action_eqb (nth i actions None) a)
                           (seq 0 (length labels - 1)))).

(** ** A small stream, used to exercise the definitions

    Six samples in two states, two known actions, the last action
    unknown; the leaf of state 0 is split by the parity of the index. *)

Definition sample_actions : list action :=
  [Some 0; Some 1; Some 0; Some 0; Some 1; None]%Z.

Definition sample_labels : list Z := [0; 1; 0; 0; 1; 0]%Z.

Definition sample_env : SplitParams.Env := {|
  SplitParams.number_of_samples := 6;
  SplitParams.actions := sample_actions;
  SplitParams.known_actions := [Some 0; Some 1]%Z;
  SplitParams.labels := sample_labels;
  SplitParams.transitions :=
    [(Some 0%Z, [[1; 2]; [0; 0]]%Z); (Some 1%Z, [[0; 0]; [2; 0]]%Z)];
  SplitParams.data_refs := [0; 2; 3; 5];
  SplitParams.leaf_index := 0;
  SplitParams.number_of_leaves := 2;
  SplitParams.number_of_samples_when_created := 4;
  SplitParams.t := fun r => if Nat.even r then 0%Z else 1%Z
|}.

(** ** worldmodel_tree.py: class WorldmodelTree

    The base class [tree_structure.Tree] is not part of the sources at
    hand.  Its nodes are modelled from the specification: a node is a
    leaf, which owns data references, or an internal node with exactly
    two children and the parameters of its split test; a leaf's index is
    its position in the left-to-right sequence of leaves.  A node is
    named by the path that leads to it from the root ([false] for the
    first child, [true] for the second). *)

Module WorldmodelTree.

Section Nodes.
Variables Obs Params : Type.

(** A strategy's [_test(x, params)]: the index of the child. *)
Variable _test : Obs -> Params -> bool.

Inductive Tree : Type :=
| Leaf (data_refs : list nat)
| Node (_test_params : Params) (child_1 child_2 : Tree).

(** [__init__]: a leaf with [data_refs = np.empty(0, dtype=int)]. *)
Definition __init__ : Tree := Leaf [].

Definition is_leaf (node : Tree) : bool :=
  match node with
  | Leaf _ => true
  | Node _ _ _ => false
  end.

(** Modelled from the spec: [get_leaves], the leaves from left to
    right. *)
Fixpoint get_leaves (node : Tree) : list (list bool) :=
  match node with
  | Leaf _ => [[]]
  | Node _ a b =>
      map (cons false) (get_leaves a) ++ map (cons true) (get_leaves b)
  end.

Definition get_number_of_leaves (root : Tree) : nat :=
  length (get_leaves root).

Fixpoint index_of (p : list bool) (l : list (list bool)) : option nat :=
  match l with
  | [] => None
  | q :: l' =>
      if list_eq_dec Bool.bool_dec p q then Some 0
      else option_map S (index_of p l')
  end.

(** Modelled from the spec: [get_leaf_index], the position of the leaf
    in [get_leaves()]. *)
Definition get_leaf_index (root : Tree) (leaf : list bool) : option nat :=
  index_of leaf (get_leaves root).

(** The loop [while not node.is_leaf(): ...] of [classify]: the leaf
    that is reached from [node]. *)
Fixpoint descend (node : Tree) (dat : Obs) : list bool :=
  match node with
  | Leaf _ => []
  | Node params a b =>
      if _test dat params then true :: descend b dat
      else false :: descend a dat
  end.

(** [classify], called on the root with a batch of observations. *)
Definition classify (root : Tree) (x : list Obs) : option (list nat) :=
  mapM (fun dat => get_leaf_index root (descend root dat)) x.

End Nodes.

(** [split]: what the partitioning and the two children receive.
    [SplitParams] of split_params.py names the getters [get_new_trans]
    and [get_new_dat_refs]. *)
Record SplitResult : Type := {
  new_labels : list Z;
  new_transitions : list (action * Matrix);
  child_1_data_refs : list nat;
  child_2_data_refs : list nat
}.

Definition split (e : SplitParams.Env) : option SplitResult :=
  let leaf_index := Z.of_nat (SplitParams.leaf_index e) in
  let? _ := assert (Z.of_nat (length (SplitParams.data_refs e)) =?
                    count_nonzero (eq_mask (SplitParams.labels e) leaf_index))%Z in
  let? labels := SplitParams.get_new_labels e None in
  let? transitions := SplitParams._update_transition_matrices e None in
  let? new_dat_refs := SplitParams._update_dat_refs e None in
  let? _ := assert (length (SplitParams.data_refs e) =?
                    length (fst new_dat_refs) + length (snd new_dat_refs)) in
  let? _ := assert (Z.of_nat (length (fst new_dat_refs)) =?
                    count_nonzero (eq_mask labels leaf_index))%Z in
  let? _ := assert (Z.of_nat (length (snd new_dat_refs)) =?
                    count_nonzero (eq_mask labels (leaf_index + 1)))%Z in
  Some {| new_labels := labels;
          new_transitions := transitions;
          child_1_data_refs := fst new_dat_refs;
          child_2_data_refs := snd new_dat_refs |}.

(** *** References of a node and of its transitions *)

(** [np.sort]: the ascending arrangement of the array. *)
Fixpoint insert_sorted (x : nat) (l : list nat) : list nat :=
  match l with
  | [] => [x]
  | y :: l' => if x <=? y then x :: l else y :: insert_sorted x l'
  end.

Definition np_sort (l : list nat) : list nat := fold_right insert_sorted [] l.

(** [np.unique]: the distinct elements of the array in ascending
    order. *)
Fixpoint insert_unique (x : Z) (l : list Z) : list Z :=
  match l with
  | [] => [x]
  | y :: l' =>
      if (x <? y)%Z then x :: l
      else if (x =? y)%Z then l
      else y :: insert_unique x l'
  end.

Definition np_unique (l : list Z) : list Z := fold_right insert_unique [] l.

(** [np.in1d(a, b, assume_unique=True)] for arrays without repeated
    elements (the result is not specified otherwise). *)
Definition in1d (a b : list Z) : list bool :=
  map (fun x => existsb (Z.eqb x) b) a.

(** [a[mask]] *)
Definition select (A : Type) (a : list A) (mask : list bool) : list A :=
  map fst (filter snd (combine a mask)).

(** [np.setdiff1d(a, b, assume_unique=True)]: [a[in1d(a, b,
    assume_unique=True, invert=True)]]. *)
Definition setdiff1d_unique (a b : list Z) : list Z :=
  select a (map negb (in1d a b)).

(** [np.setdiff1d(a, b)] *)
Definition setdiff1d (a b : list Z) : list Z :=
  setdiff1d_unique (np_unique a) (np_unique b).

(** [np.union1d(a, b)]: [unique(concatenate((a, b)))] *)
Definition union1d (a b : list Z) : list Z := np_unique (a ++ b).

(** [set(a) == set(b)] *)
Definition set_eqb (a b : list Z) : bool :=
  forallb (fun x => existsb (Z.eqb x) b) a
  && forallb (fun x => existsb (Z.eqb x) a) b.

(** [get_data_refs()]: the references of a leaf; below an inner node
    the references of its children, stacked and sorted. *)
Fixpoint get_data_refs (Params : Type) (node : Tree Params) : list nat :=
  match node with
  | Leaf _ data_refs => data_refs
  | Node _ child_1 child_2 =>
      np_sort ([] ++ get_data_refs child_1 ++ get_data_refs child_2)
  end.

(** [get_transition_refs(heading_in, inside, heading_out)] of a node
    with the references [refs_1], in a model of [N] samples. *)
Definition get_transition_refs (refs_1 : list Z) (N : Z)
    (heading_in inside heading_out : bool) : option (list Z) :=
  let refs_0 := map (fun r => (r - 1)%Z) refs_1 in
  let result : list Z := [] in
  let? result :=
    if heading_in
    then
      let? _ := assert false in
      (* the statements that follow [assert False] are not reached *)
      None
    else Some result in
  let result :=
    if inside
    then
      let mask := in1d refs_1 refs_0 in
      let refs_array_inside := select refs_1 mask in
      union1d result refs_array_inside
    else result in
  if heading_out
  then
    let refs_array_out := setdiff1d_unique refs_1 refs_0 in
    let refs_array_out := setdiff1d refs_array_out [(N - 1)%Z] in
    let? _ :=
      assert (set_eqb refs_array_out
                (filter (fun ref =>
                           negb (existsb (Z.eqb (ref + 1)) refs_1)
                           && (ref + 1 <? N)%Z)
                        refs_1)) in
    Some (union1d result refs_array_out)
  else Some result.

(** [get_transition_refs_for_action(action, ...)]; [model.actions] is
    indexed with the references, Python's negative indices included. *)
Definition get_transition_refs_for_action (refs_1 : list Z) (N : Z)
    (model_actions : list action) (a : action)
    (heading_in inside heading_out : bool) : option (list Z) :=
  let? refs := get_transition_refs refs_1 N heading_in inside heading_out in
  let? actions :=
    mapM (fun r => let? i := py_index (length model_actions) r in
                   nth_error model_actions i) refs in
  let mask := map (fun x => action_eqb x a) actions in
  Some (select refs mask).

(** The references held by the leaves below a node, from left to
    right. *)
Fixpoint leaf_refs (Params : Type) (node : Tree Params) : list nat :=
  match node with
  | Leaf _ data_refs => data_refs
  | Node _ child_1 child_2 => leaf_refs child_1 ++ leaf_refs child_2
  end.

End WorldmodelTree.

(** ** partitioning.py: class Partitioning *)

Module Partitioning.

(** What a partitioning reads from the model, whose class is not part
    of the sources at hand. *)
Record Model : Type := {
  number_of_samples : nat;        (* model.get_number_of_samples() *)
  actions : list action;          (* model.actions *)
  known_actions : list action     (* model.get_known_actions() *)
}.

Record t (Params : Type) : Type := {
  active_action : action;
  labels : list Z;
  tree : WorldmodelTree.Tree Params;
  transitions : list (action * Matrix)
}.

(** [__init__] *)
Definition __init__ (Params : Type) (model : Model) (active_action : action)
  : t Params :=
  let N := number_of_samples model in
  {| active_action := active_action;
     labels := repeat 0%Z N;
     tree := WorldmodelTree.__init__ Params;
     transitions :=
       map (fun action =>
              (action,
               [[ (1 * count_nonzero
                         (map (fun x => action_eqb x action) (actions model)))%Z ]]))
           (known_actions model) |}.

(** [get_merged_transition_matrices]; [K] is
    [self.tree.get_number_of_leaves()]. *)
Definition get_merged_transition_matrices (model : Model) (K : nat)
    (transitions : list (action * Matrix)) : option Matrix :=
  let? P := foldM (fun P a => let? M := lookup a transitions in iadd P M)
                  (known_actions model) (zeros K K) in
  let? _ := assert (msum P =? Z.of_nat (number_of_samples model) - 1)%Z in
  Some P.

(** [classify(data)]: [self.tree.classify(data)], as a step. *)
Definition classify (Obs Params : Type) (_test : Obs -> Params -> bool)
    (p : t Params) (data : list Obs) : t Params * option (list nat) :=
  (p, WorldmodelTree.classify _test (tree p) data).

(** [calc_best_split]: the loop over the leaves.  [SplitParamsLocalGain]
    and [update] are not part of the sources at hand; a leaf's
    candidate is given by the position of the leaf and by the value of
    its [get_gain()].  The result is the leaf whose candidate is
    returned. *)
Definition calc_best_split (data_is_None : bool) (splits : list (nat * R))
  : option nat :=
  if data_is_None then None
  else
    option_map fst
      (fold_left
         (fun best_split split =>
            match best_split with
            | None => Some split
            | Some best =>
                if Rleb (snd best) (snd split)
                then Some split else best_split
            end)
         splits None).

End Partitioning.

(** ** worldmodel.py: class WorldModelTree, the entropy primitives *)

Module WorldModelTree.

(** [np.sum] of a vector and of a matrix, [np.sum(M, axis=1)] *)
Definition Rsum (v : list R) : R := fold_right Rplus 0%R v.
Definition Rmsum (M : list (list R)) : R := Rsum (map Rsum M).
Definition row_sums (M : list (list R)) : list R := map Rsum M.

(** [np.log2] *)
Definition log2 (x : R) : R := (ln x / ln 2)%R.

(** [_entropy(dist, normalize, ignore_empty_classes)] *)
Definition _entropy (dist : list R) (normalize ignore_empty_classes : bool)
  : option R :=
  (* negative values? *)
  let? _ := assert (negb (existsb (fun x => Rltb x (- 0)%R) dist)) in
  let trans_sum := Rsum dist in
  let K := length dist in
  (* only one class? *)
  if K <=? 1 then Some 1%R
  else
    (* empty class? *)
    if Reqb trans_sum 0%R then
      let? _ := (if negb ignore_empty_classes
                 then assert (negb (Reqb trans_sum 0%R)) else Some tt) in
      if normalize then Some 1%R else Some (log2 (INR K))
    else
      (* the actual calculation *)
      let probs := map (fun x => (x / trans_sum)%R) dist in
      let log_probs :=
        map (fun p => if Rltb 0%R p then log2 p else 0%R) probs in
      let entropy :=
        (- Rsum (map (fun pl => (fst pl * snd pl)%R)
                     (combine probs log_probs)))%R in
      (* normalization? *)
      let? _ := assert (Rleb entropy (log2 (INR K))) in
      let entropy :=
        if normalize then (entropy / log2 (INR K))%R else entropy in
      let? _ := assert (Rleb 0%R entropy) in
      Some entropy.

(** [_matrix_entropy(transitions, normalize)] *)
Definition _matrix_entropy (transitions : list (list R)) (normalize : bool)
  : option R :=
  let? row_entropies :=
    mapM (fun row => _entropy row normalize false) transitions in
  (* weighted average *)
  let weights := row_sums transitions in
  let weights := map (fun w => (w / Rsum weights)%R) weights in
  Some (Rsum (map (fun we => (fst we * snd we)%R)
                  (combine weights row_entropies))).

(** [_mutual_information(transition_matrix)] *)
Definition _mutual_information (transition_matrix : list (list R))
  : option R :=
  let P := transition_matrix in
  let? _ := assert (Rltb 0%R (Rmsum P)) in
  let weights := row_sums P in
  let mu := map (fun w => (w / Rsum weights)%R) weights in
  let? entropy_mu := _entropy mu false false in
  let? entropy := _matrix_entropy transition_matrix false in
  Some (entropy_mu - entropy)%R.

(** *** Exceptions

    [_calculate_splitting_gain] catches ARPACK's [ArpackNoConvergence]
    and nothing else, so the exceptions are told apart. *)

Inductive exn : Type := ArpackNoConvergence | OtherError.

Inductive res (A : Type) : Type :=
| Ok (a : A)
| Raise (e : exn).

Arguments Ok {A} a.
Arguments Raise {A} e.

Definition rbind {A B : Type} (m : res A) (k : A -> res B) : res B :=
  match m with
  | Ok a => k a
  | Raise e => Raise e
  end.

Notation "'let!' x ':=' m 'in' k" := (rbind m (fun x => k))
  (at level 10, x name, m at level 100, k at level 200).

(** A failed [assert], an [IndexError], a [KeyError], ... *)
Definition lift {A : Type} (o : option A) : res A :=
  match o with
  | Some a => Ok a
  | None => Raise OtherError
  end.

Fixpoint rmapM {A B : Type} (f : A -> res B) (l : list A) : res (list B) :=
  match l with
  | [] => Ok []
  | x :: l' => let! y := f x in let! ys := rmapM f l' in Ok (y :: ys)
  end.

Fixpoint rfoldM {A B : Type} (f : B -> A -> res B) (l : list A) (acc : B)
  : res B :=
  match l with
  | [] => Ok acc
  | x :: l' => let! acc' := f acc x in rfoldM f l' acc'
  end.

(** *** Label arrays

    [labels] starts as the one-dimensional array of the first call of
    [add_data] and, after a split, is a Python list of the same
    numbers.  [np.vstack] in a later call of [add_data] makes it
    two-dimensional; an item of such an array is a row, which stands for
    a number where it has exactly one element. *)

Inductive Labels : Type :=
| Arr1 (v : list Z)
| Arr2 (rows : list (list Z)).

(** [len(labels)] *)
Definition labels_len (l : Labels) : nat :=
  match l with
  | Arr1 v => length v
  | Arr2 rows => length rows
  end.

Definition as_number (row : list Z) : option Z :=
  match row with
  | [z] => Some z
  | _ => None
  end.

(** The labels, read as numbers. *)
Definition scalars (l : Labels) : option (list Z) :=
  match l with
  | Arr1 v => Some v
  | Arr2 rows => mapM as_number rows
  end.

(** A Python list of new labels, with items of the kind of [l]'s. *)
Definition like (l : Labels) (v : list Z) : Labels :=
  match l with
  | Arr1 _ => Arr1 v
  | Arr2 _ => Arr2 (map (fun z => [z]) v)
  end.

(** [np.vstack([l, new])] for a one-dimensional [new]: the rows must
    have one length, or a [ValueError] is raised. *)
Definition vstack (l : Labels) (new : list Z) : option Labels :=
  match l with
  | Arr1 v =>
      if length v =? length new then Some (Arr2 [v; new]) else None
  | Arr2 rows =>
      if forallb (fun r => length r =? length new) rows
      then Some (Arr2 (rows ++ [new])) else None
  end.

(** [l[i]] for a Python index [i]. *)
Definition py_get {A : Type} (l : list A) (i : Z) : option A :=
  let? k := py_index (length l) i in nth_error l k.

(** [labels[i]], used as a number. *)
Definition label_at (l : Labels) (i : Z) : option Z :=
  match l with
  | Arr1 v => py_get v i
  | Arr2 rows => let? row := py_get rows i in as_number row
  end.

(** [range(a, b)] *)
Definition range2 (a b : Z) : list Z :=
  map (fun k => (a + Z.of_nat k)%Z) (seq 0 (Z.to_nat (b - a))).

(** [set(actions)], in the order in which the dictionary built from it
    is iterated (Python fixes some order; here, first occurrences). *)
Definition set_of (actions : list action) : list action :=
  nodup action_eq_dec actions.

(** [d[a] = f(d[a])]: a [KeyError] when [a] is not a key. *)
Fixpoint update_key {V : Type} (a : action) (f : V -> option V)
    (d : list (action * V)) : option (list (action * V)) :=
  match d with
  | [] => None
  | (k, v) :: d' =>
      if action_eqb k a then let? v' := f v in Some ((k, v') :: d')
      else let? d'' := update_key a f d' in Some ((k, v) :: d'')
  end.

(** *** The tree *)

Section Tree.
Variable Obs : Type.

(** A fitted [KNNClassifier]: [knn.label(x)[0]] for one observation.
    [knn.label] labels the rows of a matrix one by one. *)
Definition Knn : Type := Obs -> bool.

(** A node with status ['leaf'] or ['split'].  The status ['merged'] is
    only set by [_merge_nodes], which [learn] calls in a loop over
    [range(0)]. *)
Inductive Node : Type :=
| Leaf (dat_ref : list nat) (knn : option Knn)
| Split (knn : option Knn) (child0 child1 : Node).

Record Stats : Type := {
  n_states : nat;
  n_nodes : nat;
  norm : R;
  entropy : R;
  entropy_normalized : R;
  mutual_information : R
}.

(** The attributes of the root node. *)
Record Root : Type := {
  tree : Node;
  data : option (list Obs);
  labels : Labels;
  actions : list action;
  transitions : option (list (action * Matrix));
  stats : list Stats
}.

(** [__init__]; [labels] and [actions] are set by the first
    [add_data]. *)
Definition __init__ : Root :=
  {| tree := Leaf [] None; data := None; labels := Arr1 [];
     actions := []; transitions := None; stats := [] |}.

(** [get_leaves]: the attributes of the leaves, from left to right. *)
Fixpoint get_leaves (node : Node) : list (list nat * option Knn) :=
  match node with
  | Leaf d k => [(d, k)]
  | Split _ a b => get_leaves a ++ get_leaves b
  end.

Fixpoint n_leaves (node : Node) : nat :=
  match node with
  | Leaf _ _ => 1
  | Split _ a b => n_leaves a + n_leaves b
  end.

(** [len(self._nodes())] *)
Fixpoint count_nodes (node : Node) : nat :=
  match node with
  | Leaf _ _ => 1
  | Split _ a b => 1 + count_nodes a + count_nodes b
  end.

(** The leaf at position [idx] of [get_leaves()] is replaced. *)
Fixpoint update_leaf (f : list nat -> option Knn -> Node) (idx : nat)
    (node : Node) : Node :=
  match node with
  | Leaf d k => if idx =? 0 then f d k else node
  | Split k a b =>
      if idx <? n_leaves a then Split k (update_leaf f idx a) b
      else Split k a (update_leaf f (idx - n_leaves a) b)
  end.

(** [_test(x)]: [self.knn.label(x)[0]], an [AttributeError] before a
    classifier is fitted. *)
Definition _test (knn : option Knn) (x : Obs) : res bool :=
  match knn with
  | Some k => Ok (k x)
  | None => Raise OtherError
  end.

(** [classify(x)] for one vector.  At a leaf the result is
    [get_class_label()], the position of the leaf in the root's
    [get_leaves()]: the number [offset] of leaves to its left. *)
Fixpoint classify_from (node : Node) (x : Obs) (offset : nat) : res nat :=
  match node with
  | Leaf _ _ => Ok offset
  | Split knn c0 c1 =>
      let! child_index := _test knn x in
      if (child_index : bool)
      then classify_from c1 x (offset + n_leaves c0)
      else classify_from c0 x offset
  end.

(** [classify(x)] for a matrix of observations. *)
Definition classify (root : Node) (x : list Obs) : res (list nat) :=
  rmapM (fun row => classify_from root row 0) x.

(** [add_data(x, actions)], called on the root. *)
Definition add_data (root : Root) (x : list Obs)
    (new_actions : option (list action)) : res Root :=
  (* calculate labels for new data *)
  let n := length x in
  let! new_labels := classify (tree root) x in
  let new_labels := map Z.of_nat new_labels in
  let self_actions := actions root in
  let pad (actions : list action) :=
    if length actions <? n then actions ++ [None] else actions in
  (* store data to root node *)
  let! stored :=
    match data root with
    | None =>
        let actions :=
          match new_actions with
          | None => repeat (Some 0%Z) n
          | Some actions => pad actions
          end in
        let! _ := lift (assert (length actions =? n)) in
        Ok (0, 0%Z, x, Arr1 new_labels, actions, actions)
    | Some old =>
        let first_data := length old in
        let! labels := lift (vstack (labels root) new_labels) in
        let actions :=
          match new_actions with
          | None => repeat None n
          | Some actions => pad actions
          end in
        let! _ := lift (assert (length actions =? n)) in
        Ok (first_data, (Z.of_nat first_data - 1)%Z, old ++ x, labels,
            actions, self_actions ++ actions)
    end in
  let '(first_data, first_source, data', labels', actions, all_actions) :=
    stored in
  (* add references to data in all leaves *)
  let N := length data' in
  let! tree' :=
    rfoldM (fun t i =>
              let! state := lift (label_at labels' (Z.of_nat i)) in
              let! leaf := lift (py_index (n_leaves t) state) in
              Ok (update_leaf (fun d k => Leaf (d ++ [i]) k) leaf t))
           (seq first_data (N - first_data)) (tree root) in
  (* create global transition matrices (for each action) *)
  let K := n_leaves tree' in
  let transitions' :=
    match transitions root with
    | None => map (fun a => (a, zeros K K)) (set_of actions)
    | Some t => t
    end in
  (* update transition matrices *)
  let! transitions'' :=
    rfoldM (fun t i =>
              let! source := lift (label_at labels' i) in
              let! target := lift (label_at labels' (i + 1)) in
              let! action := lift (py_get all_actions i) in
              lift (update_key action (incr_at source target) t))
           (range2 first_source (Z.of_nat N - 1)) transitions' in
  Ok {| tree := tree'; data := Some data'; labels := labels';
        actions := all_actions; transitions := Some transitions'';
        stats := stats root |}.

(** A call of [classify] on the model, as a step: the model after the
    call and the labels (no attribute is assigned). *)
Definition classify_call (root : Root) (x : list Obs)
  : Root * res (list nat) :=
  (root, classify (tree root) x).

End Tree.

(** *** Gains *)

(** A gain: a number or [float('-inf')]. *)
Inductive Gain : Type := NegInf | Fin (g : R).

(** [g > best] *)
Definition gain_gtb (g best : Gain) : bool :=
  match g, best with
  | NegInf, _ => false
  | Fin _, NegInf => true
  | Fin x, Fin y => Rltb y x
  end.

(** [g >= bound] *)
Definition gain_geb (g bound : Gain) : bool :=
  match g, bound with
  | _, NegInf => true
  | NegInf, Fin _ => false
  | Fin x, Fin y => Rleb y x
  end.

(** *** Candidate splits *)

Section Learning.
Variable Obs : Type.

(** The numerical part of [_init_test], from the transition graph to
    the centred entries [u] of the second eigenvector (one per strict
    transition), as a function of the strict transitions and the
    observations they start from.  ARPACK raises
    [ArpackNoConvergence]. *)
Variable spectral_partition : list nat -> list Obs -> res (list R).

(** [KNNClassifier(k=k)] trained on observations and their labels. *)
Variable knn_train : list Obs -> list bool -> Knn Obs.

(** [self._min_class_size] *)
Definition _min_class_size : nat := 50.

(** [get_transition_refs_strict(action)] of a leaf with the references
    [refs]; the pair [(t, t+1)] is given by [t]. *)
Definition get_transition_refs_strict (root : Root Obs) (refs : list nat)
    (a : action) : res (list nat) :=
  match a with
  | None => Ok (filter (fun t => existsb (Nat.eqb (t + 1)) refs) refs)
  | Some _ =>
      let! _ := lift (take None (actions root) refs) in
      Ok (filter (fun t => action_eqb (nth t (actions root) None) a
                           && existsb (Nat.eqb (t + 1)) refs) refs)
  end.

(** [get_transition_data_strict(action)]; [np.vstack] raises on an
    empty list. *)
Definition get_transition_data_strict (root : Root Obs) (refs : list nat)
    (a : action) : res (list Obs * list Obs) :=
  let! strict := get_transition_refs_strict root refs a in
  let! d := lift (data root) in
  let! data_1 := lift (mapM (nth_error d) strict) in
  let! data_2 := lift (mapM (fun t => nth_error d (t + 1)) strict) in
  let! _ := lift (assert (negb (length strict =? 0))) in
  Ok (data_1, data_2).

(** [_init_test(action)] of a leaf with the references [refs] and the
    classifier [knn]: the returned flag and the leaf's classifier after
    the call. *)
Definition _init_test (root : Root Obs) (refs : list nat)
    (knn : option (Knn Obs)) (a : action) : res (bool * option (Knn Obs)) :=
  let! strict := get_transition_refs_strict root refs a in
  let! data_12 := get_transition_data_strict root refs a in
  let data_1 := fst data_12 in
  (* transitions, transition matrix, eigenvector *)
  let! u := spectral_partition strict data_1 in
  (* bi-partition *)
  if negb (existsb (fun x => Rltb x 0%R) u) then Ok (false, knn)
  else if negb (existsb (fun x => Rltb 0%R x) u) then Ok (false, knn)
  else
    let labels := map (fun x => Rltb 0%R x) u in
    (* classifier *)
    let knn' := knn_train data_1 labels in
    let y := map knn' data_1 in
    if negb (existsb negb y) then Ok (false, Some knn')
    else if negb (existsb (fun b => b) y) then Ok (false, Some knn')
    else Ok (true, Some knn').

(** [_relabel_data()] of the leaf at position [current_state] with the
    references [refs] and the classifier [knn].  The result [None]
    stands for the pair [(None, None)]. *)
Definition _relabel_data (root : Root Obs) (current_state : nat)
    (refs : list nat) (knn : option (Knn Obs))
  : res (option (list Z * (list nat * list nat))) :=
  let! old_labels := lift (scalars (labels root)) in
  (* increase labels above current state by one *)
  let new_labels :=
    map (fun l => if (l >? Z.of_nat current_state)%Z then (l + 1)%Z else l)
        old_labels in
  (* every entry belonging to this node has to be re-classified *)
  let! r :=
    rfoldM (fun acc ref_i =>
              let new_labels := fst acc in
              let new_dat_ref := snd acc in
              let! d := lift (data root) in
              let! dat := lift (nth_error d ref_i) in
              let! child_i := _test knn dat in
              let! l := lift (nth_error new_labels ref_i) in
              let new_labels :=
                set_at ref_i (l + Z.b2z child_i)%Z new_labels in
              Ok (new_labels,
                  if (child_i : bool)
                  then (fst new_dat_ref, snd new_dat_ref ++ [ref_i])
                  else (fst new_dat_ref ++ [ref_i], snd new_dat_ref)))
           refs (new_labels, ([], [])) in
  let new_labels := fst r in
  let new_dat_ref := snd r in
  let! _ := lift (assert (length new_labels =? labels_len (labels root))) in
  (* does the split really split the data in two? *)
  let! _ := lift (assert (0 <? length (fst new_dat_ref))) in
  let! _ := lift (assert (0 <? length (snd new_dat_ref))) in
  if (length (fst new_dat_ref) =? 0) || (length (snd new_dat_ref) =? 0)
  then Ok None
  else Ok (Some (new_labels, new_dat_ref)).

(** [_merge_transition_matrices(transitions)] *)
Definition _merge_transition_matrices (root : Root Obs)
    (arg : option (list (action * Matrix))) : res (option Matrix) :=
  let arg := match arg with
             | None => transitions root
             | Some t => Some t
             end in
  match arg with
  | None => Ok None
  | Some t =>
      let! first := lift (hd_error t) in
      let K := nrows (snd first) in
      let! own := lift (transitions root) in
      let! P := lift (foldM (fun P kv => iadd P (snd kv)) own (zeros K K)) in
      Ok (Some P)
  end.

(** [_split_transition_matrix(root, action, new_labels, index1)], with
    [index2=None]. *)
Definition _split_transition_matrix (root : Root Obs) (a : action)
    (new_labels : list Z) (index1 : nat) : res Matrix :=
  let N := length new_labels in
  let! _ := lift (assert (index1 <? n_leaves (tree root))) in
  let! own := lift (transitions root) in
  let! old := lift (lookup a own) in
  let! m := lift (py_max new_labels) in
  let! _ := lift (assert (m =? Z.of_nat (nrows old))%Z) in
  let index2 := index1 in
  (* new transition matrix *)
  let! new_trans := lift (split_row_col old index1 index2) in
  (* update all transitions from or to current state *)
  rfoldM (fun new_trans i =>
            let! source := lift (label_at (labels root) i) in
            let! target := lift (label_at (labels root) (i + 1)) in
            let! act := lift (py_get (actions root) i) in
            if action_eqb act a
            then
              if (source =? Z.of_nat index1)%Z || (target =? Z.of_nat index1)%Z
              then
                let! new_source := lift (py_get new_labels i) in
                let! new_target := lift (py_get new_labels (i + 1)) in
                lift (incr_at new_source new_target new_trans)
              else Ok new_trans
            else Ok new_trans)
         (range2 0 (Z.of_nat N - 1)) new_trans.

(** [_split_transition_matrices(root, new_labels, index1)] *)
Definition _split_transition_matrices (root : Root Obs) (new_labels : list Z)
    (index1 : nat) : res (list (action * Matrix)) :=
  let N := length new_labels in
  (* check *)
  let! merged := _merge_transition_matrices root None in
  let! P := lift merged in
  let! _ := lift (assert (msum P =? Z.of_nat N - 1)%Z) in
  let! own := lift (transitions root) in
  rmapM (fun kv =>
           let! M := _split_transition_matrix root (fst kv) new_labels index1 in
           Ok (fst kv, M))
        own.

(** [_mutual_information] of a matrix of counts. *)
Definition count_mutual_information (M : Matrix) : res R :=
  lift (_mutual_information (map (map IZR) M)).

(** The body of the [try] statement of [_calculate_splitting_gain] for
    one action: the gain of the candidate, or [None] when the loop
    continues without one, and the leaf's classifier. *)
Definition candidate_gain (root : Root Obs) (index : nat) (refs : list nat)
    (knn : option (Knn Obs)) (a : action)
  : res (option R * option (Knn Obs)) :=
  let! init := _init_test root refs knn a in
  let knn := snd init in
  if (fst init : bool)
  then
    let! relabelled := _relabel_data root index refs knn in
    match relabelled with
    | None => Ok (None, knn)
    | Some (new_labels, _) =>
        let! split_transition_matrices :=
          _split_transition_matrices root new_labels index in
        let! new_matrix := lift (lookup a split_transition_matrices) in
        let! new_mutual_information := count_mutual_information new_matrix in
        let! own := lift (transitions root) in
        let! old_matrix := lift (lookup a own) in
        let! old_mutual_information := count_mutual_information old_matrix in
        Ok (Some (new_mutual_information - old_mutual_information)%R, knn)
    end
  else Ok (None, knn).

(** The loop of [_calculate_splitting_gain] over the actions [keys]
    that are left; [ArpackNoConvergence] is caught. *)
Fixpoint gain_loop (root : Root Obs) (index : nat) (refs : list nat)
    (keys : list action) (knn : option (Knn Obs))
    (best_gain : Gain) (best_action : action)
  : res (Gain * action * option (Knn Obs)) :=
  match keys with
  | [] => Ok (best_gain, best_action, knn)
  | None :: keys' => gain_loop root index refs keys' knn best_gain best_action
  | a :: keys' =>
      match candidate_gain root index refs knn a with
      | Raise ArpackNoConvergence =>
          gain_loop root index refs keys' knn best_gain best_action
      | Raise e => Raise e
      | Ok (None, knn') =>
          gain_loop root index refs keys' knn' best_gain best_action
      | Ok (Some gain, knn') =>
          if gain_gtb (Fin gain) best_gain
          then gain_loop root index refs keys' knn' (Fin gain) a
          else gain_loop root index refs keys' knn' best_gain best_action
      end
  end.

(** [_calculate_splitting_gain()] of the leaf at position [index]:
    [[best_gain, best_action]] and the leaf's classifier. *)
Definition _calculate_splitting_gain (root : Root Obs) (index : nat)
  : res (Gain * action * option (Knn Obs)) :=
  let! leaf := lift (nth_error (get_leaves (tree root)) index) in
  let! own := lift (transitions root) in
  gain_loop root index (fst leaf) (map fst own) (snd leaf) NegInf None.

(** [_reached_min_sample_size()] of a leaf with the references
    [refs]. *)
Fixpoint min_sample_loop (root : Root Obs) (refs : list nat)
    (keys : list action) : res bool :=
  match keys with
  | [] => Ok true
  | None :: keys' => min_sample_loop root refs keys'
  | a :: keys' =>
      let! strict := get_transition_refs_strict root refs a in
      if length strict <? _min_class_size then Ok false
      else min_sample_loop root refs keys'
  end.

Definition _reached_min_sample_size (root : Root Obs) (refs : list nat)
  : res bool :=
  let! own := lift (transitions root) in
  min_sample_loop root refs (map fst own).

(** [split(action)] of the leaf at position [index] (a leaf with one
    parent at most). *)
Definition split (root : Root Obs) (index : nat) : res (Root Obs) :=
  let! leaf := lift (nth_error (get_leaves (tree root)) index) in
  (* re-classify data *)
  let! relabelled := _relabel_data root index (fst leaf) (snd leaf) in
  let! r := lift relabelled in
  let new_labels := fst r in
  let new_dat_ref := snd r in
  let! new_transitions := _split_transition_matrices root new_labels index in
  (* create new leaves *)
  Ok {| tree :=
          update_leaf (fun _ knn =>
                         Split knn (Leaf (fst new_dat_ref) None)
                                   (Leaf (snd new_dat_ref) None))
                      index (tree root);
        data := data root;
        labels := like (labels root) new_labels;
        actions := actions root;
        transitions := Some new_transitions;
        stats := stats root |}.

(** [_calc_stats(transitions)] *)
Definition _calc_stats (root : Root Obs)
    (arg : option (list (action * Matrix))) : res Stats :=
  let n_nodes := count_nodes (tree root) in
  let! merged := _merge_transition_matrices root arg in
  let! P := lift merged in
  let K := nrows P in
  let P := map (map IZR) P in
  let! entropy := lift (_matrix_entropy P false) in
  let! entropy_normalized := lift (_matrix_entropy P true) in
  (* norm of Q *)
  let weights := row_sums P in
  let probs :=
    map (fun rw => map (fun p => (p / snd rw)%R) (fst rw))
        (combine P weights) in
  let mu := map (fun w => (w / Rsum weights)%R) weights in
  let norm :=
    Rmsum (map (fun rm =>
                  map (fun pm => (fst pm ^ 2 * snd rm / snd pm)%R)
                      (combine (fst rm) mu))
               (combine probs mu)) in
  (* mutual information *)
  let! entropy_mu := lift (_entropy mu false false) in
  Ok {| n_states := K; n_nodes := n_nodes; norm := norm;
        entropy := entropy; entropy_normalized := entropy_normalized;
        mutual_information := (entropy_mu - entropy)%R |}.

(** The loop of [single_splitting_step] over the leaves at the
    positions [indices] that are left: the tree with the classifiers
    that the evaluation leaves behind, [best_gain], and [best_leaf] with
    [best_action]. *)
Fixpoint leaf_loop (root : Root Obs) (indices : list nat)
    (best_gain : Gain) (best : option (nat * action))
  : res (Root Obs * Gain * option (nat * action)) :=
  match indices with
  | [] => Ok (root, best_gain, best)
  | index :: indices' =>
      let! leaf := lift (nth_error (get_leaves (tree root)) index) in
      let! reached := _reached_min_sample_size root (fst leaf) in
      if (reached : bool)
      then
        let! r := _calculate_splitting_gain root index in
        let gain := fst (fst r) in
        let action := snd (fst r) in
        let root' :=
          {| tree := update_leaf (fun d _ => Leaf d (snd r)) index
                                 (tree root);
             data := data root; labels := labels root;
             actions := actions root; transitions := transitions root;
             stats := stats root |} in
        if gain_gtb gain best_gain
        then leaf_loop root' indices' gain (Some (index, action))
        else leaf_loop root' indices' best_gain best
      else leaf_loop root indices' best_gain best
  end.

(** [single_splitting_step(min_gain)]: the model after the call and the
    returned gain. *)
Definition single_splitting_step (root : Root Obs) (min_gain : Gain)
  : res (Root Obs * Gain) :=
  let! r := leaf_loop root (seq 0 (n_leaves (tree root))) NegInf None in
  let root := fst (fst r) in
  let best_gain := snd (fst r) in
  match snd r with
  | Some (best_leaf, Some best_action) =>
      if gain_geb best_gain min_gain
      then
        match split root best_leaf with
        | Raise _ => Ok (root, NegInf)
        | Ok root' =>
            match _calc_stats root' (transitions root') with
            | Raise _ => Ok (root', NegInf)
            | Ok s =>
                Ok ({| tree := tree root'; data := data root';
                       labels := labels root'; actions := actions root';
                       transitions := transitions root';
                       stats := stats root' ++ [s] |}, best_gain)
            end
        end
      else Ok (root, best_gain)
  | _ => Ok (root, best_gain)
  end.

(** The loop [while gain >= min_gain] of [learn]; its first round is
    always run ([gain] starts as [float('inf')]).  [fuel] bounds the
    number of rounds: the result [None] stands for a loop that is
    still running after [fuel] rounds. *)
Fixpoint learn_loop (fuel : nat) (root : Root Obs) (min_gain : Gain)
  : res (option (Root Obs)) :=
  match fuel with
  | O => Ok None
  | S fuel' =>
      let! r := single_splitting_step root min_gain in
      if gain_geb (snd r) min_gain
      then learn_loop fuel' (fst r) min_gain
      else Ok (Some (fst r))
  end.

(** [learn(min_gain, max_costs)]; the loop that merges states again
    runs over [range(0)]. *)
Definition learn (fuel : nat) (root : Root Obs) (min_gain : Gain)
  : res (option (Root Obs)) :=
  (* init stats *)
  let! root :=
    if length (stats root) =? 0
    then
      let! s := _calc_stats root (transitions root) in
      Ok {| tree := tree root; data := data root; labels := labels root;
            actions := actions root; transitions := transitions root;
            stats := stats root ++ [s] |}
    else Ok root in
  (* split as long as it's interesting *)
  learn_loop fuel root min_gain.

(** The classifier that [_init_test] fits for an action, with the
    observations it is trained on and the eigenvector entries that
    label them. *)
Definition fitted (root : Root Obs) (refs : list nat) (a : action)
  : res (Knn Obs * list Obs * list R) :=
  let! strict := get_transition_refs_strict root refs a in
  let! data_12 := get_transition_data_strict root refs a in
  let! u := spectral_partition strict (fst data_12) in
  Ok (knn_train (fst data_12) (map (fun x => Rltb 0%R x) u), fst data_12, u).

(** The test sends all the data references of the leaf to one side. *)
Definition one_sided_on_leaf (root : Root Obs) (refs : list nat)
    (knn : Knn Obs) : Prop :=
  exists side : bool,
    forall d r dat, data root = Some d -> In r refs ->
                    nth_error d r = Some dat -> knn dat = side.

(** The classifier does not separate its training data. *)
Definition not_separating (knn : Knn Obs) (data_1 : list Obs) : Prop :=
  exists side : bool, forall x, In x data_1 -> knn x = side.

(** The candidates of one leaf whose gain is computed, in the order in
    which the loop of [_calculate_splitting_gain] meets them. *)
Fixpoint action_candidates (root : Root Obs) (index : nat) (refs : list nat)
    (keys : list action) (knn : option (Knn Obs))
  : res (list (action * R) * option (Knn Obs)) :=
  match keys with
  | [] => Ok ([], knn)
  | None :: keys' => action_candidates root index refs keys' knn
  | a :: keys' =>
      match candidate_gain root index refs knn a with
      | Raise ArpackNoConvergence =>
          action_candidates root index refs keys' knn
      | Raise e => Raise e
      | Ok (None, knn') => action_candidates root index refs keys' knn'
      | Ok (Some gain, knn') =>
          let! r := action_candidates root index refs keys' knn' in
          Ok ((a, gain) :: fst r, snd r)
      end
  end.

(** The candidates of one round of [single_splitting_step], in the
    order of the leaves and, for one leaf, of the actions; with the
    model that the evaluation leaves behind (the classifiers of the
    leaves are refitted). *)
Fixpoint round_candidates (root : Root Obs) (indices : list nat)
  : res (Root Obs * list (nat * action * R)) :=
  match indices with
  | [] => Ok (root, [])
  | index :: indices' =>
      let! leaf := lift (nth_error (get_leaves (tree root)) index) in
      let! reached := _reached_min_sample_size root (fst leaf) in
      if (reached : bool)
      then
        let! own := lift (transitions root) in
        let! r := action_candidates root index (fst leaf) (map fst own)
                                    (snd leaf) in
        let root' :=
          {| tree := update_leaf (fun d _ => Leaf d (snd r)) index
                                 (tree root);
             data := data root; labels := labels root;
             actions := actions root; transitions := transitions root;
             stats := stats root |} in
        let! rest := round_candidates root' indices' in
        Ok (fst rest,
            map (fun ag => (index, fst ag, snd ag)) (fst r) ++ snd rest)
      else round_candidates root indices'
  end.

End Learning.

(** *** Merging two states *)

(** [np.delete(l, i)] on an index that exists. *)
Definition delete_at (A : Type) (i : nat) (l : list A) : list A :=
  firstn i l ++ skipn (S i) l.

(** [_merge_matrix(matrix, s1, s2)] for two states [s1] and [s2]:
<<
    matrix[s1,:] += matrix[s2,:]
    matrix = np.delete(matrix, s2, 0)
    matrix[:,s1] += matrix[:,s2]
    matrix = np.delete(matrix, s2, 1)
>>
    An index that is not one of the matrix is an [IndexError]. *)
Definition _merge_matrix (matrix : Matrix) (s1 s2 : nat) : option Matrix :=
  let r := nrows matrix in
  let c := ncols matrix in
  let? _ := assert ((s1 <? r) && (s2 <? r)) in
  let matrix :=
    set_at s1 (add_rows (nth s1 matrix []) (nth s2 matrix [])) matrix in
  let matrix := delete_at s2 matrix in
  let? _ := assert ((s1 <? c) && (s2 <? c)) in
  let matrix :=
    map (fun row => set_at s1 (nth s1 row 0 + nth s2 row 0)%Z row) matrix in
  let matrix := map (delete_at s2) matrix in
  Some matrix.

(** The statements of [_merge_nodes] on one label, for the states [s1]
    and [s2] that are merged:
<<
    if root.labels[i] == s2: root.labels[i] = s1
    if root.labels[i] > s2: root.labels[i] -= 1
>> *)
Definition merged_label (s1 s2 : nat) (l : Z) : Z :=
  let l := if (l =? Z.of_nat s2)%Z then Z.of_nat s1 else l in
  if (l >? Z.of_nat s2)%Z then (l - 1)%Z else l.


(** *** The invariants of the model

    What the first [add_data] sets up, for a model with [K] states
    whose labels are the numbers [lbls]: every sample has a label, an
    observation and an action; the leaf at position [i] of
    [get_leaves()] references the samples labelled [i]; the matrix of
    every key of [transitions] counts the transitions of its action. *)

Record consistent (Obs : Type) (root : Root Obs) (K : nat) (lbls : list Z)
  : Prop := {
  labels_stored : labels root = Arr1 lbls;
  leaves_states : n_leaves (tree root) = K;
  labels_range : labels_in_range K lbls = true;
  data_stored : exists d, data root = Some d /\ length d = length lbls;
  actions_stored : length (actions root) = length lbls;
  leaves_refs :
    forall i leaf,
      nth_error (get_leaves (tree root)) i = Some leaf ->
      Permutation (fst leaf) (where_eq (Z.of_nat i) lbls);
  transitions_counted :
    exists own,
      transitions root = Some own
      /\ forall a, In a (map fst own) ->
           lookup a own = Some (recount K lbls (actions root) a)
}.

(** [_test] of a leaf's classifier on sample [r] of the model, as the
    number that [_relabel_data] adds to the label of the sample. *)
Definition test_at (Obs : Type) (root : Root Obs) (knn : option (Knn Obs))
    (r : nat) : Z :=
  match data root, knn with
  | Some d, Some k =>
      match nth_error d r with
      | Some x => Z.b2z (k x)
      | None => 0%Z
      end
  | _, _ => 0%Z
  end.

End WorldModelTree.

(** ** Selection among candidates, as statements *)

Section Selection.
Variable K : Type.

(** [(k, g)] is the first candidate of maximal gain. *)
Definition first_max (cands : list (K * R)) (k : K) (g : R) : Prop :=
  exists pre post,
    cands = pre ++ (k, g) :: post
    /\ Forall (fun c => (snd c < g)%R) pre
    /\ Forall (fun c => (snd c <= g)%R) post.

(** [(k, g)] is the last candidate of maximal gain. *)
Definition last_max (cands : list (K * R)) (k : K) (g : R) : Prop :=
  exists pre post,
    cands = pre ++ (k, g) :: post
    /\ Forall (fun c => (snd c <= g)%R) pre
    /\ Forall (fun c => (snd c < g)%R) post.

(** "The candidate encountered first is the one selected", for a
    selection [select] among candidates. *)
Definition first_seen_wins (select : list (K * R) -> option K)
    (cands : list (K * R)) : Prop :=
  forall k, select cands = Some k -> exists g, first_max cands k g.

End Selection.

(** ** Entropies, as statements *)

(** "If the vector sums to 0, entropy returns 1.0 when normalizing and
    log2(K) otherwise, unless ignore_empty is false, in which case it
    fails; and if K <= 1, entropy returns 0 when not normalizing and
    1.0 when normalizing." *)
Definition entropy_special_cases (dist : list R)
    (normalize ignore_empty : bool) : Prop :=
  (WorldModelTree.Rsum dist = 0%R ->
     WorldModelTree._entropy dist normalize ignore_empty =
     if ignore_empty
     then Some (if normalize then 1%R
                else WorldModelTree.log2 (INR (length dist)))
     else None)
  /\ (length dist <= 1 ->
        WorldModelTree._entropy dist normalize ignore_empty =
        Some (if normalize then 1%R else 0%R)).

(** A [K]-by-[K] matrix with the entry [c] everywhere. *)
Definition uniform_matrix (K : nat) (c : R) : list (list R) :=
  repeat (repeat c K) K.

(** A [K]-by-[K] matrix with the entry [c] at [(i, sigma i)] and zero
    elsewhere. *)
Definition deterministic_matrix (K : nat) (sigma : nat -> nat) (c : R)
  : list (list R) :=
  map (fun i => map (fun j => if j =? sigma i then c else 0%R) (seq 0 K))
      (seq 0 K).

(** ** Two calls of [add_data], used to exercise the definitions

    A first call stores two observations; a second call brings three
    observations and two actions. *)

Definition two_samples : WorldModelTree.res (WorldModelTree.Root unit) :=
  WorldModelTree.add_data (WorldModelTree.__init__ unit) [tt; tt]
    (Some [Some 1%Z]).

Definition three_more : WorldModelTree.res (WorldModelTree.Root unit) :=
  WorldModelTree.rbind two_samples
    (fun root =>
       WorldModelTree.add_data root [tt; tt; tt]
         (Some [Some 1%Z; Some 1%Z])).

(** ** A leaf whose fitted classifier is constant

    Three observations in one state; the spectral stage yields entries
    of both signs, the classifier trained on them labels everything
    1. *)

Definition sample_spectral (strict : list nat) (data_1 : list nat)
  : WorldModelTree.res (list R) :=
  WorldModelTree.Ok [(-1)%R; 1%R].

Definition sample_knn_train (data_1 : list nat) (labels : list bool)
  : WorldModelTree.Knn nat :=
  fun _ => true.

Definition sample_root : WorldModelTree.Root nat :=
  {| WorldModelTree.tree := WorldModelTree.Leaf [0; 1; 2] None;
     WorldModelTree.data := Some [10; 11; 12];
     WorldModelTree.labels := WorldModelTree.Arr1 [0; 0; 0]%Z;
     WorldModelTree.actions := [Some 1%Z; Some 1%Z; None];
     WorldModelTree.transitions :=
       Some [(Some 1%Z, [[2%Z]]); (None, [[0%Z]])];
     WorldModelTree.stats := [] |}.

(** ** The running best of the selection loops

    Both loops of the monolithic tree keep a pair [best_gain], [best]
    and replace it when [gain > best_gain]; [strict_best] is that loop
    over candidates whose gains are known, started from [acc]. *)

Definition strict_best (K B : Type) (inj : K -> B) (cands : list (K * R))
    (acc : WorldModelTree.Gain * B) : WorldModelTree.Gain * B :=
  fold_left
    (fun acc c =>
       if WorldModelTree.gain_gtb (WorldModelTree.Fin (snd c)) (fst acc)
       then (WorldModelTree.Fin (snd c), inj (fst c))
       else acc)
    cands acc.

(** ** A leaf with one candidate

    53 observations [0 .. 52] in one state and 52 transitions by the
    action 1.  The spectral stage gives a negative entry to the even
    observations and a positive one to the odd ones; the classifier
    that is fitted tells odd from even. *)

Definition parity_spectral (strict : list nat) (data_1 : list nat)
  : WorldModelTree.res (list R) :=
  WorldModelTree.Ok
    (map (fun x => if Nat.even x then (-1)%R else 1%R) data_1).

Definition parity_knn_train (data_1 : list nat) (labels : list bool)
  : WorldModelTree.Knn nat :=
  Nat.odd.

Definition parity_root_with (knn : option (WorldModelTree.Knn nat))
  : WorldModelTree.Root nat :=
  {| WorldModelTree.tree := WorldModelTree.Leaf (seq 0 53) knn;
     WorldModelTree.data := Some (seq 0 53);
     WorldModelTree.labels := WorldModelTree.Arr1 (repeat 0%Z 53);
     WorldModelTree.actions := repeat (Some 1%Z) 52 ++ [None];
     WorldModelTree.transitions :=
       Some [(Some 1%Z, [[52%Z]]); (None, [[0%Z]])];
     WorldModelTree.stats := [] |}.

Definition parity_root : WorldModelTree.Root nat := parity_root_with None.

(** ** worldmodel_methods.py: class WorldmodelTrivial

    The strategy that partitions the feature space into regular
    (hyper-)cubes.  A node keeps the borders [_minima] and [_maxima] of
    its cell, [None] until [_calc_test_params] is called for the first
    time.  What the method reads from the base class of the tree (the
    parent of the node, and whether the node is the parent's first
    child) is an argument. *)

Module WorldmodelTrivial.

(** [TestParams = collections.namedtuple('TestParams', ['dim', 'cut'])] *)
Record TestParams : Type := { dim : nat; cut : R }.

(** [_minima] and [_maxima] of a node, once they are arrays. *)
Record Borders : Type := { _minima : list R; _maxima : list R }.

(** What a node reads from [self._parent]: [parent._minima] and
    [parent._maxima] ([None] before the parent's first call),
    [parent._split_params._test_params], and
    [self is parent._children[0]]. *)
Record Parent : Type := {
  parent_borders : option Borders;
  parent_test_params : TestParams;
  is_first_child : bool
}.

(** [a - b] for two one-dimensional arrays, with numpy's broadcasting
    of an array of length one; any other two lengths are a
    [ValueError]. *)
Definition sub_arrays (a b : list R) : option (list R) :=
  if length a =? length b
  then Some (map (fun xy => (fst xy - snd xy)%R) (combine a b))
  else if length b =? 1
       then Some (map (fun x => (x - hd 0%R b)%R) a)
       else if length a =? 1
            then Some (map (fun y => (hd 0%R a - y)%R) b)
            else None.

(** [np.argmax(v)]: the first index of the maximum, a [ValueError] on
    the empty array. *)
Fixpoint argmax_from (best : nat) (best_value : R) (i : nat) (v : list R)
  : nat :=
  match v with
  | [] => best
  | x :: v' =>
      if Rltb best_value x then argmax_from i x (S i) v'
      else argmax_from best best_value (S i) v'
  end.

Definition argmax (v : list R) : option nat :=
  match v with
  | [] => None
  | x :: v' => Some (argmax_from 0 x 1 v')
  end.

(** [l[i] = x]: an [IndexError] when [i] is not an index of [l]. *)
Definition set_item (i : nat) (x : R) (l : list R) : option (list R) :=
  if i <? length l then Some (set_at i x l) else None.

(** [_calc_test_params(active_action)] of a node with the borders
    [own], for a model whose [get_input_dim()] is [D]: the returned
    parameters and the borders that the node holds after the call. *)
Definition _calc_test_params (D : nat) (own : option Borders)
    (parent : option Parent) : option (TestParams * Borders) :=
  (* init borders *)
  let? b :=
    match own with
    | Some b => Some b
    | None =>
        match parent with
        | Some p =>
            (* calculate borders from parent *)
            let dim := dim (parent_test_params p) in
            let cut := cut (parent_test_params p) in
            let? pb := parent_borders p in
            (* are we the first or the second child? *)
            if is_first_child p
            then let? maxima := set_item dim cut (_maxima pb) in
                 Some {| _minima := _minima pb; _maxima := maxima |}
            else let? minima := set_item dim cut (_minima pb) in
                 Some {| _minima := minima; _maxima := _maxima pb |}
        | None =>
            (* top node *)
            Some {| _minima := repeat 0%R D; _maxima := repeat 1%R D |}
        end
    end in
  (* classifier *)
  let? diffs := sub_arrays (_maxima b) (_minima b) in
  let? dim := argmax diffs in
  let? lo := nth_error (_minima b) dim in
  let? hi := nth_error (_maxima b) dim in
  let cut := (lo + (hi - lo) / 2)%R in
  Some ({| dim := dim; cut := cut |}, b).

(** [_test(x, params)] *)
Definition _test (x : list R) (params : TestParams) : option bool :=
  let? v := nth_error x (dim params) in
  Some (Rltb (cut params) v).

(** The node at the end of a path of children below [node] ([false]
    for the first child, [true] for the second), every node on the way
    being split with the parameters that its own [_calc_test_params]
    returned. *)
Fixpoint descend (D : nat) (path : list bool) (node : TestParams * Borders)
  : option (TestParams * Borders) :=
  match path with
  | [] => Some node
  | second :: path' =>
      let? child :=
        _calc_test_params D None
          (Some {| parent_borders := Some (snd node);
                   parent_test_params := fst node;
                   is_first_child := negb second |}) in
      descend D path' child
  end.

Definition node_at (D : nat) (path : list bool)
  : option (TestParams * Borders) :=
  let? top := _calc_test_params D None None in
  descend D path top.

(** [x] lies in the cell with the borders [b]. *)
Definition inside (b : Borders) (x : list R) : Prop :=
  length x = length (_minima b)
  /\ forall j, j < length x ->
       (nth j (_minima b) 0 <= nth j x 0 <= nth j (_maxima b) 0)%R.

(** The cell has [D] sides, all of positive length, inside the unit
    cube. *)
Definition proper (D : nat) (b : Borders) : Prop :=
  length (_minima b) = D /\ length (_maxima b) = D
  /\ forall j, j < D ->
       (0 <= nth j (_minima b) 0)%R
       /\ (nth j (_minima b) 0 < nth j (_maxima b) 0)%R
       /\ (nth j (_maxima b) 0 <= 1)%R.

(** The parameters cut the cell with the borders [b] in the middle of
    the first of its longest sides. *)
Definition halves (p : TestParams) (b : Borders) : Prop :=
  dim p < length (_minima b)
  /\ cut p
     = (nth (dim p) (_minima b) 0
        + (nth (dim p) (_maxima b) 0 - nth (dim p) (_minima b) 0) / 2)%R
  /\ (forall j, j < length (_minima b) ->
        (nth j (_maxima b) 0 - nth j (_minima b) 0
         <= nth (dim p) (_maxima b) 0 - nth (dim p) (_minima b) 0)%R)
  /\ (forall j, j < dim p ->
        (nth j (_maxima b) 0 - nth j (_minima b) 0
         < nth (dim p) (_maxima b) 0 - nth (dim p) (_minima b) 0)%R).

(** The borders of the first and of the second child of a node with
    the borders [b] that is split with the parameters [p]. *)
Definition child_borders (p : TestParams) (b : Borders) (second : bool)
  : Borders :=
  if second
  then {| _minima := set_at (dim p) (cut p) (_minima b);
          _maxima := _maxima b |}
  else {| _minima := _minima b;
          _maxima := set_at (dim p) (cut p) (_maxima b) |}.

End WorldmodelTrivial.


(** Four samples in one state, every action known but the last; the
    classifier of the leaf tells the odd observations from the even
    ones. *)
Definition odd_root : WorldModelTree.Root nat :=
  {| WorldModelTree.tree := WorldModelTree.Leaf [0; 1; 2; 3] (Some Nat.odd);
     WorldModelTree.data := Some [0; 1; 2; 3];
     WorldModelTree.labels := WorldModelTree.Arr1 [0; 0; 0; 0]%Z;
     WorldModelTree.actions := [Some 0%Z; Some 0%Z; Some 0%Z; None];
     WorldModelTree.transitions :=
       Some [(Some 0%Z, [[3%Z]]); (None, [[0%Z]])];
     WorldModelTree.stats := [] |}.

(** [odd_root] after the split of its leaf. *)
Definition odd_root_split : WorldModelTree.Root nat :=
  {| WorldModelTree.tree :=
       WorldModelTree.Split (Some Nat.odd)
         (WorldModelTree.Leaf [0; 2] None) (WorldModelTree.Leaf [1; 3] None);
     WorldModelTree.data := Some [0; 1; 2; 3];
     WorldModelTree.labels := WorldModelTree.Arr1 [0; 1; 0; 1]%Z;
     WorldModelTree.actions := [Some 0%Z; Some 0%Z; Some 0%Z; None];
     WorldModelTree.transitions :=
       Some [(Some 0%Z, [[0; 2]; [1; 0]]%Z); (None, [[0; 0]; [0; 0]]%Z)];
     WorldModelTree.stats := [] |}.

(* ================================================================= *)
(** * Part II: properties *)

(** ** Indexed list updates *)

Section ListUpdateFacts.
Variable A : Type.

Lemma length_set_at (i : nat) (x : A) (l : list A) :
  length (set_at i x l) = length l.
Proof.
  revert i; induction l as [|y l IH]; intros [|i]; simpl; auto.
Qed.

Lemma length_insert_at (i : nat) (x : A) (l : list A) :
  length (insert_at i x l) = S (length l).
Proof.
  revert l; induction i as [|i IH]; intros [|y l]; simpl; auto.
Qed.

Lemma nth_set_at_same (i : nat) (x d : A) (l : list A) :
  i < length l -> nth i (set_at i x l) d = x.
Proof.
  revert i; induction l as [|y l IH]; intros [|i] H; simpl in *;
    try lia; auto.
  apply IH; lia.
Qed.

Lemma nth_set_at_other (i j : nat) (x d : A) (l : list A) :
  j <> i -> nth j (set_at i x l) d = nth j l d.
Proof.
  revert i j; induction l as [|y l IH]; intros [|i] [|j] H; simpl;
    auto; try congruence.
Qed.

Lemma set_at_overflow (i : nat) (x : A) (l : list A) :
  length l <= i -> set_at i x l = l.
Proof.
  revert i; induction l as [|y l IH]; intros [|i] H; simpl in *;
    auto; try lia.
  f_equal. apply IH. lia.
Qed.

(** Inserting the default element: no side condition on [i]. *)
Lemma nth_insert_default (i j : nat) (d : A) (l : list A) :
  nth j (insert_at i d l) d =
  if j <? i then nth j l d
  else if j =? i then d else nth (j - 1) l d.
Proof.
  revert j l; induction i as [|i IH]; intros j l.
  - destruct j as [|j]; simpl; auto. now rewrite Nat.sub_0_r.
  - destruct l as [|y l]; simpl.
    + destruct j as [|j]; simpl; [reflexivity|].
      destruct (S j <? S i), (j =? i); destruct j; reflexivity.
    + destruct j as [|j]; simpl; auto.
      rewrite IH. change (S j <? S i) with (j <? i).
      destruct (j <? i) eqn:E1; auto.
      destruct (j =? i) eqn:E2; auto.
      apply Nat.ltb_ge in E1. apply Nat.eqb_neq in E2.
      rewrite Nat.sub_0_r.
      destruct j as [|j]; [lia|]. simpl. now rewrite Nat.sub_0_r.
Qed.

End ListUpdateFacts.

(** ** Matrices: reading cells after an update *)

Lemma nth_nil_Z (t : nat) : nth t (@nil Z) 0%Z = 0%Z.
Proof. now destruct t. Qed.

Lemma nth_zeros_row (c t : nat) : nth t (repeat 0%Z c) 0%Z = 0%Z.
Proof.
  revert t; induction c as [|c IH]; intros [|t]; simpl; auto.
Qed.

Lemma nth_map_zero (row : list Z) (t : nat) :
  nth t (map (fun _ => 0%Z) row) 0%Z = 0%Z.
Proof.
  revert t; induction row as [|x row IH]; intros [|t]; simpl; auto.
Qed.

Lemma nth_set_at_default (i j : nat) (row : list Z) :
  nth j (set_at i 0%Z row) 0%Z = if j =? i then 0%Z else nth j row 0%Z.
Proof.
  destruct (j =? i) eqn:E.
  - apply Nat.eqb_eq in E; subst j.
    destruct (Nat.lt_ge_cases i (length row)) as [H|H].
    + now apply nth_set_at_same.
    + apply nth_overflow. now rewrite length_set_at.
  - apply nth_set_at_other. now apply Nat.eqb_neq.
Qed.

Lemma nth_map_rows (f : list Z -> list Z) (M : Matrix) (s : nat) :
  s < length M -> nth s (map f M) [] = f (nth s M []).
Proof.
  revert s; induction M as [|row M IH]; intros [|s] H; simpl in *;
    try lia; auto.
  apply IH; lia.
Qed.

Lemma cell_overflow (M : Matrix) (s t : nat) :
  length M <= s -> cell M s t = 0%Z.
Proof.
  intros H. unfold cell. rewrite (nth_overflow M [] H). apply nth_nil_Z.
Qed.

Lemma cell_zero_row (i : nat) (M : Matrix) (s t : nat) :
  cell (zero_row i M) s t = if s =? i then 0%Z else cell M s t.
Proof.
  unfold cell, zero_row. destruct (s =? i) eqn:E.
  - apply Nat.eqb_eq in E; subst s.
    destruct (Nat.lt_ge_cases i (length M)) as [H|H].
    + rewrite nth_set_at_same by assumption. apply nth_map_zero.
    + rewrite (nth_overflow (set_at i _ M) [])
        by now rewrite length_set_at.
      apply nth_nil_Z.
  - rewrite nth_set_at_other by now apply Nat.eqb_neq. reflexivity.
Qed.

Lemma cell_zero_col (j : nat) (M : Matrix) (s t : nat) :
  cell (zero_col j M) s t = if t =? j then 0%Z else cell M s t.
Proof.
  destruct (Nat.lt_ge_cases s (length M)) as [H|H].
  - unfold cell, zero_col. rewrite nth_map_rows by assumption.
    apply nth_set_at_default.
  - rewrite !cell_overflow; try assumption.
    + now destruct (t =? j).
    + unfold zero_col. now rewrite length_map.
Qed.

Lemma cell_insert_row (i : nat) (M : Matrix) (s t : nat) :
  cell (insert_row i M) s t =
  if s <? i then cell M s t
  else if s =? i then 0%Z else cell M (s - 1) t.
Proof.
  unfold cell, insert_row.
  assert (G : forall (z : list Z) (L : Matrix) (k n : nat),
             nth t z 0%Z = 0%Z ->
             nth t (nth n (insert_at k z L) []) 0%Z =
             if n <? k then nth t (nth n L []) 0%Z
             else if n =? k then 0%Z else nth t (nth (n - 1) L []) 0%Z).
  { intros z L k; revert L; induction k as [|k IH]; intros L n Hz.
    - destruct n as [|n]; simpl; auto. now rewrite Nat.sub_0_r.
    - destruct L as [|row L].
      + assert (E : forall m, nth t (nth m (@nil (list Z)) []) 0%Z = 0%Z)
          by (intros m; destruct m; apply nth_nil_Z).
        rewrite !E. simpl insert_at.
        replace (if n <? S k then 0%Z else if n =? S k then 0%Z else 0%Z)
          with 0%Z by (destruct (n <? S k), (n =? S k); reflexivity).
        destruct n as [|n]; [exact Hz|apply (E n)].
      + simpl insert_at. destruct n as [|n]; simpl; auto.
        rewrite IH by assumption. change (S n <? S k) with (n <? k).
        destruct (n <? k) eqn:E1; auto.
        destruct (n =? k) eqn:E2; auto.
        apply Nat.ltb_ge in E1. apply Nat.eqb_neq in E2.
        rewrite Nat.sub_0_r.
        destruct n as [|n]; [lia|]. simpl. now rewrite Nat.sub_0_r. }
  apply G. apply nth_zeros_row.
Qed.

Lemma cell_insert_col (j : nat) (M : Matrix) (s t : nat) :
  cell (insert_col j M) s t =
  if t <? j then cell M s t
  else if t =? j then 0%Z else cell M s (t - 1).
Proof.
  destruct (Nat.lt_ge_cases s (length M)) as [H|H].
  - unfold cell, insert_col. rewrite nth_map_rows by assumption.
    apply nth_insert_default.
  - rewrite !cell_overflow; try assumption.
    + now destruct (t <? j), (t =? j).
    + unfold insert_col. now rewrite length_map.
Qed.

(** ** Matrices: shapes *)

Lemma Forall_set_at (A : Type) (P : A -> Prop) (i : nat) (x : A) (l : list A) :
  P x -> Forall P l -> Forall P (set_at i x l).
Proof.
  intros Hx H; revert i; induction H as [|y l Hy H IH]; intros [|i];
    simpl; auto.
Qed.

Lemma Forall_insert_at (A : Type) (P : A -> Prop) (i : nat) (x : A)
    (l : list A) :
  P x -> Forall P l -> Forall P (insert_at i x l).
Proof.
  intros Hx H; revert i; induction H as [|y l Hy H IH]; intros [|i];
    simpl; auto.
Qed.

Lemma shape_row (M : Matrix) (r c s : nat) :
  shape M r c -> s < r -> length (nth s M []) = c.
Proof.
  intros [Hr Hc] Hs. rewrite Forall_forall in Hc.
  apply Hc, nth_In. lia.
Qed.

Lemma shape_ncols (M : Matrix) (r c : nat) :
  shape M r c -> 0 < r -> ncols M = c.
Proof.
  intros H Hr. unfold ncols.
  replace (hd [] M) with (nth 0 M []) by now destruct M.
  now apply (shape_row H).
Qed.

Lemma shape_zero_row (i : nat) (M : Matrix) (r c : nat) :
  shape M r c -> shape (zero_row i M) r c.
Proof.
  intros [Hr Hc]. split; unfold zero_row.
  - now rewrite length_set_at.
  - destruct (Nat.lt_ge_cases i (length M)) as [H|H].
    + apply Forall_set_at; auto. rewrite length_map.
      apply (@shape_row M r c); [split; auto | lia].
    + now rewrite set_at_overflow.
Qed.

Lemma shape_zero_col (j : nat) (M : Matrix) (r c : nat) :
  shape M r c -> shape (zero_col j M) r c.
Proof.
  intros [Hr Hc]. split; unfold zero_col.
  - now rewrite length_map.
  - apply Forall_map. revert Hc. apply Forall_impl.
    intros row H. now rewrite length_set_at.
Qed.

Lemma shape_insert_row (i : nat) (M : Matrix) (r c : nat) :
  shape M r c -> 0 < r -> shape (insert_row i M) (S r) c.
Proof.
  intros H Hr. pose proof (shape_ncols H Hr) as Hn.
  destruct H as [Hl Hc]. split; unfold insert_row.
  - now rewrite length_insert_at, Hl.
  - apply Forall_insert_at; auto. now rewrite repeat_length.
Qed.

Lemma shape_insert_col (j : nat) (M : Matrix) (r c : nat) :
  shape M r c -> shape (insert_col j M) r (S c).
Proof.
  intros [Hr Hc]. split; unfold insert_col.
  - now rewrite length_map.
  - apply Forall_map. revert Hc. apply Forall_impl.
    intros row H. now rewrite length_insert_at, H.
Qed.

Lemma shape_set_cell (s t : nat) (v : Z) (M : Matrix) (r c : nat) :
  shape M r c -> shape (set_cell s t v M) r c.
Proof.
  intros H. destruct H as [Hr Hc]. split; unfold set_cell.
  - now rewrite length_set_at.
  - destruct (Nat.lt_ge_cases s (length M)) as [Hs|Hs].
    + apply Forall_set_at; auto. rewrite length_set_at.
      apply (@shape_row M r c); [split; auto | lia].
    + now rewrite set_at_overflow.
Qed.

Lemma cell_set_cell (s t : nat) (v : Z) (M : Matrix) (r c s' t' : nat) :
  shape M r c -> s < r -> t < c ->
  cell (set_cell s t v M) s' t' =
  if (s' =? s) && (t' =? t) then v else cell M s' t'.
Proof.
  intros H Hs Ht. unfold cell, set_cell.
  destruct (s' =? s) eqn:E1; simpl.
  - apply Nat.eqb_eq in E1; subst s'.
    rewrite nth_set_at_same by (destruct H; lia).
    destruct (t' =? t) eqn:E2.
    + apply Nat.eqb_eq in E2; subst t'.
      apply nth_set_at_same. now rewrite (shape_row H Hs).
    + apply nth_set_at_other. now apply Nat.eqb_neq.
  - rewrite nth_set_at_other by now apply Nat.eqb_neq. reflexivity.
Qed.

Lemma shape_split_row_col (M : Matrix) (K index1 index2 : nat) (M' : Matrix) :
  shape M K K -> split_row_col M index1 index2 = Some M' ->
  shape M' (S K) (S K).
Proof.
  intros H. unfold split_row_col.
  destruct (_ && _) eqn:E; [|discriminate]. intros [= <-].
  apply andb_prop in E as [E _]. apply andb_prop in E as [E _].
  apply andb_prop in E as [E _]. apply Nat.ltb_lt in E.
  unfold nrows in E. destruct H as [Hr Hc]. rewrite Hr in E.
  apply shape_insert_col, shape_zero_col, shape_insert_row; [|lia].
  apply shape_zero_row. now split.
Qed.

Lemma split_row_col_some (M : Matrix) (K index : nat) :
  shape M K K -> index < K ->
  split_row_col M index index =
  Some (insert_col index (zero_col index
          (insert_row index (zero_row index M)))).
Proof.
  intros H Hi. unfold split_row_col, nrows.
  rewrite (shape_ncols H) by lia. destruct H as [Hr _]. rewrite Hr.
  assert (E1 : (index <? K) = true) by now apply Nat.ltb_lt.
  assert (E2 : (index <=? K) = true) by (apply Nat.leb_le; lia).
  now rewrite E1, E2.
Qed.

(** The cells of a matrix after the four statements of the split. *)
Lemma cell_split_row_col (M : Matrix) (index : nat) (s t : nat) :
  cell (insert_col index (zero_col index
          (insert_row index (zero_row index M)))) s t =
  if (s =? index) || (s =? S index) || (t =? index) || (t =? S index)
  then 0%Z
  else cell M (if s <? index then s else s - 1)
              (if t <? index then t else t - 1).
Proof.
  rewrite cell_insert_col.
  destruct (t <? index) eqn:Et.
  - apply Nat.ltb_lt in Et.
    rewrite cell_zero_col, cell_insert_row.
    replace (t =? index) with false by (symmetry; apply Nat.eqb_neq; lia).
    replace (t =? S index) with false by (symmetry; apply Nat.eqb_neq; lia).
    rewrite !orb_false_r.
    destruct (s <? index) eqn:Es.
    + apply Nat.ltb_lt in Es. rewrite cell_zero_row.
      replace (s =? index) with false by (symmetry; apply Nat.eqb_neq; lia).
      replace (s =? S index) with false
        by (symmetry; apply Nat.eqb_neq; lia).
      reflexivity.
    + apply Nat.ltb_ge in Es.
      destruct (s =? index) eqn:E1; [reflexivity|].
      apply Nat.eqb_neq in E1. rewrite cell_zero_row. simpl.
      destruct (s =? S index) eqn:E2.
      * apply Nat.eqb_eq in E2; subst s.
        replace (S index - 1 =? index) with true
          by (symmetry; apply Nat.eqb_eq; lia).
        reflexivity.
      * apply Nat.eqb_neq in E2.
        replace (s - 1 =? index) with false
          by (symmetry; apply Nat.eqb_neq; lia).
        reflexivity.
  - apply Nat.ltb_ge in Et.
    destruct (t =? index) eqn:E1.
    { now rewrite !orb_true_r. }
    apply Nat.eqb_neq in E1. rewrite cell_zero_col.
    destruct (t =? S index) eqn:E2.
    { apply Nat.eqb_eq in E2; subst t.
      replace (S index - 1 =? index) with true
        by (symmetry; apply Nat.eqb_eq; lia).
      now rewrite !orb_true_r. }
    apply Nat.eqb_neq in E2.
    replace (t - 1 =? index) with false by (symmetry; apply Nat.eqb_neq; lia).
    rewrite !orb_false_r. rewrite cell_insert_row.
    destruct (s <? index) eqn:Es.
    + apply Nat.ltb_lt in Es. rewrite cell_zero_row.
      replace (s =? index) with false by (symmetry; apply Nat.eqb_neq; lia).
      replace (s =? S index) with false
        by (symmetry; apply Nat.eqb_neq; lia).
      reflexivity.
    + apply Nat.ltb_ge in Es.
      destruct (s =? index) eqn:E3; [reflexivity|].
      apply Nat.eqb_neq in E3. rewrite cell_zero_row. simpl.
      destruct (s =? S index) eqn:E4.
      * apply Nat.eqb_eq in E4; subst s.
        replace (S index - 1 =? index) with true
          by (symmetry; apply Nat.eqb_eq; lia).
        reflexivity.
      * apply Nat.eqb_neq in E4.
        replace (s - 1 =? index) with false
          by (symmetry; apply Nat.eqb_neq; lia).
        reflexivity.
Qed.

(** ** The split of a row and a column *)

(** C3, as stated, fails on the 1-by-1 matrix [[5]]: the split at index
    0 gives the all-zero 2-by-2 matrix, the entry 5 is not kept. *)
Lemma split_row_col_not_inserts_after :
  ~ exists M', split_row_col [[5%Z]] 0 0 = Some M'
               /\ inserts_after [[5%Z]] 1 0 M'.
Proof.
  intros [M' [E [_ [_ [_ H]]]]].
  injection E as <-.
  specialize (H 0 0 Nat.lt_0_1 Nat.lt_0_1).
  vm_compute in H. discriminate.
Qed.

(** C3, amended: on a K-by-K matrix and an index below K the split
    succeeds and returns a (K+1)-by-(K+1) matrix whose rows and columns
    [index] and [index+1] are zero, and in which every entry of the old
    matrix outside row [index] and column [index] keeps its value, at a
    position shifted by one past the index. *)
Theorem split_row_col_splits_at (M : Matrix) (K index : nat) :
  shape M K K -> index < K ->
  exists M', split_row_col M index index = Some M' /\ splits_at M K index M'.
Proof.
  intros H Hi. eexists. split; [apply (split_row_col_some H Hi)|].
  split; [|split; [|split]].
  - apply (@shape_split_row_col M K index index); auto.
    apply (split_row_col_some H Hi).
  - intros t. rewrite !cell_split_row_col, !Nat.eqb_refl.
    now rewrite !orb_true_r.
  - intros s. rewrite !cell_split_row_col, !Nat.eqb_refl.
    now rewrite !orb_true_r.
  - intros s t Hs Ht Hsi Hti. rewrite cell_split_row_col. unfold past.
    destruct (s <=? index) eqn:Es; destruct (t <=? index) eqn:Et;
      try apply Nat.leb_le in Es; try apply Nat.leb_le in Et;
      try apply Nat.leb_gt in Es; try apply Nat.leb_gt in Et.
    + replace (s =? index) with false by (symmetry; apply Nat.eqb_neq; lia).
      replace (s =? S index) with false by (symmetry; apply Nat.eqb_neq; lia).
      replace (t =? index) with false by (symmetry; apply Nat.eqb_neq; lia).
      replace (t =? S index) with false by (symmetry; apply Nat.eqb_neq; lia).
      replace (s <? index) with true by (symmetry; apply Nat.ltb_lt; lia).
      replace (t <? index) with true by (symmetry; apply Nat.ltb_lt; lia).
      reflexivity.
    + replace (s =? index) with false by (symmetry; apply Nat.eqb_neq; lia).
      replace (s =? S index) with false by (symmetry; apply Nat.eqb_neq; lia).
      replace (S t =? index) with false by (symmetry; apply Nat.eqb_neq; lia).
      replace (S t =? S index) with false
        by (symmetry; apply Nat.eqb_neq; lia).
      replace (s <? index) with true by (symmetry; apply Nat.ltb_lt; lia).
      replace (S t <? index) with false by (symmetry; apply Nat.ltb_ge; lia).
      simpl. now rewrite Nat.sub_0_r.
    + replace (S s =? index) with false by (symmetry; apply Nat.eqb_neq; lia).
      replace (S s =? S index) with false
        by (symmetry; apply Nat.eqb_neq; lia).
      replace (t =? index) with false by (symmetry; apply Nat.eqb_neq; lia).
      replace (t =? S index) with false by (symmetry; apply Nat.eqb_neq; lia).
      replace (S s <? index) with false by (symmetry; apply Nat.ltb_ge; lia).
      replace (t <? index) with true by (symmetry; apply Nat.ltb_lt; lia).
      simpl. now rewrite Nat.sub_0_r.
    + replace (S s =? index) with false by (symmetry; apply Nat.eqb_neq; lia).
      replace (S s =? S index) with false
        by (symmetry; apply Nat.eqb_neq; lia).
      replace (S t =? index) with false by (symmetry; apply Nat.eqb_neq; lia).
      replace (S t =? S index) with false
        by (symmetry; apply Nat.eqb_neq; lia).
      replace (S s <? index) with false by (symmetry; apply Nat.ltb_ge; lia).
      replace (S t <? index) with false by (symmetry; apply Nat.ltb_ge; lia).
      simpl. now rewrite !Nat.sub_0_r.
Qed.

Lemma split_row_col_splits_at_witness :
  shape [[1; 2]; [3; 4]]%Z 2 2 /\ 0 < 2 /\
  exists M', split_row_col [[1; 2]; [3; 4]]%Z 0 0 = Some M'
             /\ splits_at [[1; 2]; [3; 4]]%Z 2 0 M'.
Proof.
  assert (H : shape [[1; 2]; [3; 4]]%Z 2 2)
    by (split; [reflexivity | repeat constructor]).
  split; [exact H|]. split; [lia|].
  apply (split_row_col_splits_at H). lia.
Defined.

(** ** Booleans of comparisons *)

Ltac cmp_nat :=
  repeat match goal with
  | |- context [?a <? ?b] => destruct (Nat.ltb_spec a b); cbv iota
  | |- context [?a <=? ?b] => destruct (Nat.leb_spec a b); cbv iota
  | |- context [?a =? ?b] => destruct (Nat.eqb_spec a b); cbv iota
  end.

Ltac cmp_Z :=
  repeat match goal with
  | |- context [(?a >? ?b)%Z] => rewrite (Z.gtb_ltb a b)
  | |- context [if (?a <? ?b)%Z then _ else _] =>
      destruct (Z.ltb_spec a b); cbv iota
  | |- context [if (?a =? ?b)%Z then _ else _] =>
      destruct (Z.eqb_spec a b); cbv iota
  | |- context [(?a <? ?b)%Z] => destruct (Z.ltb_spec a b); cbv iota
  | |- context [(?a <=? ?b)%Z] => destruct (Z.leb_spec a b); cbv iota
  | |- context [(?a =? ?b)%Z] => destruct (Z.eqb_spec a b); cbv iota
  end.

(** ** The labels after a split *)

Lemma nth_map_lt (A B : Type) (f : A -> B) (l : list A) (i : nat)
    (d : B) (d' : A) :
  i < length l -> nth i (map f l) d = f (nth i l d').
Proof.
  revert i; induction l as [|x l IH]; intros [|i] H; simpl in *;
    try lia; auto.
  apply IH; lia.
Qed.

Lemma filter_none (A : Type) (f : A -> bool) (l : list A) :
  (forall x, In x l -> f x = false) -> filter f l = [].
Proof.
  induction l as [|x l IH]; intros H; simpl; auto.
  rewrite (H x (or_introl eq_refl)). apply IH.
  intros y Hy. apply H. now right.
Qed.

Lemma length_assign_at (refs : list nat) (vals : list Z) (l : list Z) :
  length (assign_at refs vals l) = length l.
Proof.
  unfold assign_at. revert l. generalize (combine refs vals) as rv.
  induction rv as [|[r v] rv IH]; intros l; simpl; auto.
  now rewrite IH, length_set_at.
Qed.

Lemma nth_assign_at (f : nat -> Z) (refs : list nat) (l : list Z) (i : nat) :
  (forall r, In r refs -> r < length l) ->
  nth i (assign_at refs (map f refs) l) 0%Z =
  if existsb (Nat.eqb i) refs then f i else nth i l 0%Z.
Proof.
  unfold assign_at. revert l.
  induction refs as [|r refs IH]; intros l H; simpl; auto.
  rewrite IH.
  - destruct (existsb (Nat.eqb i) refs) eqn:E.
    + now rewrite orb_true_r.
    + rewrite orb_false_r. destruct (Nat.eqb_spec i r) as [->|Hne].
      * apply nth_set_at_same. apply H. now left.
      * now apply nth_set_at_other.
  - intros r' Hr'. rewrite length_set_at. apply H. now right.
Qed.

Lemma existsb_where_eq (v : Z) (l : list Z) (i : nat) :
  existsb (Nat.eqb i) (where_eq v l) =
  (i <? length l) && Z.eqb (nth i l 0%Z) v.
Proof.
  unfold where_eq.
  destruct ((i <? length l) && Z.eqb (nth i l 0%Z) v) eqn:E.
  - apply andb_prop in E as [E1 E2]. apply Nat.ltb_lt in E1.
    apply existsb_exists. exists i. split; [|apply Nat.eqb_refl].
    apply filter_In. split; auto. apply in_seq. lia.
  - destruct (existsb _ _) eqn:E'; auto.
    apply existsb_exists in E' as [x [Hx Hix]].
    apply Nat.eqb_eq in Hix; subst x.
    apply filter_In in Hx as [Hx1 Hx2]. apply in_seq in Hx1.
    rewrite Hx2 in E. rewrite andb_true_r in E.
    apply Nat.ltb_ge in E. lia.
Qed.

Lemma In_where_eq (v : Z) (l : list Z) (i : nat) :
  In i (where_eq v l) <-> i < length l /\ nth i l 0%Z = v.
Proof.
  unfold where_eq. rewrite filter_In, in_seq, Z.eqb_eq. lia.
Qed.

Lemma NoDup_where_eq (v : Z) (l : list Z) : NoDup (where_eq v l).
Proof. apply NoDup_filter, seq_NoDup. Qed.

Section NewLabels.
Variable e : SplitParams.Env.
Let cs := Z.of_nat (SplitParams.leaf_index e).

Hypothesis labels_nonneg :
  forallb (fun l => (0 <=? l)%Z) (SplitParams.labels e) = true.
Hypothesis t_binary :
  forall r, SplitParams.t e r = 0%Z \/ SplitParams.t e r = 1%Z.

Lemma label_nonneg (i : nat) : (0 <= nth i (SplitParams.labels e) 0)%Z.
Proof.
  destruct (Nat.lt_ge_cases i (length (SplitParams.labels e))) as [H|H].
  - rewrite forallb_forall in labels_nonneg.
    apply Z.leb_le, labels_nonneg, nth_In, H.
  - rewrite nth_overflow by assumption. lia.
Qed.

Lemma nth_init_new_labels (i : nat) :
  i < length (SplitParams.labels e) ->
  nth i (SplitParams._init_new_labels e None) 0%Z =
  let l := nth i (SplitParams.labels e) 0%Z in
  if (l >? cs)%Z then (l + 1)%Z else if (l =? cs)%Z then (-1)%Z else l.
Proof.
  intros H. unfold SplitParams._init_new_labels. fold cs.
  rewrite (nth_map_lt _ _ _ 0%Z) by now rewrite length_map.
  rewrite (nth_map_lt _ _ _ 0%Z) by assumption. cbv zeta.
  generalize (nth i (SplitParams.labels e) 0%Z) as l. intros l.
  cmp_Z; lia.
Qed.

Lemma length_init_new_labels :
  length (SplitParams._init_new_labels e None) =
  length (SplitParams.labels e).
Proof.
  unfold SplitParams._init_new_labels. now rewrite !length_map.
Qed.

(** On fresh labels [get_new_labels] succeeds and returns the labels
    of the statement. *)
Lemma get_new_labels_fresh :
  SplitParams.get_new_labels e None =
  Some (relabelled (SplitParams.leaf_index e) (SplitParams.t e)
                   (SplitParams.labels e)).
Proof.
  unfold SplitParams.get_new_labels, SplitParams._update_labels.
  fold cs.
  set (init := SplitParams._init_new_labels e None).
  set (refs := where_eq (-1) init).
  set (new := assign_at refs _ init).
  assert (Hlen : length new = length (SplitParams.labels e)).
  { unfold new, init.
    now rewrite length_assign_at, length_init_new_labels. }
  assert (Hnth : forall i, i < length (SplitParams.labels e) ->
            nth i new 0%Z =
            relabel cs (SplitParams.t e) i (nth i (SplitParams.labels e) 0%Z)).
  { intros i Hi. unfold new. rewrite map_map.
    rewrite (nth_assign_at (fun r => (cs + SplitParams.t e r)%Z)).
    - unfold refs. rewrite existsb_where_eq.
      unfold init. rewrite length_init_new_labels.
      replace (i <? length (SplitParams.labels e)) with true
        by (symmetry; now apply Nat.ltb_lt).
      rewrite nth_init_new_labels by assumption. cbv zeta.
      pose proof (label_nonneg i) as Hl. unfold relabel.
      generalize dependent (nth i (SplitParams.labels e) 0%Z). intros l Hl.
      simpl. cmp_Z; try lia; reflexivity.
    - intros r Hr. apply In_where_eq in Hr. apply Hr. }
  assert (Hnoneg : count_nonzero (eq_mask new (-1)) = 0%Z).
  { unfold count_nonzero, eq_mask. rewrite filter_none; [reflexivity|].
    intros b Hb. apply in_map_iff in Hb as [x [<- Hx]].
    apply (In_nth _ _ 0%Z) in Hx as [i [Hi <-]].
    rewrite Hlen in Hi. rewrite (Hnth i Hi).
    pose proof (label_nonneg i) as Hl. unfold relabel. unfold cs.
    destruct (t_binary i) as [-> | ->]; cmp_Z; try reflexivity; lia. }
  unfold bind, assert. rewrite Hnoneg. simpl.
  rewrite Hlen, Nat.eqb_refl. f_equal.
  apply (nth_ext _ _ 0%Z 0%Z).
  - unfold relabelled. now rewrite length_map, length_seq.
  - intros i Hi. rewrite Hlen in Hi. rewrite (Hnth i Hi).
    unfold relabelled.
    rewrite (nth_map_lt _ _ _ 0) by now rewrite length_seq.
    rewrite seq_nth by assumption. reflexivity.
Qed.

End NewLabels.

(** ** Counting over references *)

Lemma take_some (A : Type) (d : A) (l : list A) (refs : list nat) :
  (forall r, In r refs -> r < length l) ->
  take d l refs = Some (map (fun r => nth r l d) refs).
Proof.
  intros H. unfold take.
  replace (forallb _ refs) with true; [reflexivity|].
  symmetry. apply forallb_forall. intros r Hr. apply Nat.ltb_lt. now apply H.
Qed.

Lemma and3_map (A : Type) (f g h : A -> bool) (l : list A) :
  and3 (map f l) (map g l) (map h l) = map (fun x => f x && g x && h x) l.
Proof.
  unfold and3. induction l as [|x l IH]; simpl; [reflexivity|].
  now rewrite IH.
Qed.

Lemma count_nonzero_map (A : Type) (p : A -> bool) (l : list A) :
  count_nonzero (map p l) = Z.of_nat (length (filter p l)).
Proof.
  unfold count_nonzero. f_equal.
  induction l as [|x l IH]; simpl; [reflexivity|].
  destruct (p x); simpl; now rewrite IH.
Qed.

Lemma length_filter_NoDup (A : Type) (p : A -> bool) (l1 l2 : list A) :
  NoDup l1 -> NoDup l2 ->
  (forall x, In x l1 /\ p x = true <-> In x l2 /\ p x = true) ->
  length (filter p l1) = length (filter p l2).
Proof.
  intros H1 H2 H. apply Permutation_length.
  apply NoDup_Permutation.
  - now apply NoDup_filter.
  - now apply NoDup_filter.
  - intros x. rewrite !filter_In. apply H.
Qed.

Lemma length_filter_map (A B : Type) (f : A -> B) (p : B -> bool)
    (l : list A) :
  length (filter p (map f l)) = length (filter (fun x => p (f x)) l).
Proof.
  induction l as [|x l IH]; simpl; [reflexivity|].
  destruct (p (f x)); simpl; now rewrite IH.
Qed.

(** ** Loops that assign cells *)

Lemma set_cell_chk_some (M : Matrix) (n s t : nat) (v : Z) :
  shape M n n -> s < n -> t < n ->
  set_cell_chk s t v M = Some (set_cell s t v M).
Proof.
  intros H Hs Ht. unfold set_cell_chk, nrows.
  rewrite (shape_ncols H) by lia. destruct H as [-> _].
  assert (E1 : (s <? n) = true) by now apply Nat.ltb_lt.
  assert (E2 : (t <? n) = true) by now apply Nat.ltb_lt.
  now rewrite E1, E2.
Qed.

(** A loop that assigns, in each round [i], the cells [p1 i] and [p2 i]
    with a value that depends on the cell only. *)
Lemma foldM_set_cells (n : nat) (p1 p2 : nat -> nat * nat)
    (V : nat * nat -> Z) (l : list nat) (M : Matrix) :
  shape M n n ->
  (forall i, In i l -> fst (p1 i) < n /\ snd (p1 i) < n
                       /\ fst (p2 i) < n /\ snd (p2 i) < n) ->
  exists M',
    foldM (fun M i =>
             let? M := set_cell_chk (fst (p1 i)) (snd (p1 i)) (V (p1 i)) M in
             set_cell_chk (fst (p2 i)) (snd (p2 i)) (V (p2 i)) M) l M
    = Some M'
    /\ shape M' n n
    /\ forall s t,
         cell M' s t =
         if existsb (fun i => pair_eqb (s, t) (p1 i) || pair_eqb (s, t) (p2 i)) l
         then V (s, t) else cell M s t.
Proof.
  revert M. induction l as [|i l IH]; intros M H Hl.
  - exists M. simpl. auto.
  - destruct (Hl i (or_introl eq_refl)) as [A1 [A2 [A3 A4]]].
    simpl foldM.
    rewrite (@set_cell_chk_some _ n _ _ _ H A1 A2). simpl bind.
    pose proof (shape_set_cell (fst (p1 i)) (snd (p1 i)) (V (p1 i)) H) as H1.
    rewrite (@set_cell_chk_some _ n _ _ _ H1 A3 A4). simpl bind.
    pose proof (shape_set_cell (fst (p2 i)) (snd (p2 i)) (V (p2 i)) H1) as H2.
    destruct (IH _ H2) as [M' [E [HM' Hc]]].
    { intros j Hj. apply Hl. now right. }
    exists M'. split; [exact E|]. split; [exact HM'|].
    intros s t. rewrite Hc. simpl existsb.
    destruct (existsb _ l); [now rewrite orb_true_r|].
    rewrite orb_false_r.
    rewrite (@cell_set_cell _ _ _ _ n n s t H1 A3 A4).
    rewrite (@cell_set_cell _ _ _ _ n n s t H A1 A2).
    unfold pair_eqb. simpl fst. simpl snd.
    destruct ((s =? fst (p2 i)) && (t =? snd (p2 i))) eqn:E2.
    + rewrite orb_true_r. apply andb_prop in E2 as [Ea Eb].
      apply Nat.eqb_eq in Ea, Eb. subst s t. now destruct (p2 i).
    + rewrite orb_false_r.
      destruct ((s =? fst (p1 i)) && (t =? snd (p1 i))) eqn:E1; auto.
      apply andb_prop in E1 as [Ea Eb].
      apply Nat.eqb_eq in Ea, Eb. subst s t. now destruct (p1 i).
Qed.

(** ** Recounted matrices *)

Lemma shape_recount (K : nat) (labels : list Z) (actions : list action)
    (a : action) :
  shape (recount K labels actions a) K K.
Proof.
  unfold recount. split.
  - now rewrite length_map, length_seq.
  - apply Forall_map, Forall_forall. intros s _.
    now rewrite length_map, length_seq.
Qed.

Lemma cell_recount (K : nat) (labels : list Z) (actions : list action)
    (a : action) (s t : nat) :
  s < K -> t < K ->
  cell (recount K labels actions a) s t = transition_count labels actions a s t.
Proof.
  intros Hs Ht. unfold cell, recount.
  rewrite (nth_map_lt _ _ _ 0) by now rewrite length_seq.
  rewrite (nth_map_lt _ _ _ 0) by now rewrite length_seq.
  now rewrite !seq_nth.
Qed.

Lemma matrix_ext (A B : Matrix) (r c : nat) :
  shape A r c -> shape B r c ->
  (forall s t, s < r -> t < c -> cell A s t = cell B s t) ->
  A = B.
Proof.
  intros HA HB H. apply (nth_ext _ _ [] []).
  - destruct HA as [-> _], HB as [-> _]. reflexivity.
  - intros s Hs. assert (Hs' : s < r) by (destruct HA as [<- _]; exact Hs).
    apply (nth_ext _ _ 0%Z 0%Z).
    + now rewrite (shape_row HA Hs'), (shape_row HB Hs').
    + intros t Ht. rewrite (shape_row HA Hs') in Ht. now apply H.
Qed.

(** ** Transition counts before and after a relabelling *)

Lemma nth_in_range (K : nat) (labels : list Z) (i : nat) :
  labels_in_range K labels = true ->
  i < length labels -> (0 <= nth i labels 0 < Z.of_nat K)%Z.
Proof.
  intros Hrange H. unfold labels_in_range in Hrange.
  rewrite forallb_forall in Hrange.
  specialize (Hrange (nth i labels 0%Z) (nth_In _ _ H)).
  apply andb_prop in Hrange as [H1 H2].
  apply Z.leb_le in H1. apply Z.ltb_lt in H2. lia.
Qed.

Section Relabel.
Variables (labels : list Z) (actions : list action) (i1 K : nat).
Variable t : nat -> Z.
Hypothesis Hrange : labels_in_range K labels = true.
Hypothesis Hi1 : i1 < K.
Hypothesis Ht : forall r, t r = 0%Z \/ t r = 1%Z.

Let new := relabelled i1 t labels.

Lemma length_relabelled : length new = length labels.
Proof. unfold new, relabelled. now rewrite length_map, length_seq. Qed.

Lemma nth_relabelled (i : nat) :
  i < length labels ->
  nth i new 0%Z = relabel (Z.of_nat i1) t i (nth i labels 0%Z).
Proof.
  intros H. unfold new, relabelled.
  rewrite (nth_map_lt _ _ _ 0) by now rewrite length_seq.
  now rewrite seq_nth.
Qed.

Lemma relabelled_in_range : labels_in_range (S K) new = true.
Proof.
  unfold labels_in_range. apply forallb_forall. intros x Hx.
  apply (In_nth _ _ 0%Z) in Hx as [i [Hi <-]].
  rewrite length_relabelled in Hi. rewrite (nth_relabelled Hi).
  pose proof (@nth_in_range K labels _ Hrange Hi) as Hl. unfold relabel.
  destruct (Ht i) as [-> | ->]; cmp_Z; simpl; lia.
Qed.

(** A new label is one of the two children exactly on the references
    of the split leaf. *)
Lemma relabelled_child (i s : nat) :
  i < length labels -> s = i1 \/ s = S i1 ->
  nth i new 0%Z = Z.of_nat s -> nth i labels 0%Z = Z.of_nat i1.
Proof.
  intros Hi Hs. rewrite (nth_relabelled Hi).
  pose proof (@nth_in_range K labels _ Hrange Hi) as Hl. unfold relabel.
  destruct (Ht i) as [-> | ->]; cmp_Z; lia.
Qed.

Lemma relabelled_other (i s : nat) :
  i < length labels -> s <> i1 -> s <> S i1 ->
  Z.eqb (nth i new 0%Z) (Z.of_nat s) =
  Z.eqb (nth i labels 0%Z) (Z.of_nat (unshift i1 s)).
Proof.
  intros Hi Hs1 Hs2. rewrite (nth_relabelled Hi).
  pose proof (@nth_in_range K labels _ Hrange Hi) as Hl. unfold relabel, unshift.
  destruct (Ht i) as [-> | ->]; cmp_nat; cmp_Z; try reflexivity; lia.
Qed.

(** Cells away from the split leaf: the count of the old labels. *)
Lemma transition_count_other (a : action) (s u : nat) :
  s <> i1 -> s <> S i1 -> u <> i1 -> u <> S i1 ->
  transition_count new actions a s u =
  transition_count labels actions a (unshift i1 s) (unshift i1 u).
Proof.
  intros Hs1 Hs2 Hu1 Hu2. unfold transition_count.
  rewrite length_relabelled. do 2 f_equal.
  apply filter_ext_in. intros i Hi. apply in_seq in Hi.
  unfold is_transition.
  rewrite (relabelled_other (i := i) (s := s)) by (auto; lia).
  rewrite (relabelled_other (i := S i) (s := u)) by (auto; lia).
  reflexivity.
Qed.

Variable refs : list nat.
Hypothesis Hrefs : Permutation refs (where_eq (Z.of_nat i1) labels).

Lemma NoDup_refs : NoDup refs.
Proof.
  apply (Permutation_NoDup (Permutation_sym Hrefs)), NoDup_where_eq.
Qed.

Lemma In_refs (r : nat) :
  In r refs <-> r < length labels /\ nth r labels 0%Z = Z.of_nat i1.
Proof.
  rewrite <- In_where_eq. split; apply Permutation_in;
    [exact Hrefs | exact (Permutation_sym Hrefs)].
Qed.

(** Rows of the two children, counted over the leaf's references. *)
Lemma transition_count_rows (a : action) (s u : nat) :
  s = i1 \/ s = S i1 ->
  Z.of_nat (length (filter (is_transition new actions a s u)
                           (setdiff1 refs (Z.of_nat (length labels) - 1)))) =
  transition_count new actions a s u.
Proof.
  intros Hs. unfold transition_count. rewrite length_relabelled. f_equal.
  apply length_filter_NoDup.
  - apply NoDup_filter, NoDup_refs.
  - apply seq_NoDup.
  - intros i. unfold setdiff1. rewrite filter_In, In_refs, in_seq.
    split.
    + intros [[[Hi Hl] Hne] Hp]. split; [|exact Hp].
      apply negb_true_iff, Z.eqb_neq in Hne. lia.
    + intros [Hi Hp]. split; [|exact Hp].
      assert (Hlt : i < length labels) by lia.
      split; [split; [exact Hlt|]|].
      * unfold is_transition in Hp.
        apply andb_prop in Hp as [Hp _]. apply andb_prop in Hp as [Hp _].
        apply Z.eqb_eq in Hp. now apply (relabelled_child Hlt Hs).
      * apply negb_true_iff, Z.eqb_neq. lia.
Qed.

(** Columns of the two children, counted over the leaf's references. *)
Lemma transition_count_cols (a : action) (s u : nat) :
  u = i1 \/ u = S i1 ->
  Z.of_nat (length (filter (fun r => is_transition new actions a s u (r - 1))
                           (setdiff1 refs 0))) =
  transition_count new actions a s u.
Proof.
  intros Hu. unfold transition_count. rewrite length_relabelled. f_equal.
  transitivity
    (length (filter (fun r => is_transition new actions a s u (r - 1))
                    (map S (seq 0 (length labels - 1))))).
  - apply length_filter_NoDup.
    + apply NoDup_filter, NoDup_refs.
    + rewrite seq_shift. apply seq_NoDup.
    + intros r. unfold setdiff1. rewrite filter_In, In_refs, seq_shift, in_seq.
      split.
      * intros [[[Hr Hl] Hne] Hp]. split; [|exact Hp].
        apply negb_true_iff, Z.eqb_neq in Hne. lia.
      * intros [Hr Hp]. split; [|exact Hp].
        assert (Hlt : r < length labels) by lia.
        split; [split; [exact Hlt|]|].
        -- unfold is_transition in Hp.
           apply andb_prop in Hp as [Hp _]. apply andb_prop in Hp as [_ Hp].
           replace (S (r - 1)) with r in Hp by lia.
           apply Z.eqb_eq in Hp. now apply (relabelled_child Hlt Hu).
        -- apply negb_true_iff, Z.eqb_neq. lia.
  - rewrite length_filter_map. f_equal. apply filter_ext.
    intros i. simpl. now rewrite Nat.sub_0_r.
Qed.

End Relabel.

(** ** Sums of recounted matrices *)

Lemma vsum_app (u v : list Z) : vsum (u ++ v) = (vsum u + vsum v)%Z.
Proof.
  unfold vsum. induction u as [|x u IH]; simpl; [reflexivity|].
  rewrite IH. lia.
Qed.

Lemma vsum_map_add (A : Type) (f g : A -> Z) (l : list A) :
  vsum (map (fun x => (f x + g x)%Z) l) = (vsum (map f l) + vsum (map g l))%Z.
Proof.
  unfold vsum. induction l as [|x l IH]; simpl; [reflexivity|].
  rewrite IH. lia.
Qed.

Lemma vsum_map_ext (A : Type) (f g : A -> Z) (l : list A) :
  (forall x, In x l -> f x = g x) -> vsum (map f l) = vsum (map g l).
Proof.
  intros H. f_equal. now apply map_ext_in.
Qed.

Lemma vsum_map_zero (A : Type) (l : list A) :
  vsum (map (fun _ => 0%Z) l) = 0%Z.
Proof. unfold vsum. induction l as [|x l IH]; simpl; auto. Qed.

(** One cell of a row (or one row of a matrix) is singled out. *)
Lemma vsum_indicator (K : nat) (z v : Z) :
  vsum (map (fun t => if Z.eqb z (Z.of_nat t) then v else 0%Z) (seq 0 K)) =
  if ((0 <=? z) && (z <? Z.of_nat K))%Z then v else 0%Z.
Proof.
  induction K as [|K IH].
  - simpl. cmp_Z; simpl; try reflexivity; lia.
  - rewrite seq_S, map_app, vsum_app, IH. simpl.
    cmp_Z; simpl; try lia.
Qed.

Lemma msum_counts (K : nat) (f g : nat -> Z) (h : nat -> bool) (l : list nat) :
  (forall i, In i l ->
     (0 <= f i < Z.of_nat K)%Z /\ (0 <= g i < Z.of_nat K)%Z) ->
  msum (map (fun s =>
          map (fun t =>
                 Z.of_nat (length (filter
                   (fun i => Z.eqb (f i) (Z.of_nat s)
                             && Z.eqb (g i) (Z.of_nat t) && h i) l)))
              (seq 0 K))
          (seq 0 K)) =
  Z.of_nat (length (filter h l)).
Proof.
  unfold msum. rewrite map_map.
  induction l as [|i l IH]; intros H.
  - simpl. rewrite (vsum_map_ext _ (fun _ => 0%Z)).
    + apply vsum_map_zero.
    + intros s _. apply vsum_map_zero.
  - destruct (H i (or_introl eq_refl)) as [Hf Hg].
    rewrite (vsum_map_ext _
      (fun s =>
         ((if Z.eqb (f i) (Z.of_nat s) then (if h i then 1 else 0) else 0)
          + vsum (map (fun t =>
                 Z.of_nat (length (filter
                   (fun i => Z.eqb (f i) (Z.of_nat s)
                             && Z.eqb (g i) (Z.of_nat t) && h i) l)))
              (seq 0 K)))%Z)).
    + rewrite vsum_map_add, IH by (intros j Hj; apply H; now right).
      rewrite vsum_indicator.
      replace ((0 <=? f i)%Z && (f i <? Z.of_nat K)%Z) with true
        by (symmetry; apply andb_true_intro; split;
            [apply Z.leb_le | apply Z.ltb_lt]; lia).
      simpl filter. destruct (h i); simpl length; lia.
    + intros s _.
      rewrite (vsum_map_ext _
        (fun t =>
           ((if Z.eqb (g i) (Z.of_nat t)
             then (if Z.eqb (f i) (Z.of_nat s)
                   then (if h i then 1 else 0) else 0)
             else 0)
            + Z.of_nat (length (filter
                   (fun i => Z.eqb (f i) (Z.of_nat s)
                             && Z.eqb (g i) (Z.of_nat t) && h i) l)))%Z)).
      * rewrite vsum_map_add, vsum_indicator.
        replace ((0 <=? g i)%Z && (g i <? Z.of_nat K)%Z) with true
          by (symmetry; apply andb_true_intro; split;
              [apply Z.leb_le | apply Z.ltb_lt]; lia).
        reflexivity.
      * intros u _. simpl filter.
        destruct (Z.eqb (f i) (Z.of_nat s)), (Z.eqb (g i) (Z.of_nat u)),
          (h i); simpl length; lia.
Qed.

Lemma msum_recount (K : nat) (labels : list Z) (actions : list action)
    (a : action) :
  labels_in_range K labels = true ->
  msum (recount K labels actions a) = transitions_with labels actions a.
Proof.
  intros H. unfold recount, transition_count, transitions_with.
  apply (msum_counts K (fun i => nth i labels 0%Z)
           (fun i => nth (S i) labels 0%Z)
           (fun i => action_eqb (nth i actions None) a)).
  intros i Hi. apply in_seq in Hi.
  split; apply (@nth_in_range K labels _ H); lia.
Qed.

(** ** The loops of [_update_transition_matrices] *)

Lemma existsb_row_cells (n r1 r2 s u : nat) :
  u < n ->
  existsb (fun i => pair_eqb (s, u) (r1, i) || pair_eqb (s, u) (r2, i))
          (seq 0 n) = (s =? r1) || (s =? r2).
Proof.
  intros Hu. unfold pair_eqb. simpl fst. simpl snd.
  destruct ((s =? r1) || (s =? r2)) eqn:E.
  - apply existsb_exists. exists u. split; [apply in_seq; lia|].
    rewrite Nat.eqb_refl, !andb_true_r. exact E.
  - destruct (existsb _ _) eqn:E'; [|reflexivity].
    apply existsb_exists in E' as [i [_ Hi]].
    apply orb_false_elim in E as [E1 E2]. rewrite E1, E2 in Hi.
    discriminate.
Qed.

Lemma existsb_col_cells (n c1 c2 s u : nat) :
  s < n ->
  existsb (fun i => pair_eqb (s, u) (i, c1) || pair_eqb (s, u) (i, c2))
          (seq 0 n) = (u =? c1) || (u =? c2).
Proof.
  intros Hs. unfold pair_eqb. simpl fst. simpl snd.
  destruct ((u =? c1) || (u =? c2)) eqn:E.
  - apply existsb_exists. exists s. split; [apply in_seq; lia|].
    rewrite Nat.eqb_refl. simpl. exact E.
  - destruct (existsb _ _) eqn:E'; [|reflexivity].
    apply existsb_exists in E' as [i [_ Hi]].
    apply orb_false_elim in E as [E1 E2]. rewrite E1, E2 in Hi.
    now rewrite !andb_false_r in Hi.
Qed.

Lemma count_cell_rows (new : list Z) (actions : list action) (a : action)
    (refs1 : list nat) (s u : nat) :
  SplitParams.count_cell
    (map (fun r => nth r new 0%Z) refs1)
    (map (fun r => nth r new 0%Z) (map (fun r => r + 1) refs1))
    (map (fun x => action_eqb x a) (map (fun r => nth r actions None) refs1))
    s u =
  Z.of_nat (length (filter (is_transition new actions a s u) refs1)).
Proof.
  unfold SplitParams.count_cell, eq_mask. rewrite !map_map.
  rewrite and3_map, count_nonzero_map. do 2 f_equal.
  apply filter_ext. intros r. unfold is_transition.
  now rewrite Nat.add_1_r.
Qed.

Lemma count_cell_cols (new : list Z) (actions : list action) (a : action)
    (refs2 : list nat) (s u : nat) :
  (forall r, In r refs2 -> r <> 0) ->
  SplitParams.count_cell
    (map (fun r => nth r new 0%Z) (map (fun r => r - 1) refs2))
    (map (fun r => nth r new 0%Z) refs2)
    (map (fun x => action_eqb x a)
         (map (fun r => nth r actions None) (map (fun r => r - 1) refs2)))
    s u =
  Z.of_nat (length (filter (fun r => is_transition new actions a s u (r - 1))
                           refs2)).
Proof.
  intros H. unfold SplitParams.count_cell, eq_mask. rewrite !map_map.
  rewrite and3_map, count_nonzero_map. do 2 f_equal.
  apply filter_ext_in. intros r Hr. unfold is_transition.
  replace (S (r - 1)) with r by (specialize (H r Hr); lia).
  reflexivity.
Qed.

(** ** The incremental update against the recount *)

Lemma transitions_with_relabelled (labels : list Z) (actions : list action)
    (i1 : nat) (t : nat -> Z) (a : action) :
  transitions_with (relabelled i1 t labels) actions a =
  transitions_with labels actions a.
Proof.
  unfold transitions_with, relabelled. now rewrite length_map, length_seq.
Qed.

Section UpdateTransitionMatrices.
Variable e : SplitParams.Env.
Hypothesis Hc : SplitParams.consistent e.
Hypothesis Hb : SplitParams.binary_test e.

Let K := SplitParams.number_of_leaves e.
Let i1 := SplitParams.leaf_index e.
Let labels := SplitParams.labels e.
Let actions := SplitParams.actions e.
Let refs := SplitParams.data_refs e.
Let new := relabelled i1 (SplitParams.t e) labels.

Lemma new_trans_of_action_recount (a : action) :
  In a (SplitParams.known_actions e) ->
  SplitParams.new_trans_of_action e new a =
  Some (recount (S K) new actions a).
Proof.
  intros Ha. destruct Hc as [HlN HaN Hrange Hi1 Hrefs Hcreated Htrans].
  fold K in Hrange, Hi1, Htrans. fold i1 in Hi1, Hrefs.
  fold labels in HlN, Hrange, Hrefs, Htrans. fold actions in HaN, Htrans.
  fold refs in Hrefs.
  assert (Hnew : length new = length labels)
    by (unfold new; apply length_relabelled).
  assert (Hin : forall r, In r refs ->
                  r < length labels /\ nth r labels 0%Z = Z.of_nat i1)
    by (intros r Hr; now apply (@In_refs labels i1 refs Hrefs r)).
  unfold SplitParams.new_trans_of_action.
  fold K i1 labels actions refs.
  rewrite (Htrans a Ha). simpl bind.
  rewrite (split_row_col_some (shape_recount K labels actions a) Hi1).
  simpl bind.
  set (M0 := insert_col i1 _).
  assert (S0 : shape M0 (S K) (S K)).
  { apply (@shape_split_row_col (recount K labels actions a) K i1 i1 M0).
    - apply shape_recount.
    - apply (split_row_col_some (shape_recount K labels actions a) Hi1). }
  rewrite <- HlN.
  (* the rows of the two children *)
  set (refs_1 := setdiff1 refs (Z.of_nat (length labels) - 1)).
  assert (Hr1 : forall r, In r refs_1 -> S r < length labels).
  { intros r Hr. unfold refs_1, setdiff1 in Hr.
    apply filter_In in Hr as [Hr Hne].
    apply negb_true_iff, Z.eqb_neq in Hne.
    destruct (Hin r Hr) as [Hlt _]. lia. }
  rewrite (@take_some Z 0%Z new refs_1)
    by (intros r Hr; rewrite Hnew; specialize (Hr1 r Hr); lia).
  simpl bind.
  rewrite (@take_some Z 0%Z new (map (fun r => r + 1) refs_1)).
  2:{ intros r Hr. apply in_map_iff in Hr as [r' [<- Hr']].
      rewrite Hnew. specialize (Hr1 r' Hr'). lia. }
  simpl bind.
  rewrite (@take_some (option Z) None actions refs_1)
    by (intros r Hr; rewrite HaN, <- HlN; specialize (Hr1 r Hr); lia).
  simpl bind.
  destruct (@foldM_set_cells (S K)
              (fun i => (i1, i)) (fun i => (i1 + 1, i))
              (fun p => SplitParams.count_cell
                 (map (fun r => nth r new 0%Z) refs_1)
                 (map (fun r => nth r new 0%Z) (map (fun r => r + 1) refs_1))
                 (map (fun x => action_eqb x a)
                      (map (fun r => nth r actions None) refs_1))
                 (fst p) (snd p))
              (range (Z.of_nat K + 1)) M0 S0) as [M1 [E1 [S1 C1]]].
  { intros i Hi. unfold range in Hi. apply in_seq in Hi. simpl. lia. }
  cbv beta iota delta [fst snd] in E1. rewrite E1. simpl bind.
  (* the columns of the two children *)
  set (refs_2 := setdiff1 refs 0).
  assert (Hr2 : forall r, In r refs_2 -> r <> 0 /\ r < length labels).
  { intros r Hr. unfold refs_2, setdiff1 in Hr.
    apply filter_In in Hr as [Hr Hne].
    apply negb_true_iff, Z.eqb_neq in Hne.
    destruct (Hin r Hr) as [Hlt _]. lia. }
  rewrite (@take_some Z 0%Z new (map (fun r => r - 1) refs_2)).
  2:{ intros r Hr. apply in_map_iff in Hr as [r' [<- Hr']].
      rewrite Hnew. specialize (Hr2 r' Hr'). lia. }
  simpl bind.
  rewrite (@take_some Z 0%Z new refs_2)
    by (intros r Hr; rewrite Hnew; specialize (Hr2 r Hr); lia).
  simpl bind.
  rewrite (@take_some (option Z) None actions (map (fun r => r - 1) refs_2)).
  2:{ intros r Hr. apply in_map_iff in Hr as [r' [<- Hr']].
      rewrite HaN, <- HlN. specialize (Hr2 r' Hr'). lia. }
  simpl bind.
  destruct (@foldM_set_cells (S K)
              (fun i => (i, i1)) (fun i => (i, i1 + 1))
              (fun p => SplitParams.count_cell
                 (map (fun r => nth r new 0%Z) (map (fun r => r - 1) refs_2))
                 (map (fun r => nth r new 0%Z) refs_2)
                 (map (fun x => action_eqb x a)
                      (map (fun r => nth r actions None)
                           (map (fun r => r - 1) refs_2)))
                 (fst p) (snd p))
              (range (Z.of_nat K + 1)) M1 S1) as [M2 [E2 [S2 C2]]].
  { intros i Hi. unfold range in Hi. apply in_seq in Hi. simpl. lia. }
  cbv beta iota delta [fst snd] in E2. rewrite E2. simpl bind.
  (* cell for cell, the recount *)
  assert (EM : M2 = recount (S K) new actions a).
  { apply (matrix_ext S2 (shape_recount (S K) new actions a)).
    intros s u Hs Hu. rewrite cell_recount by assumption.
    replace (range (Z.of_nat K + 1)) with (seq 0 (S K)) in C1, C2
      by (unfold range; f_equal; lia).
    rewrite C2, (@existsb_col_cells (S K) i1 (i1 + 1) s u Hs). simpl fst. simpl snd.
    destruct ((u =? i1) || (u =? i1 + 1)) eqn:Eu.
    - rewrite (@count_cell_cols new actions a refs_2 s u)
        by (intros r Hr; apply (Hr2 r Hr)).
      apply (@transition_count_cols labels actions i1 K (SplitParams.t e)
               Hrange Hi1 Hb refs Hrefs a s u).
      apply orb_prop in Eu as [Eu|Eu]; apply Nat.eqb_eq in Eu; lia.
    - apply orb_false_elim in Eu as [Eu1 Eu2].
      apply Nat.eqb_neq in Eu1, Eu2.
      rewrite C1, (@existsb_row_cells (S K) i1 (i1 + 1) s u Hu). simpl fst. simpl snd.
      destruct ((s =? i1) || (s =? i1 + 1)) eqn:Es.
      + rewrite count_cell_rows.
        apply (@transition_count_rows labels actions i1 K (SplitParams.t e)
                 Hrange Hi1 Hb refs Hrefs a s u).
        apply orb_prop in Es as [Es|Es]; apply Nat.eqb_eq in Es; lia.
      + apply orb_false_elim in Es as [Es1 Es2].
        apply Nat.eqb_neq in Es1, Es2.
        unfold M0. rewrite cell_split_row_col.
        replace ((s =? i1) || (s =? S i1) || (u =? i1) || (u =? S i1))
          with false
          by (symmetry; repeat (apply orb_false_intro);
              apply Nat.eqb_neq; lia).
        unfold new.
        rewrite (@transition_count_other labels actions i1 K (SplitParams.t e)
                   Hrange Hi1 Hb a s u) by lia.
        unfold unshift. apply cell_recount; cmp_nat; lia. }
  rewrite EM.
  rewrite (@msum_recount (S K) new actions a
             (@relabelled_in_range labels i1 K (SplitParams.t e)
                Hrange Hi1 Hb)).
  rewrite (@msum_recount K labels actions a Hrange).
  unfold new. rewrite transitions_with_relabelled, Z.eqb_refl.
  reflexivity.
Qed.

End UpdateTransitionMatrices.

Lemma mapM_some (A B : Type) (f : A -> option B) (g : A -> B) (l : list A) :
  (forall x, In x l -> f x = Some (g x)) -> mapM f l = Some (map g l).
Proof.
  induction l as [|x l IH]; intros H; simpl; [reflexivity|].
  rewrite (H x (or_introl eq_refl)). simpl.
  rewrite IH by (intros y Hy; apply H; now right). reflexivity.
Qed.

Lemma sample_env_consistent : SplitParams.consistent sample_env.
Proof.
  constructor.
  - reflexivity.
  - reflexivity.
  - reflexivity.
  - simpl. lia.
  - apply Permutation_refl.
  - reflexivity.
  - intros a [<- | [<- | []]]; reflexivity.
Defined.

Lemma sample_env_binary : SplitParams.binary_test sample_env.
Proof.
  intros r. simpl. destruct (Nat.even r); auto.
Defined.

Lemma update_transition_matrices_recount_aux (e : SplitParams.Env) :
  SplitParams.consistent e -> SplitParams.binary_test e ->
  let new_labels :=
    relabelled (SplitParams.leaf_index e) (SplitParams.t e)
               (SplitParams.labels e) in
  SplitParams.get_new_labels e None = Some new_labels /\
  SplitParams._update_transition_matrices e None =
  Some (map (fun a =>
               (a, recount (S (SplitParams.number_of_leaves e)) new_labels
                           (SplitParams.actions e) a))
            (SplitParams.known_actions e)).
Proof.
  intros Hc Hb.
  assert (Hnn : forallb (fun l => (0 <=? l)%Z) (SplitParams.labels e) = true).
  { apply forallb_forall. intros l Hl.
    pose proof (SplitParams.labels_range Hc) as Hr.
    unfold labels_in_range in Hr. rewrite forallb_forall in Hr.
    specialize (Hr l Hl). now apply andb_prop in Hr as [Hr _]. }
  cbv zeta. split; [apply (get_new_labels_fresh e Hnn Hb)|].
  unfold SplitParams._update_transition_matrices.
  rewrite (get_new_labels_fresh e Hnn Hb). simpl bind.
  rewrite (SplitParams.samples_when_created Hc), Nat.eqb_refl. simpl bind.
  apply mapM_some. intros a Ha.
  now rewrite (new_trans_of_action_recount Hc Hb a Ha).
Qed.

(** C1 (split_params.py): on a candidate whose node, partitioning and
    model satisfy the invariants of the data model, and whose test is
    binary, [_update_transition_matrices] succeeds, and the matrix it
    stores for every known action is the matrix recounted from scratch
    over all transitions under the new labels. *)
Theorem update_transition_matrices_recount (e : SplitParams.Env) :
  SplitParams.consistent e -> SplitParams.binary_test e ->
  exists new_labels,
    SplitParams.get_new_labels e None = Some new_labels /\
    SplitParams._update_transition_matrices e None =
    Some (map (fun a =>
                 (a, recount (S (SplitParams.number_of_leaves e)) new_labels
                             (SplitParams.actions e) a))
              (SplitParams.known_actions e)).
Proof.
  intros Hc Hb. eexists.
  exact (update_transition_matrices_recount_aux Hc Hb).
Qed.

Lemma update_transition_matrices_recount_witness :
  exists new_labels,
    SplitParams.get_new_labels sample_env None = Some new_labels /\
    SplitParams._update_transition_matrices sample_env None =
    Some (map (fun a => (a, recount 3 new_labels sample_actions a))
              [Some 0; Some 1]%Z).
Proof.
  exact (update_transition_matrices_recount
           sample_env_consistent sample_env_binary).
Defined.

(** ** A fresh partitioning *)

Lemma action_eqb_eq (a b : action) : action_eqb a b = true <-> a = b.
Proof.
  destruct a as [x|], b as [y|]; simpl; split; intros H;
    try discriminate; try reflexivity.
  - apply Z.eqb_eq in H. now subst.
  - injection H as ->. apply Z.eqb_refl.
Qed.

Lemma action_eqb_refl (a : action) : action_eqb a a = true.
Proof. now apply action_eqb_eq. Qed.

Lemma lookup_map (V : Type) (f : action -> V) (l : list action) (a : action) :
  In a l -> lookup a (map (fun k => (k, f k)) l) = Some (f a).
Proof.
  unfold lookup. induction l as [|k l IH]; intros H; [destruct H|].
  simpl. destruct (action_eqb k a) eqn:E.
  - apply action_eqb_eq in E. now subst.
  - destruct H as [H|H].
    + subst. now rewrite action_eqb_refl in E.
    + now apply IH.
Qed.

Lemma count_nonzero_occ (a : action) (l : list action) :
  count_nonzero (map (fun x => action_eqb x a) l) =
  Z.of_nat (count_occ action_eq_dec l a).
Proof.
  rewrite count_nonzero_map. f_equal.
  induction l as [|x l IH]; simpl; [reflexivity|].
  destruct (action_eq_dec x a) as [->|Hne].
  - rewrite action_eqb_refl. simpl. now rewrite IH.
  - destruct (action_eqb x a) eqn:E; [|exact IH].
    apply action_eqb_eq in E. contradiction.
Qed.

(** C10: a partitioning constructed for a model with [N] stored samples
    has the all-zeros label vector of length [N], a tree that is a
    single leaf, and for every known action the 1-by-1 matrix whose
    entry is the number of occurrences of the action in the model's
    action stream. *)
Theorem partitioning_init (Params : Type) (model : Partitioning.Model)
    (active_action : action) :
  let p := Partitioning.__init__ Params model active_action in
  Partitioning.labels p = repeat 0%Z (Partitioning.number_of_samples model)
  /\ length (Partitioning.labels p) = Partitioning.number_of_samples model
  /\ WorldmodelTree.is_leaf (Partitioning.tree p) = true
  /\ WorldmodelTree.get_number_of_leaves (Partitioning.tree p) = 1
  /\ forall a, In a (Partitioning.known_actions model) ->
       lookup a (Partitioning.transitions p) =
       Some [[Z.of_nat (count_occ action_eq_dec
                                  (Partitioning.actions model) a)]].
Proof.
  cbv zeta. unfold Partitioning.__init__.
  cbn [Partitioning.labels Partitioning.tree Partitioning.transitions].
  repeat split.
  - apply repeat_length.
  - intros a Ha.
    rewrite lookup_map by assumption.
    rewrite count_nonzero_occ. do 3 f_equal. lia.
Qed.

(** ** Conservation of counts *)

Lemma vsum_indicator_action (x : action) (l : list action) :
  NoDup l -> In x l ->
  vsum (map (fun a => if action_eqb x a then 1%Z else 0%Z) l) = 1%Z.
Proof.
  induction 1 as [|a l Hna Hnd IH]; intros Hx; [destruct Hx|].
  simpl. destruct (action_eqb x a) eqn:E.
  - apply action_eqb_eq in E. subst a.
    rewrite (vsum_map_ext _ (fun _ => 0%Z)).
    + rewrite vsum_map_zero. lia.
    + intros b Hb. destruct (action_eqb x b) eqn:E'; [|reflexivity].
      apply action_eqb_eq in E'. subst b. contradiction.
  - destruct Hx as [Hx|Hx].
    + subst. now rewrite action_eqb_refl in E.
    + rewrite (IH Hx). lia.
Qed.

Lemma vsum_counts_by_action (g : nat -> action) (known : list action)
    (L : list nat) :
  NoDup known -> (forall i, In i L -> In (g i) known) ->
  vsum (map (fun a =>
               Z.of_nat (length (filter (fun i => action_eqb (g i) a) L)))
            known) = Z.of_nat (length L).
Proof.
  intros Hnd. induction L as [|i L IH]; intros H.
  - simpl. apply vsum_map_zero.
  - rewrite (vsum_map_ext _
      (fun a => ((if action_eqb (g i) a then 1 else 0)
                 + Z.of_nat (length (filter (fun i => action_eqb (g i) a) L)))%Z)).
    + rewrite vsum_map_add, IH by (intros j Hj; apply H; now right).
      rewrite (@vsum_indicator_action (g i) known Hnd (H i (or_introl eq_refl))).
      simpl length. lia.
    + intros a _. simpl filter.
      destruct (action_eqb (g i) a); simpl length; lia.
Qed.

Lemma vsum_transitions_with (labels : list Z) (actions known : list action) :
  NoDup known ->
  (forall i, i < length labels - 1 -> In (nth i actions None) known) ->
  vsum (map (transitions_with labels actions) known) =
  Z.of_nat (length labels - 1).
Proof.
  intros Hnd H. unfold transitions_with.
  rewrite (@vsum_counts_by_action (fun i => nth i actions None) known
             (seq 0 (length labels - 1)) Hnd).
  - now rewrite length_seq.
  - intros i Hi. apply in_seq in Hi. apply H. lia.
Qed.

(** ** Merged matrices *)

Lemma mapM_id (A : Type) (f : A -> option A) (l : list A) :
  (forall x, In x l -> f x = Some x) -> mapM f l = Some l.
Proof.
  intros H. rewrite (mapM_some f (fun x => x)) by assumption.
  now rewrite map_id.
Qed.

Lemma broadcast_same (M : Matrix) (r c : nat) :
  shape M r c -> broadcast r c M = Some M.
Proof.
  intros [Hr Hc]. unfold broadcast.
  rewrite mapM_id.
  - simpl. now rewrite Hr, Nat.eqb_refl.
  - intros row Hrow. unfold broadcast_row.
    rewrite Forall_forall in Hc. now rewrite (Hc row Hrow), Nat.eqb_refl.
Qed.

Lemma vsum_add_rows (u v : list Z) :
  length u = length v ->
  vsum (add_rows u v) = (vsum u + vsum v)%Z.
Proof.
  unfold add_rows. revert v.
  induction u as [|x u IH]; intros [|y v] H; simpl in *; try lia.
  rewrite IH by lia. lia.
Qed.

Lemma iadd_same (P M : Matrix) (r c : nat) :
  shape P r c -> shape M r c -> 0 < r ->
  exists P', iadd P M = Some P'
             /\ shape P' r c /\ msum P' = (msum P + msum M)%Z.
Proof.
  intros HP HM Hr. unfold iadd, nrows.
  rewrite (shape_ncols HP Hr). destruct HP as [HPr HPc].
  rewrite HPr, (@broadcast_same M r c HM). simpl bind.
  eexists. split; [reflexivity|].
  destruct HM as [HMr HMc]. subst r. clear Hr.
  revert M HMr HMc. induction P as [|u P IH]; intros [|v M] HMr HMc;
    simpl in *; try lia.
  - split; [split; [reflexivity|constructor]|reflexivity].
  - inversion HPc as [|? ? Hu HP']; subst.
    inversion HMc as [|? ? Hv HM']; subst.
    destruct (IH HP' M) as [[Hl Hf] Hs]; [lia|assumption|].
    split; [split|].
    + simpl. now rewrite Hl.
    + constructor; [|exact Hf].
      unfold add_rows.
      rewrite length_map, length_combine, Hv. apply Nat.min_id.
    + unfold msum in *. simpl. rewrite Hs, vsum_add_rows by lia.
      unfold vsum. simpl. lia.
Qed.

Lemma shape_zeros (r c : nat) : shape (zeros r c) r c.
Proof.
  unfold zeros. split; [apply repeat_length|].
  apply Forall_forall. intros row H. apply repeat_spec in H. subst.
  apply repeat_length.
Qed.

Lemma msum_zeros (r c : nat) : msum (zeros r c) = 0%Z.
Proof.
  assert (Hrow : vsum (repeat 0%Z c) = 0%Z)
    by (unfold vsum; induction c as [|c IHc]; simpl; lia).
  unfold msum, zeros. induction r as [|r IH]; [reflexivity|].
  simpl repeat. simpl map. unfold vsum at 1. simpl fold_right.
  fold (vsum (map vsum (repeat (repeat 0%Z c) r))).
  rewrite IH, Hrow. reflexivity.
Qed.

Lemma merge_matrices (known : list action) (f : action -> Matrix)
    (trans : list (action * Matrix)) (K : nat) (P : Matrix) :
  0 < K -> shape P K K ->
  (forall a, In a known -> lookup a trans = Some (f a) /\ shape (f a) K K) ->
  exists P',
    foldM (fun P a => let? M := lookup a trans in iadd P M)
          known P = Some P'
    /\ shape P' K K
    /\ msum P' = (msum P + vsum (map (fun a => msum (f a)) known))%Z.
Proof.
  intros HK. revert P. induction known as [|a known IH]; intros P HP H.
  - exists P. simpl. split; [reflexivity|]. split; [exact HP|].
    unfold vsum. simpl. lia.
  - destruct (H a (or_introl eq_refl)) as [Hl Hs].
    destruct (@iadd_same P (f a) K K HP Hs HK) as [P1 [E1 [S1 Hm1]]].
    destruct (IH P1 S1) as [P' [E [S' Hm]]].
    { intros b Hb. apply H. now right. }
    exists P'. simpl foldM. rewrite Hl. simpl bind. rewrite E1. simpl bind.
    split; [exact E|]. split; [exact S'|].
    rewrite Hm, Hm1. unfold vsum. simpl. lia.
Qed.

(** ** The references of the two children *)

Lemma map_nth_seq (l : list Z) :
  map (fun i => nth i l 0%Z) (seq 0 (length l)) = l.
Proof.
  apply (nth_ext _ _ 0%Z 0%Z).
  - now rewrite length_map, length_seq.
  - intros i Hi. rewrite length_map, length_seq in Hi.
    rewrite (nth_map_lt _ _ _ 0) by now rewrite length_seq.
    now rewrite seq_nth.
Qed.

Lemma count_nonzero_eq_mask (l : list Z) (v : Z) :
  count_nonzero (eq_mask l v) = Z.of_nat (length (where_eq v l)).
Proof.
  unfold eq_mask, where_eq. rewrite count_nonzero_map. f_equal.
  rewrite <- (map_nth_seq l) at 1. apply length_filter_map.
Qed.

Lemma length_filter_split (A : Type) (p q r : A -> bool) (l : list A) :
  (forall x, In x l -> r x = p x || q x) ->
  (forall x, In x l -> p x = true -> q x = false) ->
  length (filter p l) + length (filter q l) = length (filter r l).
Proof.
  induction l as [|x l IH]; intros H1 H2; [reflexivity|].
  simpl. rewrite (H1 x (or_introl eq_refl)).
  pose proof (H2 x (or_introl eq_refl)) as H3.
  assert (E : length (filter p l) + length (filter q l) =
              length (filter r l))
    by (apply IH; intros y Hy; [apply H1 | apply H2]; now right).
  destruct (p x); [rewrite (H3 eq_refl)|destruct (q x)]; simpl; lia.
Qed.

Section DataRefs.
Variable e : SplitParams.Env.
Hypothesis Hc : SplitParams.consistent e.
Hypothesis Hb : SplitParams.binary_test e.
Hypothesis Hs : SplitParams.separates e.

Let K := SplitParams.number_of_leaves e.
Let i1 := SplitParams.leaf_index e.
Let labels := SplitParams.labels e.
Let refs := SplitParams.data_refs e.
Let new := relabelled i1 (SplitParams.t e) labels.

Lemma labels_nonneg_of_consistent :
  forallb (fun l => (0 <=? l)%Z) labels = true.
Proof.
  apply forallb_forall. intros l Hl.
  pose proof (SplitParams.labels_range Hc) as Hr.
  unfold labels_in_range in Hr. rewrite forallb_forall in Hr.
  specialize (Hr l Hl). now apply andb_prop in Hr as [Hr _].
Qed.

Lemma length_children :
  length (where_eq (Z.of_nat i1) new) + length (where_eq (Z.of_nat i1 + 1) new)
  = length refs.
Proof.
  pose proof (SplitParams.labels_range Hc) as Hrange.
  pose proof (SplitParams.leaf_index_range Hc) as Hi1.
  unfold refs.
  rewrite (Permutation_length (SplitParams.data_refs_labels Hc)).
  fold i1 labels.
  unfold where_eq. unfold new at 2 4. rewrite length_relabelled.
  apply length_filter_split.
  - intros i Hi. apply in_seq in Hi. unfold new.
    rewrite (@nth_relabelled labels i1 (SplitParams.t e) i) by lia.
    pose proof (@nth_in_range _ labels i Hrange) as Hl. unfold relabel.
    fold labels i1. destruct (Hb i) as [-> | ->];
      cmp_Z; try reflexivity; lia.
  - intros i Hi. apply in_seq in Hi. unfold new.
    rewrite (@nth_relabelled labels i1 (SplitParams.t e) i) by lia.
    intros H. apply Z.eqb_eq in H. apply Z.eqb_neq. lia.
Qed.

Lemma child_nonempty (c : Z) :
  (exists r, In r refs /\ SplitParams.t e r = c) ->
  0 < length (where_eq (Z.of_nat i1 + c) new).
Proof.
  intros [r [Hr Ht]].
  apply (@In_refs labels i1 refs (SplitParams.data_refs_labels Hc)) in Hr.
  destruct Hr as [Hlt Hl].
  assert (Hin : In r (where_eq (Z.of_nat i1 + c) new)).
  { apply In_where_eq. unfold new. rewrite length_relabelled.
    split; [exact Hlt|].
    rewrite (@nth_relabelled labels i1 (SplitParams.t e) r Hlt).
    unfold relabel. rewrite Hl, Ht. cmp_Z; lia. }
  destruct (where_eq _ new); [destruct Hin | simpl; lia].
Qed.

Lemma update_dat_refs_some :
  SplitParams._update_dat_refs e None =
  Some (where_eq (Z.of_nat i1) new, where_eq (Z.of_nat i1 + 1) new).
Proof.
  pose proof (SplitParams.labels_range Hc) as Hrange.
  pose proof (SplitParams.leaf_index_range Hc) as Hi1.
  unfold SplitParams._update_dat_refs.
  rewrite (get_new_labels_fresh e labels_nonneg_of_consistent Hb).
  simpl bind. fold i1 labels new.
  rewrite count_nonzero_map, filter_none.
  2:{ intros x Hx. apply Z.ltb_ge.
      pose proof (@relabelled_in_range labels i1 K (SplitParams.t e)
                    Hrange Hi1 Hb) as Hr.
      unfold labels_in_range in Hr. rewrite forallb_forall in Hr.
      specialize (Hr x Hx). apply andb_prop in Hr as [Hr _].
      now apply Z.leb_le. }
  simpl bind. rewrite !count_nonzero_eq_mask.
  rewrite <- Nat2Z.inj_add, length_children, Z.eqb_refl. simpl bind.
  destruct Hs as [H0 H1].
  pose proof (child_nonempty H0) as L0. rewrite Z.add_0_r in L0.
  pose proof (child_nonempty H1) as L1.
  apply Nat.ltb_lt in L0, L1. rewrite L0, L1. reflexivity.
Qed.

End DataRefs.

(** ** A split that is applied *)

Lemma sample_env_separates : SplitParams.separates sample_env.
Proof.
  split; [exists 0 | exists 3]; simpl; auto.
Defined.

Lemma sample_env_actions_known : SplitParams.actions_known sample_env.
Proof.
  split.
  - repeat constructor; simpl; intuition discriminate.
  - intros i Hi. simpl in Hi.
    do 5 (destruct i as [|i]; [simpl; auto|]). lia.
Defined.



(** The assertion at the end of the loop body keeps the sums, whatever
    the state of the candidate: a split that is applied conserves the
    sum of every known action's matrix. *)

Ltac inv_bind H :=
  repeat match type of H with
  | bind ?m _ = Some _ =>
      let E := fresh "E" in
      destruct m eqn:E; [cbn [bind] in H | discriminate H]
  end.

Lemma new_trans_of_action_sum (e : SplitParams.Env) (new_labels : list Z)
    (a : action) (M' : Matrix) :
  SplitParams.new_trans_of_action e new_labels a = Some M' ->
  exists M, lookup a (SplitParams.transitions e) = Some M
            /\ msum M' = msum M.
Proof.
  unfold SplitParams.new_trans_of_action. intros H.
  inv_bind H. injection H as <-.
  eexists. split; [reflexivity|].
  unfold assert in *.
  match goal with
  | E : (if (?x =? ?y)%Z then _ else _) = Some _ |- _ =>
      destruct (Z.eqb_spec x y) as [Heq|]; [exact Heq | discriminate E]
  end.
Qed.

Lemma mapM_lookup (g : action -> option Matrix) (l : list action)
    (ys : list (action * Matrix)) (a : action) :
  mapM (fun a => let? M := g a in Some (a, M)) l = Some ys ->
  In a l -> exists M, g a = Some M /\ lookup a ys = Some M.
Proof.
  revert ys. induction l as [|k l IH]; intros ys H Ha; [destruct Ha|].
  simpl in H. destruct (g k) as [Mk|] eqn:Ek; [|discriminate H].
  cbn [bind] in H.
  destruct (mapM _ l) as [ys'|] eqn:El; [|discriminate H].
  cbn [bind] in H. injection H as <-.
  unfold lookup. simpl. destruct (action_eqb k a) eqn:E.
  - apply action_eqb_eq in E. subst k. exists Mk. auto.
  - destruct Ha as [Ha|Ha].
    + subst. now rewrite action_eqb_refl in E.
    + apply (IH ys' eq_refl Ha).
Qed.

Lemma update_transition_matrices_sums (e : SplitParams.Env)
    (cache : option (list Z)) (new_trans : list (action * Matrix)) :
  SplitParams._update_transition_matrices e cache = Some new_trans ->
  forall a, In a (SplitParams.known_actions e) ->
    exists M M',
      lookup a (SplitParams.transitions e) = Some M
      /\ lookup a new_trans = Some M'
      /\ msum M' = msum M.
Proof.
  unfold SplitParams._update_transition_matrices. intros H a Ha.
  inv_bind H.
  destruct (@mapM_lookup _ _ _ a H Ha) as [M' [HM' Hl]].
  destruct (@new_trans_of_action_sum _ _ _ _ HM') as [M [HM Hs]].
  exists M, M'. auto.
Qed.

(** ** Entropy: the special cases *)

Lemma Rltb_true (x y : R) : (x < y)%R -> Rltb x y = true.
Proof. intros H. unfold Rltb. now destruct (Rlt_dec x y). Qed.

Lemma Rltb_false (x y : R) : (y <= x)%R -> Rltb x y = false.
Proof. intros H. unfold Rltb. destruct (Rlt_dec x y); [lra|reflexivity]. Qed.

Lemma Rleb_true (x y : R) : (x <= y)%R -> Rleb x y = true.
Proof. intros H. unfold Rleb. now destruct (Rle_dec x y). Qed.

Lemma Reqb_true (x y : R) : x = y -> Reqb x y = true.
Proof. intros H. unfold Reqb. now destruct (Req_dec_T x y). Qed.

Lemma Reqb_false (x y : R) : x <> y -> Reqb x y = false.
Proof. intros H. unfold Reqb. now destruct (Req_dec_T x y). Qed.

Lemma no_negative (dist : list R) :
  Forall (fun x => 0 <= x)%R dist ->
  existsb (fun x => Rltb x (- 0)%R) dist = false.
Proof.
  induction 1 as [|x l Hx Hl IH]; simpl; [reflexivity|].
  rewrite IH, Rltb_false by lra. reflexivity.
Qed.

(** C5, as stated, fails on the one-element vector [5]: without
    normalization [WorldModelTree._entropy] returns 1.0, not 0. *)
Lemma entropy_special_cases_fails :
  ~ entropy_special_cases [5%R] false true.
Proof.
  intros [_ H]. specialize (H (le_n 1)).
  unfold WorldModelTree._entropy in H.
  rewrite (@no_negative [5%R]) in H by (repeat constructor; lra).
  simpl in H. injection H as H. lra.
Qed.

(** C5, amended: on a non-negative vector of length [K], when [K <= 1]
    [WorldModelTree._entropy] returns 1.0 whatever [normalize] and
    [ignore_empty_classes] are (also when the vector sums to 0); when
    [K >= 2] and the vector sums to 0 it returns 1.0 when normalizing
    and [WorldModelTree.log2 K] otherwise, unless [ignore_empty_classes] is false, in
    which case it fails. *)
Theorem entropy_special (dist : list R) (normalize ignore_empty : bool) :
  Forall (fun x => 0 <= x)%R dist ->
  (length dist <= 1 -> WorldModelTree._entropy dist normalize ignore_empty = Some 1%R)
  /\ (2 <= length dist -> WorldModelTree.Rsum dist = 0%R ->
        WorldModelTree._entropy dist normalize ignore_empty =
        if ignore_empty
        then Some (if normalize then 1%R else WorldModelTree.log2 (INR (length dist)))
        else None).
Proof.
  intros Hnn. unfold WorldModelTree._entropy. rewrite (no_negative Hnn).
  cbn [negb assert bind]. split.
  - intros HK. apply Nat.leb_le in HK. now rewrite HK.
  - intros HK Hsum.
    replace (length dist <=? 1) with false
      by (symmetry; apply Nat.leb_gt; lia).
    rewrite (Reqb_true Hsum).
    destruct ignore_empty, normalize; reflexivity.
Qed.

Lemma entropy_special_witness :
  Forall (fun x => 0 <= x)%R [0%R; 0%R] /\
  (length [0%R; 0%R] <= 1 -> WorldModelTree._entropy [0%R; 0%R] false true = Some 1%R)
  /\ (2 <= length [0%R; 0%R] -> WorldModelTree.Rsum [0%R; 0%R] = 0%R ->
        WorldModelTree._entropy [0%R; 0%R] false true = Some (WorldModelTree.log2 (INR 2))).
Proof.
  assert (H : Forall (fun x => 0 <= x)%R [0%R; 0%R])
    by (repeat constructor; lra).
  split; [exact H|].
  exact (entropy_special false true H).
Defined.

(** ** Mutual information of the two extreme chains *)

Lemma Rsum_repeat (x : R) (n : nat) : WorldModelTree.Rsum (repeat x n) = (INR n * x)%R.
Proof.
  unfold WorldModelTree.Rsum. induction n as [|n IH].
  - simpl. lra.
  - rewrite S_INR. simpl repeat. simpl fold_right. rewrite IH. lra.
Qed.

Lemma Rsum_map_zero (A : Type) (f : A -> R) (l : list A) :
  (forall x, In x l -> f x = 0%R) -> WorldModelTree.Rsum (map f l) = 0%R.
Proof.
  unfold WorldModelTree.Rsum. induction l as [|x l IH]; intros H; simpl; [reflexivity|].
  rewrite (H x (or_introl eq_refl)), IH by (intros y Hy; apply H; now right).
  lra.
Qed.

Lemma Rsum_indicator (K : nat) (j0 : nat) (c : R) :
  j0 < K ->
  WorldModelTree.Rsum (map (fun j => if j =? j0 then c else 0%R) (seq 0 K)) = c.
Proof.
  unfold WorldModelTree.Rsum. induction K as [|K IH]; intros H; [lia|].
  rewrite seq_S, map_app, fold_right_app. simpl.
  destruct (Nat.eqb_spec K j0) as [->|Hne].
  - replace (fold_right Rplus (c + 0)%R _) with (c + 0 + 0)%R; [lra|].
    clear IH H. generalize (c + 0)%R as z. intros z.
    assert (G : forall n m, n + m <= j0 ->
              fold_right Rplus z
                (map (fun j => if j =? j0 then c else 0%R) (seq n m)) = z).
    { intros n m; revert n; induction m as [|m IHm]; intros n Hn;
        simpl; [reflexivity|].
      replace (n =? j0) with false by (symmetry; apply Nat.eqb_neq; lia).
      rewrite IHm by lia. lra. }
    rewrite G by lia. lra.
  - replace (fold_right Rplus (0 + 0)%R _)
      with (fold_right Rplus 0%R
              (map (fun j => if j =? j0 then c else 0%R) (seq 0 K)) + 0)%R.
    + rewrite IH by lia. lra.
    + generalize (map (fun j => if j =? j0 then c else 0%R) (seq 0 K)) as l.
      induction l as [|x l IHl]; simpl; [lra|]. rewrite <- IHl. lra.
Qed.

Lemma combine_repeat (A B : Type) (a : A) (b : B) (n : nat) :
  combine (repeat a n) (repeat b n) = repeat (a, b) n.
Proof. induction n as [|n IH]; simpl; [reflexivity|now rewrite IH]. Qed.

Lemma map_const_seq (A : Type) (x : A) (n m : nat) :
  map (fun _ => x) (seq n m) = repeat x m.
Proof.
  revert n; induction m as [|m IH]; intros n; simpl; [reflexivity|].
  now rewrite IH.
Qed.

Lemma mapM_repeat (A B : Type) (f : A -> option B) (x : A) (y : B) (n : nat) :
  f x = Some y -> mapM f (repeat x n) = Some (repeat y n).
Proof.
  intros H. induction n as [|n IH]; simpl; [reflexivity|].
  now rewrite H, IH.
Qed.

Lemma INR_pos (K : nat) : 2 <= K -> (0 < INR K)%R.
Proof. intros H. apply lt_0_INR. lia. Qed.

Lemma log2_nonneg (K : nat) : 2 <= K -> (0 <= WorldModelTree.log2 (INR K))%R.
Proof.
  intros H. unfold WorldModelTree.log2.
  assert (H1 : (1 <= INR K)%R) by (apply (le_INR 1); lia).
  assert (H2 : (0 <= ln (INR K))%R).
  { destruct H1 as [H1|H1].
    - left. rewrite <- ln_1. apply ln_increasing; lra.
    - rewrite <- H1, ln_1. lra. }
  pose proof ln_lt_2 as H3.
  apply Rmult_le_pos; [exact H2|]. left. apply Rinv_0_lt_compat. lra.
Qed.

(** The entropy of [K >= 2] equal positive weights is [WorldModelTree.log2 K]. *)
Lemma entropy_uniform (K : nat) (x : R) :
  2 <= K -> (0 < x)%R ->
  WorldModelTree._entropy (repeat x K) false false = Some (WorldModelTree.log2 (INR K)).
Proof.
  intros HK Hx. pose proof (INR_pos HK) as HI.
  pose proof (log2_nonneg HK) as HL.
  unfold WorldModelTree._entropy.
  rewrite no_negative by (apply Forall_forall; intros y Hy;
                          apply repeat_spec in Hy; subst; lra).
  cbn [negb assert bind]. rewrite repeat_length.
  replace (K <=? 1) with false by (symmetry; apply Nat.leb_gt; lia).
  rewrite Rsum_repeat.
  rewrite Reqb_false by (apply Rgt_not_eq; apply Rmult_lt_0_compat; lra).
  rewrite !map_repeat, combine_repeat, map_repeat, Rsum_repeat.
  cbn [fst snd].
  assert (Eq : (x / (INR K * x))%R = (/ INR K)%R) by (field; lra).
  rewrite Eq.
  rewrite Rltb_true by (apply Rinv_0_lt_compat; exact HI).
  assert (Ev : (- (INR K * (/ INR K * WorldModelTree.log2 (/ INR K))))%R = WorldModelTree.log2 (INR K)).
  { unfold WorldModelTree.log2. rewrite ln_Rinv by exact HI. pose proof ln_lt_2. field.
    split; lra. }
  rewrite Ev, Rleb_true by lra. cbn [assert bind].
  rewrite Rleb_true by exact HL. reflexivity.
Qed.

(** The entropy of a row with a single positive entry is 0. *)
Lemma entropy_one_hot (K j0 : nat) (c : R) :
  2 <= K -> j0 < K -> (0 < c)%R ->
  WorldModelTree._entropy (map (fun j => if j =? j0 then c else 0%R) (seq 0 K))
           false false = Some (- 0)%R.
Proof.
  intros HK Hj Hc. pose proof (log2_nonneg HK) as HL.
  unfold WorldModelTree._entropy.
  rewrite no_negative
    by (apply Forall_forall; intros y Hy; apply in_map_iff in Hy;
        destruct Hy as [j [<- _]]; destruct (j =? j0); lra).
  cbn [negb assert bind]. rewrite length_map, length_seq.
  replace (K <=? 1) with false by (symmetry; apply Nat.leb_gt; lia).
  rewrite (Rsum_indicator c Hj).
  rewrite Reqb_false by lra.
  set (probs := map (fun x => (x / c)%R) _).
  assert (E : WorldModelTree.Rsum (map (fun pl => (fst pl * snd pl)%R)
                (combine probs
                   (map (fun p => if Rltb 0 p then WorldModelTree.log2 p else 0%R) probs)))
              = 0%R).
  { assert (Hp : forall p, In p probs -> p = 0%R \/ p = 1%R).
    { intros p Hp. unfold probs in Hp. rewrite map_map in Hp.
      apply in_map_iff in Hp as [j [<- _]].
      destruct (j =? j0); [right; field; lra | left; field; lra]. }
    clearbody probs. induction probs as [|p l IHl]; [reflexivity|].
    simpl. unfold WorldModelTree.Rsum in *. simpl.
    rewrite IHl by (intros q Hq; apply Hp; now right).
    destruct (Hp p (or_introl eq_refl)) as [-> | ->].
    - lra.
    - rewrite Rltb_true by lra. unfold WorldModelTree.log2. rewrite ln_1. lra. }
  rewrite E, Rleb_true by lra. cbn [assert bind].
  rewrite Rleb_true by lra. reflexivity.
Qed.

(** The mutual information of a matrix with one positive count [c] per
    row. *)
Lemma mutual_information_deterministic (K : nat) (c : R) (sigma : nat -> nat) :
  2 <= K -> (0 < c)%R ->
  (forall i, i < K -> sigma i < K) ->
  WorldModelTree._mutual_information (deterministic_matrix K sigma c) =
  Some (WorldModelTree.log2 (INR K)).
Proof.
  intros HK Hc Hsigma. pose proof (INR_pos HK) as HI.
  assert (Hw : (0 < INR K * c)%R) by (apply Rmult_lt_0_compat; lra).
  assert (Hmu : (0 < c / (INR K * c))%R)
    by (apply Rdiv_lt_0_compat; lra).
  assert (Hrows : WorldModelTree.row_sums (deterministic_matrix K sigma c) = repeat c K).
  { unfold WorldModelTree.row_sums, deterministic_matrix. rewrite map_map.
    rewrite <- (map_const_seq c 0 K). apply map_ext_in.
    intros i Hi. apply in_seq in Hi.
    apply Rsum_indicator, Hsigma. lia. }
  unfold WorldModelTree._mutual_information. unfold WorldModelTree.Rmsum.
  fold (WorldModelTree.row_sums (deterministic_matrix K sigma c)).
  rewrite Hrows, Rsum_repeat, Rltb_true by exact Hw.
  cbn [assert bind]. rewrite map_repeat.
  rewrite (entropy_uniform HK Hmu). cbn [bind].
  unfold WorldModelTree._matrix_entropy. rewrite Hrows.
  rewrite (mapM_some _ (fun _ => (- 0)%R)).
  2:{ intros row Hrow. unfold deterministic_matrix in Hrow.
      apply in_map_iff in Hrow as [i [<- Hi]]. apply in_seq in Hi.
      apply entropy_one_hot; auto. apply Hsigma. lia. }
  cbn [bind]. f_equal.
  rewrite (Rsum_map_zero (fun we => (fst we * snd we)%R)).
  + lra.
  + intros [w en] Hin. apply in_combine_r in Hin.
    apply in_map_iff in Hin as [row [<- _]]. simpl. lra.
Qed.



(** ** Classification *)

Lemma index_of_In (p : list bool) (l : list (list bool)) :
  In p l -> exists i, WorldmodelTree.index_of p l = Some i /\ i < length l.
Proof.
  induction l as [|q l IH]; intros H; [destruct H|].
  simpl. destruct (list_eq_dec Bool.bool_dec p q) as [E|E].
  - exists 0. split; [reflexivity|lia].
  - destruct H as [H|H]; [congruence|].
    destruct (IH H) as [i [Hi Hlt]]. exists (S i).
    rewrite Hi. split; [reflexivity|lia].
Qed.

Lemma descend_In (Obs Params : Type) (_test : Obs -> Params -> bool)
    (node : WorldmodelTree.Tree Params) (dat : Obs) :
  In (WorldmodelTree.descend _test node dat) (WorldmodelTree.get_leaves node).
Proof.
  induction node as [refs|params a IHa b IHb]; simpl; [now left|].
  apply in_or_app. destruct (_test dat params).
  - right. now apply in_map.
  - left. now apply in_map.
Qed.

(** [classify] of worldmodel_tree.py returns one leaf index per
    observation. *)
Lemma classify_total (Obs Params : Type) (_test : Obs -> Params -> bool)
    (root : WorldmodelTree.Tree Params) (x : list Obs) :
  exists l, WorldmodelTree.classify _test root x = Some l
            /\ length l = length x
            /\ Forall (fun i => i < WorldmodelTree.get_number_of_leaves root) l.
Proof.
  unfold WorldmodelTree.classify. induction x as [|dat x IH].
  - exists []. simpl. auto.
  - destruct IH as [l [El [Hl Hf]]].
    destruct (index_of_In _ _ (descend_In _test root dat)) as [i [Ei Hi]].
    exists (i :: l). cbn [mapM].
    unfold WorldmodelTree.get_leaf_index at 1.
    rewrite Ei. cbn [bind]. rewrite El. cbn [bind].
    split; [reflexivity|]. split; [simpl; now rewrite Hl|].
    now constructor.
Qed.

(** C9: two calls of [classify] on one batch, with nothing between
    them, return the same labels and leave the model as it was; this
    holds for [WorldModelTree.classify] of worldmodel.py and for
    [Partitioning.classify] / [WorldmodelTree.classify] of the newer
    files, where the call also always returns (one label per
    observation). *)
Theorem classify_twice :
  (forall (Obs : Type) (root : WorldModelTree.Root Obs) (x : list Obs),
     let (root1, labels1) := WorldModelTree.classify_call root x in
     let (root2, labels2) := WorldModelTree.classify_call root1 x in
     labels1 = labels2 /\ root2 = root)
  /\ (forall (Obs Params : Type) (_test : Obs -> Params -> bool)
        (p : Partitioning.t Params) (x : list Obs),
        let (p1, labels1) := Partitioning.classify _test p x in
        let (p2, labels2) := Partitioning.classify _test p1 x in
        labels1 = labels2 /\ p2 = p
        /\ exists l, labels1 = Some l /\ length l = length x).
Proof.
  split.
  - intros Obs root x. simpl. auto.
  - intros Obs Params _test p x. simpl. split; [reflexivity|].
    split; [reflexivity|].
    destruct (classify_total _test (Partitioning.tree p) x)
      as [l [El [Hl _]]].
    exists l. auto.
Qed.

(** ** Adding data *)

(** Whatever the model holds, a call whose action list has neither [N]
    nor [N - 1] entries raises. *)
Lemma add_data_length_mismatch (Obs : Type) (root : WorldModelTree.Root Obs)
    (x : list Obs) (actions : list action) :
  length actions <> length x -> S (length actions) <> length x ->
  exists e, WorldModelTree.add_data root x (Some actions)
            = WorldModelTree.Raise e.
Proof.
  intros H1 H2. unfold WorldModelTree.add_data.
  destruct (WorldModelTree.classify _ x) as [ls|e]; [|now exists e].
  cbn [WorldModelTree.rbind].
  assert (Hpad : (length (if length actions <? length x
                          then actions ++ [None] else actions)
                  =? length x) = false).
  { apply Nat.eqb_neq. destruct (length actions <? length x).
    - rewrite length_app. simpl. lia.
    - exact H1. }
  destruct (WorldModelTree.data root) as [old|].
  - destruct (WorldModelTree.vstack _ _) as [lab|];
      cbn [WorldModelTree.lift WorldModelTree.rbind].
    + rewrite Hpad. cbn [assert WorldModelTree.lift WorldModelTree.rbind].
      now eexists.
    + now eexists.
  - rewrite Hpad. cbn [assert WorldModelTree.lift WorldModelTree.rbind].
    now eexists.
Qed.

(** A first call with one action less than observations succeeds: the
    action list is closed by the unknown action, every sample is in
    state 0, and the counted transitions are those that start at the
    indices below [N - 1]. *)
Lemma add_data_first_call :
  two_samples =
  WorldModelTree.Ok
    {| WorldModelTree.tree := WorldModelTree.Leaf [0; 1] None;
       WorldModelTree.data := Some [tt; tt];
       WorldModelTree.labels := WorldModelTree.Arr1 [0; 0]%Z;
       WorldModelTree.actions := [Some 1%Z; None];
       WorldModelTree.transitions :=
         Some [(Some 1%Z, [[1%Z]]); (None, [[0%Z]])];
       WorldModelTree.stats := [] |}.
Proof. reflexivity. Qed.

(** C7 at the failing input: the model holds two observations; the
    call brings three observations and two actions (one short) and
    raises, because [np.vstack] cannot stack label vectors of the
    lengths 2 and 3. *)
Theorem add_data_append_raises :
  three_more = WorldModelTree.Raise WorldModelTree.OtherError.
Proof. reflexivity. Qed.

(** ** Degenerate candidates *)

Ltac inv_rbind H :=
  repeat match type of H with
  | WorldModelTree.rbind ?m _ = WorldModelTree.Ok _ =>
      let E := fresh "E" in
      destruct m eqn:E; [cbn [WorldModelTree.rbind] in H | discriminate H]
  end.

Lemma lift_ok (A : Type) (o : option A) (a : A) :
  WorldModelTree.lift o = WorldModelTree.Ok a -> o = Some a.
Proof. destruct o; simpl; intros H; [now injection H as ->|discriminate]. Qed.

Lemma mapM_In (A B : Type) (f : A -> option B) (l : list A) (ys : list B) :
  mapM f l = Some ys ->
  forall y, In y ys -> exists x, In x l /\ f x = Some y.
Proof.
  revert ys. induction l as [|x l IH]; intros ys H y Hy.
  - injection H as <-. destruct Hy.
  - simpl in H. destruct (f x) as [y0|] eqn:Ex; [|discriminate H].
    cbn [bind] in H. destruct (mapM f l) as [ys'|]; [|discriminate H].
    cbn [bind] in H. injection H as <-.
    destruct Hy as [<-|Hy].
    + exists x. split; [now left|exact Ex].
    + destruct (IH ys' eq_refl y Hy) as [x' [Hx' Ex']].
      exists x'. split; [now right|exact Ex'].
Qed.

Section Degenerate.
Variable Obs : Type.
Variable spectral_partition :
  list nat -> list Obs -> WorldModelTree.res (list R).
Variable knn_train : list Obs -> list bool -> WorldModelTree.Knn Obs.

Local Abbreviation fitted := (WorldModelTree.fitted spectral_partition knn_train).
Local Abbreviation _init_test :=
  (WorldModelTree._init_test spectral_partition knn_train).
Local Abbreviation candidate_gain :=
  (WorldModelTree.candidate_gain spectral_partition knn_train).
Local Abbreviation gain_loop := (WorldModelTree.gain_loop spectral_partition knn_train).

Lemma strict_refs (root : WorldModelTree.Root Obs) (refs : list nat)
    (a : action) (strict : list nat) :
  WorldModelTree.get_transition_refs_strict root refs a
  = WorldModelTree.Ok strict ->
  forall t, In t strict -> In t refs.
Proof.
  unfold WorldModelTree.get_transition_refs_strict. intros H t Ht.
  destruct a as [k|].
  - inv_rbind H. injection H as <-. apply filter_In in Ht. apply Ht.
  - injection H as <-. apply filter_In in Ht. apply Ht.
Qed.

(** The training observations are observations of the leaf. *)
Lemma fitted_data (root : WorldModelTree.Root Obs) (refs : list nat)
    (a : action) (knn' : WorldModelTree.Knn Obs) (data_1 : list Obs)
    (u : list R) :
  fitted root refs a = WorldModelTree.Ok (knn', data_1, u) ->
  forall x, In x data_1 ->
    exists d r, WorldModelTree.data root = Some d /\ In r refs
                /\ nth_error d r = Some x.
Proof.
  unfold WorldModelTree.fitted. intros H x Hx.
  inv_rbind H. injection H as _ <- _.
  match goal with
  | E : WorldModelTree.get_transition_data_strict _ _ _ = _ |- _ =>
      unfold WorldModelTree.get_transition_data_strict in E;
      inv_rbind E; injection E as <-
  end.
  cbn [fst] in Hx.
  repeat match goal with
  | E : WorldModelTree.lift _ = WorldModelTree.Ok _ |- _ =>
      apply lift_ok in E
  end.
  match goal with
  | E : mapM _ _ = Some ?ys, Hin : In x ?ys |- _ =>
      destruct (@mapM_In _ _ _ _ _ E x Hin) as [r [Hr Er]]
  end.
  match goal with
  | E : WorldModelTree.data root = Some ?d |- _ => exists d, r
  end.
  repeat split; try assumption.
  match goal with
  | E : WorldModelTree.get_transition_refs_strict _ _ _ = _ |- _ =>
      exact (strict_refs _ _ _ E r Hr)
  end.
Qed.

Lemma one_sided_not_separating (root : WorldModelTree.Root Obs)
    (refs : list nat) (a : action) (knn' : WorldModelTree.Knn Obs)
    (data_1 : list Obs) (u : list R) :
  fitted root refs a = WorldModelTree.Ok (knn', data_1, u) ->
  WorldModelTree.one_sided_on_leaf root refs knn' ->
  WorldModelTree.not_separating knn' data_1.
Proof.
  intros Hf [side Hside]. exists side. intros x Hx.
  destruct (@fitted_data _ _ _ _ _ _ Hf x Hx) as [d [r [Hd [Hr Ex]]]].
  exact (Hside d r x Hd Hr Ex).
Qed.

Lemma existsb_false_all (A : Type) (f : A -> bool) (l : list A) :
  (forall x, In x l -> f x = false) -> existsb f l = false.
Proof.
  intros H. destruct (existsb f l) eqn:E; [|reflexivity].
  apply existsb_exists in E as [x [Hx Hfx]]. now rewrite (H x Hx) in Hfx.
Qed.

(** [_init_test] returns [False] for a classifier that does not
    separate its training data. *)
Lemma init_test_not_separating (root : WorldModelTree.Root Obs)
    (refs : list nat) (knn : option (WorldModelTree.Knn Obs)) (a : action)
    (knn' : WorldModelTree.Knn Obs) (data_1 : list Obs) (u : list R) :
  fitted root refs a = WorldModelTree.Ok (knn', data_1, u) ->
  WorldModelTree.not_separating knn' data_1 ->
  exists knn'', _init_test root refs knn a = WorldModelTree.Ok (false, knn'').
Proof.
  unfold WorldModelTree.fitted, WorldModelTree._init_test.
  intros H [side Hside]. inv_rbind H. injection H as <- <- <-.
  cbn [WorldModelTree.rbind].
  match goal with
  | E : spectral_partition _ _ = WorldModelTree.Ok _ |- _ => rewrite E
  end.
  cbn [WorldModelTree.rbind].
  destruct (negb (existsb (fun x => Rltb x 0) _)); [now eexists|].
  destruct (negb (existsb (fun x => Rltb 0 x) _)); [now eexists|].
  destruct side.
  - rewrite (existsb_false_all negb).
    + simpl. now eexists.
    + intros b Hb. apply in_map_iff in Hb as [x [<- Hx]].
      now rewrite (Hside x Hx).
  - destruct (negb (existsb negb _)); [now eexists|].
    rewrite (existsb_false_all (fun b : bool => b)).
    + simpl. now eexists.
    + intros b Hb. apply in_map_iff in Hb as [x [<- Hx]].
      exact (Hside x Hx).
Qed.

(** [_relabel_data] never returns [(None, None)]: the assertions come
    first. *)
Lemma relabel_data_not_none (root : WorldModelTree.Root Obs)
    (current_state : nat) (refs : list nat)
    (knn : option (WorldModelTree.Knn Obs)) :
  WorldModelTree._relabel_data root current_state refs knn
  <> WorldModelTree.Ok None.
Proof.
  unfold WorldModelTree._relabel_data. intros H.
  destruct (WorldModelTree.lift (WorldModelTree.scalars _));
    [cbn [WorldModelTree.rbind] in H | discriminate H].
  destruct (WorldModelTree.rfoldM _ _ _) as [[nl [d0 d1]]|];
    [cbn [WorldModelTree.rbind fst snd] in H | discriminate H].
  destruct (length nl =? _); [|discriminate H].
  cbn [assert WorldModelTree.lift WorldModelTree.rbind] in H.
  destruct (0 <? length d0) eqn:E0; [|discriminate H].
  cbn [assert WorldModelTree.lift WorldModelTree.rbind] in H.
  destruct (0 <? length d1) eqn:E1; [|discriminate H].
  cbn [assert WorldModelTree.lift WorldModelTree.rbind] in H.
  apply Nat.ltb_lt in E0, E1.
  replace (length d0 =? 0) with false in H
    by (symmetry; apply Nat.eqb_neq; lia).
  replace (length d1 =? 0) with false in H
    by (symmetry; apply Nat.eqb_neq; lia).
  discriminate H.
Qed.


End Degenerate.


(** ** An empty side in split_params.py

    [_update_dat_refs] never returns an empty side: when the test sends
    every reference to one child, one of its last two assertions
    fails. *)
Lemma update_dat_refs_sides (e : SplitParams.Env) (cache : option (list Z))
    (d0 d1 : list nat) :
  SplitParams._update_dat_refs e cache = Some (d0, d1) ->
  d0 <> [] /\ d1 <> [].
Proof.
  unfold SplitParams._update_dat_refs. intros H.
  destruct (SplitParams.get_new_labels e cache) as [new_labels|];
    [cbn [bind] in H|discriminate H].
  destruct (assert _); [cbn [bind] in H|discriminate H].
  destruct (assert _); [cbn [bind] in H|discriminate H].
  destruct (0 <? length (where_eq (Z.of_nat (SplitParams.leaf_index e))
                           new_labels)) eqn:E0;
    [cbn [assert bind] in H|discriminate H].
  destruct (0 <? length (where_eq (Z.of_nat (SplitParams.leaf_index e) + 1)
                           new_labels)) eqn:E1;
    [cbn [assert bind] in H|discriminate H].
  injection H as <- <-.
  apply Nat.ltb_lt in E0, E1.
  split; intros E; rewrite E in *; simpl in *; lia.
Qed.

(** ** Selection among candidates *)

Lemma gain_gtb_trans (x g b : WorldModelTree.Gain) :
  WorldModelTree.gain_gtb x g = true ->
  WorldModelTree.gain_gtb g b = true ->
  WorldModelTree.gain_gtb x b = true.
Proof.
  destruct x as [|x], g as [|g], b as [|b]; simpl; try congruence.
  unfold Rltb.
  destruct (Rlt_dec g x), (Rlt_dec b g), (Rlt_dec b x); try congruence; lra.
Qed.

Lemma gain_gtb_below (x g b : WorldModelTree.Gain) :
  WorldModelTree.gain_gtb x b = true ->
  WorldModelTree.gain_gtb g b = false ->
  WorldModelTree.gain_gtb x g = true.
Proof.
  destruct x as [|x], g as [|g], b as [|b]; simpl; try congruence.
  unfold Rltb.
  destruct (Rlt_dec b x), (Rlt_dec b g), (Rlt_dec g x); try congruence; lra.
Qed.

Lemma strict_best_app (K B : Type) (inj : K -> B) (l1 l2 : list (K * R))
    (acc : WorldModelTree.Gain * B) :
  strict_best inj (l1 ++ l2) acc = strict_best inj l2 (strict_best inj l1 acc).
Proof. unfold strict_best. apply fold_left_app. Qed.

Lemma strict_best_cons (K B : Type) (inj : K -> B) (c : K * R)
    (l : list (K * R)) (acc : WorldModelTree.Gain * B) :
  strict_best inj (c :: l) acc
  = strict_best inj l
      (if WorldModelTree.gain_gtb (WorldModelTree.Fin (snd c)) (fst acc)
       then (WorldModelTree.Fin (snd c), inj (fst c)) else acc).
Proof. reflexivity. Qed.

(** The best action of one leaf, compared with the running best of the
    round, is the running best after the leaf's candidates. *)
Lemma strict_best_leaf_gen (index : nat) (cs : list (action * R)) :
  forall (g : WorldModelTree.Gain) (a : action)
         (bg' : WorldModelTree.Gain) (best' : option (nat * action))
         (bg : WorldModelTree.Gain) (best : option (nat * action)),
    (WorldModelTree.gain_gtb g bg = true /\ bg' = g
     /\ best' = Some (index, a))
    \/ (WorldModelTree.gain_gtb g bg = false /\ bg' = bg /\ best' = best) ->
    (if WorldModelTree.gain_gtb
          (fst (strict_best (fun a => a) cs (g, a))) bg
     then (fst (strict_best (fun a => a) cs (g, a)),
           Some (index, snd (strict_best (fun a => a) cs (g, a))))
     else (bg, best))
    = strict_best (@Some (nat * action))
        (map (fun ag => (index, fst ag, snd ag)) cs) (bg', best').
Proof.
  induction cs as [|[a1 x] cs IH]; intros g a bg' best' bg best Hinv.
  - simpl. destruct Hinv as [[E [-> ->]]|[E [-> ->]]]; now rewrite E.
  - rewrite strict_best_cons. simpl map. rewrite strict_best_cons.
    cbn [fst snd].
    destruct Hinv as [[E [-> ->]]|[E [-> ->]]].
    + destruct (WorldModelTree.gain_gtb (WorldModelTree.Fin x) g) eqn:Ex.
      * apply IH. left. repeat split.
        exact (gain_gtb_trans _ _ _ Ex E).
      * apply IH. left. now repeat split.
    + destruct (WorldModelTree.gain_gtb (WorldModelTree.Fin x) bg) eqn:Ex.
      * rewrite (gain_gtb_below _ _ _ Ex E).
        apply IH. left. now repeat split.
      * destruct (WorldModelTree.gain_gtb (WorldModelTree.Fin x) g) eqn:Eg.
        -- apply IH. right. now repeat split.
        -- apply IH. right. now repeat split.
Qed.

Lemma strict_best_leaf (index : nat) (cs : list (action * R))
    (bg : WorldModelTree.Gain) (best : option (nat * action)) :
  (if WorldModelTree.gain_gtb
        (fst (strict_best (fun a => a) cs (WorldModelTree.NegInf, None))) bg
   then (fst (strict_best (fun a => a) cs (WorldModelTree.NegInf, None)),
         Some (index,
               snd (strict_best (fun a => a) cs (WorldModelTree.NegInf, None))))
   else (bg, best))
  = strict_best (@Some (nat * action))
      (map (fun ag => (index, fst ag, snd ag)) cs) (bg, best).
Proof. apply strict_best_leaf_gen. right. now repeat split. Qed.

Lemma first_max_all_le (K : Type) (cands : list (K * R)) (k : K) (g : R) :
  first_max cands k g -> Forall (fun c => (snd c <= g)%R) cands.
Proof.
  intros (pre & post & -> & Hpre & Hpost).
  apply Forall_app. split.
  - eapply Forall_impl; [|exact Hpre]. simpl. intros c Hc. lra.
  - constructor; [simpl; lra|exact Hpost].
Qed.

Lemma last_max_all_le (K : Type) (cands : list (K * R)) (k : K) (g : R) :
  last_max cands k g -> Forall (fun c => (snd c <= g)%R) cands.
Proof.
  intros (pre & post & -> & Hpre & Hpost).
  apply Forall_app. split; [exact Hpre|].
  constructor; [simpl; lra|].
  eapply Forall_impl; [|exact Hpost]. simpl. intros c Hc. lra.
Qed.

(** Started from [-inf], the strict loop ends with the first candidate
    of maximal gain. *)
Lemma strict_best_first_max (K B : Type) (inj : K -> B)
    (cands : list (K * R)) (b0 : B) :
  cands <> [] ->
  exists k g,
    strict_best inj cands (WorldModelTree.NegInf, b0)
    = (WorldModelTree.Fin g, inj k)
    /\ first_max cands k g.
Proof.
  induction cands as [|[k1 x] cs IH] using rev_ind; intros Hne; [congruence|].
  rewrite strict_best_app, strict_best_cons. cbn [strict_best fold_left fst snd].
  destruct cs as [|c0 cs0].
  - exists k1, x. split; [reflexivity|].
    exists [], []. repeat split; constructor.
  - destruct IH as (k & g & E & Hmax); [discriminate|].
    rewrite E. cbn [fst WorldModelTree.gain_gtb].
    unfold Rltb. destruct (Rlt_dec g x) as [Hlt|Hge].
    + exists k1, x. split; [reflexivity|].
      exists (c0 :: cs0), []. repeat split; [|constructor].
      eapply Forall_impl; [|exact (first_max_all_le Hmax)].
      simpl. intros c Hc. lra.
    + exists k, g. split; [reflexivity|].
      destruct Hmax as (pre & post & Ecs & Hpre & Hpost).
      exists pre, (post ++ [(k1, x)]). repeat split.
      * rewrite Ecs, <- app_assoc. reflexivity.
      * exact Hpre.
      * apply Forall_app. split; [exact Hpost|].
        constructor; [simpl; lra|constructor].
Qed.

(** The loop of [calc_best_split], with its [>=], ends with the last
    candidate of maximal gain. *)
Lemma nonstrict_best_last_max (K : Type) (splits : list (K * R)) :
  splits <> [] ->
  exists k g,
    fold_left
      (fun best_split split =>
         match best_split with
         | None => Some split
         | Some best =>
             if Rleb (snd best) (snd split)
             then Some split else best_split
         end)
      splits None = Some (k, g)
    /\ last_max splits k g.
Proof.
  induction splits as [|[k1 x] cs IH] using rev_ind; intros Hne; [congruence|].
  rewrite fold_left_app. cbn [fold_left].
  destruct cs as [|c0 cs0].
  - exists k1, x. split; [reflexivity|].
    exists [], []. repeat split; constructor.
  - destruct IH as (k & g & E & Hmax); [discriminate|].
    rewrite E. cbn [snd].
    unfold Rleb. destruct (Rle_dec g x) as [Hle|Hgt].
    + exists k1, x. split; [reflexivity|].
      exists (c0 :: cs0), []. repeat split; [|constructor].
      eapply Forall_impl; [|exact (last_max_all_le Hmax)].
      simpl. intros c Hc. lra.
    + exists k, g. split; [reflexivity|].
      destruct Hmax as (pre & post & Ecs & Hpre & Hpost).
      exists pre, (post ++ [(k1, x)]). repeat split.
      * rewrite Ecs, <- app_assoc. reflexivity.
      * exact Hpre.
      * apply Forall_app. split; [exact Hpost|].
        constructor; [simpl; lra|constructor].
Qed.

Section SelectionLoops.
Variable Obs : Type.
Variable spectral_partition :
  list nat -> list Obs -> WorldModelTree.res (list R).
Variable knn_train : list Obs -> list bool -> WorldModelTree.Knn Obs.

Local Abbreviation candidate_gain :=
  (WorldModelTree.candidate_gain spectral_partition knn_train).
Local Abbreviation gain_loop :=
  (WorldModelTree.gain_loop spectral_partition knn_train).
Local Abbreviation action_candidates :=
  (WorldModelTree.action_candidates spectral_partition knn_train).
Local Abbreviation leaf_loop :=
  (WorldModelTree.leaf_loop spectral_partition knn_train).
Local Abbreviation round_candidates :=
  (WorldModelTree.round_candidates spectral_partition knn_train).
Local Abbreviation _calculate_splitting_gain :=
  (WorldModelTree._calculate_splitting_gain spectral_partition knn_train).

(** The loop of [_calculate_splitting_gain] is the strict loop over the
    candidates of the leaf. *)
Lemma gain_loop_strict_best (root : WorldModelTree.Root Obs) (index : nat)
    (refs : list nat) (keys : list action) :
  forall knn cs knn' best_gain best_action,
    action_candidates root index refs keys knn = WorldModelTree.Ok (cs, knn') ->
    gain_loop root index refs keys knn best_gain best_action
    = WorldModelTree.Ok
        (fst (strict_best (fun a => a) cs (best_gain, best_action)),
         snd (strict_best (fun a => a) cs (best_gain, best_action)),
         knn').
Proof.
  induction keys as [|[z|] keys IH]; intros knn cs knn' bg ba H.
  - cbn in H. injection H as <- <-. reflexivity.
  - cbn [WorldModelTree.action_candidates] in H.
    cbn [WorldModelTree.gain_loop].
    destruct (candidate_gain root index refs knn (Some z))
      as [[[gain|] knn1]|[|]] eqn:E.
    + inv_rbind H. injection H as <- <-.
      rewrite strict_best_cons. cbn [fst snd].
      destruct (WorldModelTree.gain_gtb (WorldModelTree.Fin gain) bg);
        apply IH; now destruct a.
    + now apply IH.
    + now apply IH.
    + discriminate H.
  - cbn [WorldModelTree.action_candidates] in H.
    cbn [WorldModelTree.gain_loop]. now apply IH.
Qed.

(** The actions of the candidates are actions proper. *)
Lemma action_candidates_known (root : WorldModelTree.Root Obs) (index : nat)
    (refs : list nat) (keys : list action) :
  forall knn cs knn',
    action_candidates root index refs keys knn = WorldModelTree.Ok (cs, knn') ->
    Forall (fun c => fst c <> None) cs.
Proof.
  induction keys as [|[z|] keys IH]; intros knn cs knn' H.
  - cbn in H. injection H as <- <-. constructor.
  - cbn [WorldModelTree.action_candidates] in H.
    destruct (candidate_gain root index refs knn (Some z))
      as [[[gain|] knn1]|[|]] eqn:E.
    + inv_rbind H. injection H as <- <-.
      constructor; [discriminate|].
      destruct a as [cs1 knn2]. exact (IH _ _ _ E0).
    + exact (IH _ _ _ H).
    + exact (IH _ _ _ H).
    + discriminate H.
  - cbn [WorldModelTree.action_candidates] in H. exact (IH _ _ _ H).
Qed.

(** The loop of [single_splitting_step] is the strict loop over the
    candidates of the round. *)
Lemma leaf_loop_strict_best (indices : list nat) :
  forall (root root' : WorldModelTree.Root Obs) cands best_gain best,
    round_candidates root indices = WorldModelTree.Ok (root', cands) ->
    leaf_loop root indices best_gain best
    = WorldModelTree.Ok
        (root',
         fst (strict_best (@Some (nat * action)) cands (best_gain, best)),
         snd (strict_best (@Some (nat * action)) cands (best_gain, best))).
Proof.
  induction indices as [|index indices IH]; intros root root' cands bg best H.
  - cbn in H. injection H as <- <-. reflexivity.
  - cbn [WorldModelTree.round_candidates] in H.
    cbn [WorldModelTree.leaf_loop].
    destruct (WorldModelTree.lift
                (nth_error (WorldModelTree.get_leaves
                              (WorldModelTree.tree root)) index))
      as [leaf|] eqn:El;
      [cbn [WorldModelTree.rbind] in H |- *|discriminate H].
    destruct (WorldModelTree._reached_min_sample_size root (fst leaf))
      as [reached|] eqn:Er;
      [cbn [WorldModelTree.rbind] in H |- *|discriminate H].
    destruct reached; [|now apply IH].
    unfold WorldModelTree._calculate_splitting_gain.
    rewrite El. cbn [WorldModelTree.rbind].
    destruct (WorldModelTree.lift (WorldModelTree.transitions root))
      as [own|] eqn:Eo;
      [cbn [WorldModelTree.rbind] in H |- *|discriminate H].
    destruct (action_candidates root index (fst leaf) (map fst own)
                (snd leaf)) as [[cs knn']|] eqn:Ec;
      [cbn [WorldModelTree.rbind fst snd] in H|discriminate H].
    rewrite (gain_loop_strict_best _ _ _ _ _ WorldModelTree.NegInf None Ec).
    cbn [WorldModelTree.rbind fst snd].
    match type of H with
    | WorldModelTree.rbind ?m _ = _ =>
        destruct m as [[root2 rest]|] eqn:Et;
          [cbn [WorldModelTree.rbind fst snd] in H|discriminate H]
    end.
    injection H as <- <-.
    rewrite strict_best_app, <- strict_best_leaf.
    destruct (WorldModelTree.gain_gtb _ bg);
      rewrite (IH _ _ _ _ _ Et); reflexivity.
Qed.

End SelectionLoops.

(** ** The candidates of the parity leaf *)

Lemma count_mutual_information_single (c : Z) :
  (0 < c)%Z ->
  WorldModelTree.count_mutual_information [[c]] = WorldModelTree.Ok 0%R.
Proof.
  intros Hc. apply IZR_lt in Hc.
  unfold WorldModelTree.count_mutual_information,
    WorldModelTree._mutual_information.
  cbn [map WorldModelTree.Rmsum WorldModelTree.row_sums WorldModelTree.Rsum
       fold_right].
  rewrite Rltb_true by lra. cbn [assert bind].
  unfold WorldModelTree._entropy at 1.
  cbn [existsb length Nat.leb orb negb].
  rewrite Rltb_false.
  2:{ replace ((IZR c + 0) / (IZR c + 0 + 0))%R with 1%R by (field; lra).
      lra. }
  cbn [assert bind negb orb].
  unfold WorldModelTree._matrix_entropy, WorldModelTree._entropy.
  cbn [mapM map existsb length Nat.leb orb negb].
  rewrite Rltb_false by lra.
  cbn [assert bind negb orb mapM map combine WorldModelTree.row_sums
       WorldModelTree.Rsum fold_right fst snd WorldModelTree.lift].
  f_equal. field. lra.
Qed.

Lemma parity_init_test :
  WorldModelTree._init_test parity_spectral parity_knn_train parity_root
    (seq 0 53) None (Some 1%Z)
  = WorldModelTree.Ok (true, Some Nat.odd).
Proof.
  unfold WorldModelTree._init_test.
  assert (E1 : WorldModelTree.get_transition_refs_strict parity_root
                 (seq 0 53) (Some 1%Z) = WorldModelTree.Ok (seq 0 52))
    by (vm_compute; reflexivity).
  assert (E2 : WorldModelTree.get_transition_data_strict parity_root
                 (seq 0 53) (Some 1%Z)
               = WorldModelTree.Ok (seq 0 52, seq 1 52))
    by (vm_compute; reflexivity).
  rewrite E1, E2. cbn [WorldModelTree.rbind fst parity_spectral].
  assert (En : existsb (fun x => Rltb x 0%R)
                 (map (fun x => if Nat.even x then (-1)%R else 1%R)
                      (seq 0 52)) = true).
  { apply existsb_exists. exists (-1)%R. split; [|apply Rltb_true; lra].
    apply in_map_iff. exists 0. split; [reflexivity|].
    apply in_seq. lia. }
  assert (Ep : existsb (fun x => Rltb 0%R x)
                 (map (fun x => if Nat.even x then (-1)%R else 1%R)
                      (seq 0 52)) = true).
  { apply existsb_exists. exists 1%R. split; [|apply Rltb_true; lra].
    apply in_map_iff. exists 1. split; [reflexivity|].
    apply in_seq. lia. }
  rewrite En, Ep. cbn [negb]. unfold parity_knn_train.
  assert (Ey0 : existsb negb (map Nat.odd (seq 0 52)) = true)
    by (vm_compute; reflexivity).
  assert (Ey1 : existsb (fun b : bool => b) (map Nat.odd (seq 0 52)) = true)
    by (vm_compute; reflexivity).
  rewrite Ey0, Ey1. reflexivity.
Qed.

Lemma parity_candidate_gain :
  WorldModelTree.candidate_gain parity_spectral parity_knn_train parity_root
    0 (seq 0 53) None (Some 1%Z)
  = WorldModelTree.Ok
      (Some (WorldModelTree.log2 (INR 2) - 0)%R, Some Nat.odd).
Proof.
  unfold WorldModelTree.candidate_gain.
  rewrite parity_init_test. cbn [WorldModelTree.rbind fst snd].
  assert (Er : WorldModelTree._relabel_data parity_root 0 (seq 0 53)
                 (Some Nat.odd)
               = WorldModelTree.Ok
                   (Some (map (fun t => Z.b2z (Nat.odd t)) (seq 0 53),
                          (filter Nat.even (seq 0 53),
                           filter Nat.odd (seq 0 53)))))
    by (vm_compute; reflexivity).
  rewrite Er. cbn [WorldModelTree.rbind].
  assert (Es : WorldModelTree._split_transition_matrices parity_root
                 (map (fun t => Z.b2z (Nat.odd t)) (seq 0 53)) 0
               = WorldModelTree.Ok
                   [(Some 1%Z, [[0; 26]; [26; 0]]%Z);
                    (None, [[0; 0]; [0; 0]]%Z)])
    by (vm_compute; reflexivity).
  rewrite Es. cbn [WorldModelTree.rbind].
  match goal with
  | |- context [lookup ?a ?l] =>
      change (lookup a l) with (Some [[0; 26]; [26; 0]]%Z)
  end.
  cbn [WorldModelTree.lift WorldModelTree.rbind].
  assert (Em : WorldModelTree.count_mutual_information [[0; 26]; [26; 0]]%Z
               = WorldModelTree.Ok (WorldModelTree.log2 (INR 2))).
  { unfold WorldModelTree.count_mutual_information.
    change (map (map IZR) [[0; 26]; [26; 0]]%Z)
      with (deterministic_matrix 2 (fun i => 1 - i) 26%R).
    rewrite mutual_information_deterministic;
      [reflexivity|lia|lra|intros i Hi; lia]. }
  rewrite Em. cbn [WorldModelTree.rbind].
  cbn [parity_root parity_root_with WorldModelTree.transitions
       WorldModelTree.lift WorldModelTree.rbind].
  match goal with
  | |- context [lookup ?a ?l] =>
      change (lookup a l) with (Some [[52%Z]])
  end.
  cbn [WorldModelTree.lift WorldModelTree.rbind].
  rewrite count_mutual_information_single by lia.
  reflexivity.
Qed.

Lemma parity_round_candidates :
  WorldModelTree.round_candidates parity_spectral parity_knn_train
    parity_root
    (seq 0 (WorldModelTree.n_leaves (WorldModelTree.tree parity_root)))
  = WorldModelTree.Ok
      (parity_root_with (Some Nat.odd),
       [(0, Some 1%Z, (WorldModelTree.log2 (INR 2) - 0)%R)]).
Proof.
  change (seq 0 (WorldModelTree.n_leaves (WorldModelTree.tree parity_root)))
    with [0].
  cbn [WorldModelTree.round_candidates].
  change (WorldModelTree.lift
            (nth_error (WorldModelTree.get_leaves
                          (WorldModelTree.tree parity_root)) 0))
    with (WorldModelTree.Ok (A := list nat * option (WorldModelTree.Knn nat))
            (seq 0 53, None)).
  cbn [WorldModelTree.rbind fst snd].
  assert (Em : WorldModelTree._reached_min_sample_size parity_root (seq 0 53)
               = WorldModelTree.Ok true)
    by (vm_compute; reflexivity).
  rewrite Em.
  cbn [WorldModelTree.rbind parity_root parity_root_with
       WorldModelTree.transitions WorldModelTree.lift map fst].
  fold (parity_root_with None). fold parity_root.
  cbn [WorldModelTree.action_candidates].
  rewrite parity_candidate_gain.
  cbn [WorldModelTree.rbind fst snd]. reflexivity.
Qed.

(** ** First seen, last seen *)

Section SelectionOrder.
Variable Obs : Type.
Variable spectral_partition :
  list nat -> list Obs -> WorldModelTree.res (list R).
Variable knn_train : list Obs -> list bool -> WorldModelTree.Knn Obs.

Local Abbreviation leaf_loop :=
  (WorldModelTree.leaf_loop spectral_partition knn_train).
Local Abbreviation round_candidates :=
  (WorldModelTree.round_candidates spectral_partition knn_train).
Local Abbreviation single_splitting_step :=
  (WorldModelTree.single_splitting_step spectral_partition knn_train).

(** The candidates of a round carry actions proper. *)
Lemma round_candidates_known (indices : list nat) :
  forall (root root' : WorldModelTree.Root Obs) cands,
    round_candidates root indices = WorldModelTree.Ok (root', cands) ->
    Forall (fun c => snd (fst c) <> None) cands.
Proof.
  induction indices as [|index indices IH]; intros root root' cands H.
  - cbn in H. injection H as <- <-. constructor.
  - cbn [WorldModelTree.round_candidates] in H.
    destruct (WorldModelTree.lift
                (nth_error (WorldModelTree.get_leaves
                              (WorldModelTree.tree root)) index))
      as [leaf|] eqn:El;
      [cbn [WorldModelTree.rbind] in H|discriminate H].
    destruct (WorldModelTree._reached_min_sample_size root (fst leaf))
      as [reached|] eqn:Er;
      [cbn [WorldModelTree.rbind] in H|discriminate H].
    destruct reached; [|exact (IH _ _ _ H)].
    destruct (WorldModelTree.lift (WorldModelTree.transitions root))
      as [own|] eqn:Eo;
      [cbn [WorldModelTree.rbind] in H|discriminate H].
    match type of H with
    | WorldModelTree.rbind ?m _ = _ =>
        destruct m as [[cs knn']|] eqn:Ec;
          [cbn [WorldModelTree.rbind fst snd] in H|discriminate H]
    end.
    match type of H with
    | WorldModelTree.rbind ?m _ = _ =>
        destruct m as [[root2 rest]|] eqn:Et;
          [cbn [WorldModelTree.rbind fst snd] in H|discriminate H]
    end.
    injection H as <- <-.
    apply Forall_app. split.
    + apply Forall_map. cbn [fst snd].
      exact (action_candidates_known _ _ _ _ _ _ _ Ec).
    + exact (IH _ _ _ Et).
Qed.


End SelectionOrder.



(* ================================================================= *)
(** * Further properties of the code *)

(** ** split_params.py: the references of the two children *)

Section ChildReferences.
Variable e : SplitParams.Env.
Hypothesis Hc : SplitParams.consistent e.
Hypothesis Hb : SplitParams.binary_test e.

Lemma In_child (c : Z) (r : nat) :
  c = 0%Z \/ c = 1%Z ->
  In r (where_eq (Z.of_nat (SplitParams.leaf_index e) + c)
          (relabelled (SplitParams.leaf_index e) (SplitParams.t e)
             (SplitParams.labels e)))
  <-> In r (SplitParams.data_refs e) /\ SplitParams.t e r = c.
Proof.
  intros Hcc.
  pose proof (SplitParams.labels_range Hc) as Hrange.
  rewrite In_where_eq, length_relabelled.
  rewrite (@In_refs _ _ _ (SplitParams.data_refs_labels Hc)).
  split.
  - intros [Hlt Hn]. rewrite nth_relabelled in Hn by exact Hlt.
    pose proof (@nth_in_range _ _ _ Hrange Hlt) as Hl.
    unfold relabel in Hn. revert Hn.
    destruct (Hb r) as [Ht | Ht]; rewrite Ht; cmp_Z; intros Hn;
      repeat split; try assumption; lia.
  - intros [[Hlt Hl] Ht]. split; [exact Hlt|].
    rewrite nth_relabelled by exact Hlt.
    unfold relabel. rewrite Hl, Ht. cmp_Z; lia.
Qed.

(** On a candidate that satisfies the invariants of the data model and
    whose test is binary, [_update_dat_refs] succeeds exactly when the
    test sends references of the node to both children; the two lists
    it stores are then the references with the test value 0 and those
    with the test value 1, each without repetition.  When one side
    would be empty it fails (an assertion). *)
Theorem update_dat_refs_partition :
  (SplitParams.separates e ->
   exists d0 d1,
     SplitParams._update_dat_refs e None = Some (d0, d1)
     /\ (forall r, In r d0 <->
                   In r (SplitParams.data_refs e) /\ SplitParams.t e r = 0%Z)
     /\ (forall r, In r d1 <->
                   In r (SplitParams.data_refs e) /\ SplitParams.t e r = 1%Z)
     /\ NoDup d0 /\ NoDup d1)
  /\ (~ SplitParams.separates e ->
      SplitParams._update_dat_refs e None = None).
Proof.
  split.
  - intros Hs. eexists. eexists.
    split; [exact (@update_dat_refs_some e Hc Hb Hs)|].
    split; [|split; [|split]].
    + intros r.
      rewrite <- (Z.add_0_r (Z.of_nat (SplitParams.leaf_index e))) at 1.
      apply In_child. now left.
    + intros r. apply In_child. now right.
    + apply NoDup_filter, seq_NoDup.
    + apply NoDup_filter, seq_NoDup.
  - intros Hn. unfold SplitParams._update_dat_refs.
    rewrite (@get_new_labels_fresh e (@labels_nonneg_of_consistent e Hc) Hb).
    cbn [bind].
    destruct (assert _); [cbn [bind]|reflexivity].
    destruct (assert _); [cbn [bind]|reflexivity].
    match goal with
    | |- context [0 <? length ?d] =>
        destruct (0 <? length d) eqn:E0; [cbn [assert bind]|reflexivity]
    end.
    match goal with
    | |- context [0 <? length ?d] =>
        destruct (0 <? length d) eqn:E1; [cbn [assert bind]|reflexivity]
    end.
    exfalso. apply Hn. apply Nat.ltb_lt in E0, E1. split.
    + destruct (where_eq (Z.of_nat (SplitParams.leaf_index e)) _)
        as [|r d] eqn:Ed; [simpl in E0; lia|].
      exists r.
      apply (@In_child 0%Z r (or_introl eq_refl)).
      rewrite Z.add_0_r, Ed. now left.
    + destruct (where_eq (Z.of_nat (SplitParams.leaf_index e) + 1) _)
        as [|r d] eqn:Ed; [simpl in E1; lia|].
      exists r.
      apply (@In_child 1%Z r (or_intror eq_refl)).
      rewrite Ed. now left.
Qed.

End ChildReferences.

Lemma update_dat_refs_partition_witness :
  (SplitParams.separates sample_env ->
   exists d0 d1,
     SplitParams._update_dat_refs sample_env None = Some (d0, d1)
     /\ (forall r, In r d0 <->
                   In r (SplitParams.data_refs sample_env)
                   /\ SplitParams.t sample_env r = 0%Z)
     /\ (forall r, In r d1 <->
                   In r (SplitParams.data_refs sample_env)
                   /\ SplitParams.t sample_env r = 1%Z)
     /\ NoDup d0 /\ NoDup d1)
  /\ (~ SplitParams.separates sample_env ->
      SplitParams._update_dat_refs sample_env None = None).
Proof.
  exact (@update_dat_refs_partition sample_env sample_env_consistent
           sample_env_binary).
Defined.

(** ** worldmodel.py: merging two states *)

Lemma delete_at_cons (A : Type) (i : nat) (x : A) (l : list A) :
  WorldModelTree.delete_at (S i) (x :: l)
  = x :: WorldModelTree.delete_at i l.
Proof. reflexivity. Qed.

Lemma length_delete_at (A : Type) (i : nat) (l : list A) :
  i < length l -> length (WorldModelTree.delete_at i l) = length l - 1.
Proof.
  intros H. unfold WorldModelTree.delete_at.
  rewrite length_app, length_firstn, length_skipn. lia.
Qed.

Lemma nth_delete_at (A : Type) (i j : nat) (d : A) (l : list A) :
  nth j (WorldModelTree.delete_at i l) d
  = nth (if j <? i then j else S j) l d.
Proof.
  revert i j. induction l as [|x l IH]; intros i j.
  - unfold WorldModelTree.delete_at. rewrite firstn_nil, skipn_nil. simpl.
    destruct (j <? i), j; reflexivity.
  - destruct i as [|i].
    + reflexivity.
    + rewrite delete_at_cons. destruct j as [|j]; [reflexivity|].
      simpl nth. rewrite IH.
      change (S j <? S i) with (j <? i). now destruct (j <? i).
Qed.

Lemma delete_at_set_at (A : Type) (i : nat) (x : A) (l : list A) :
  WorldModelTree.delete_at i (set_at i x l) = WorldModelTree.delete_at i l.
Proof.
  revert i. induction l as [|y l IH]; intros [|i]; try reflexivity.
  simpl set_at. rewrite !delete_at_cons. now rewrite IH.
Qed.

Lemma map_delete_at (A B : Type) (f : A -> B) (i : nat) (l : list A) :
  map f (WorldModelTree.delete_at i l) = WorldModelTree.delete_at i (map f l).
Proof.
  unfold WorldModelTree.delete_at.
  now rewrite map_app, firstn_map, skipn_map.
Qed.

Lemma map_set_at (A B : Type) (f : A -> B) (i : nat) (x : A) (l : list A) :
  map f (set_at i x l) = set_at i (f x) (map f l).
Proof.
  revert i. induction l as [|y l IH]; intros [|i]; simpl; try reflexivity.
  now rewrite IH.
Qed.

Lemma vsum_delete_at (i : nat) (l : list Z) :
  i < length l ->
  vsum (WorldModelTree.delete_at i l) = (vsum l - nth i l 0)%Z.
Proof.
  revert i. induction l as [|x l IH]; intros i H; [simpl in H; lia|].
  destruct i as [|i].
  - unfold WorldModelTree.delete_at, vsum. simpl. lia.
  - rewrite delete_at_cons. unfold vsum in *. simpl.
    rewrite IH by (simpl in H; lia). lia.
Qed.

Lemma vsum_set_at (i : nat) (x : Z) (l : list Z) :
  i < length l ->
  vsum (set_at i x l) = (vsum l - nth i l 0 + x)%Z.
Proof.
  revert i. induction l as [|y l IH]; intros i H; [simpl in H; lia|].
  destruct i as [|i]; unfold vsum in *; simpl.
  - lia.
  - rewrite IH by (simpl in H; lia). lia.
Qed.

(** Adding entry [s2] to entry [s1] and deleting entry [s2] keeps the
    sum. *)
Lemma vsum_merge (s1 s2 : nat) (l : list Z) :
  s1 < length l -> s2 < length l -> s1 <> s2 ->
  vsum (WorldModelTree.delete_at s2
          (set_at s1 (nth s1 l 0 + nth s2 l 0)%Z l)) = vsum l.
Proof.
  intros H1 H2 Hne.
  rewrite vsum_delete_at by now rewrite length_set_at.
  rewrite nth_set_at_other by auto.
  rewrite vsum_set_at by exact H1. lia.
Qed.

Lemma Forall_delete_at (A : Type) (P : A -> Prop) (i : nat) (l : list A) :
  Forall P l -> Forall P (WorldModelTree.delete_at i l).
Proof.
  intros H. revert i. induction H as [|x l Hx Hl IH]; intros i.
  - unfold WorldModelTree.delete_at. rewrite firstn_nil, skipn_nil.
    constructor.
  - destruct i as [|i]; [exact Hl|].
    rewrite delete_at_cons. constructor; auto.
Qed.

Lemma length_add_rows (u v : list Z) :
  length u = length v -> length (add_rows u v) = length u.
Proof.
  intros H. unfold add_rows. rewrite length_map, length_combine. lia.
Qed.

Lemma merge_matrix_facts (M : Matrix) (K s1 s2 : nat) :
  shape M K K ->
  (s1 < K -> s2 < K ->
   exists M',
     WorldModelTree._merge_matrix M s1 s2 = Some M'
     /\ shape M' (K - 1) (K - 1)
     /\ (s1 <> s2 -> msum M' = msum M)
     /\ (s1 = s2 ->
         M' = map (WorldModelTree.delete_at s1)
                  (WorldModelTree.delete_at s1 M)))
  /\ (K <= s1 \/ K <= s2 -> WorldModelTree._merge_matrix M s1 s2 = None).
Proof.
  intros HM. pose proof HM as [Hr Hc]. split.
  - intros H1 H2.
    assert (Hcols : ncols M = K) by (apply (shape_ncols HM); lia).
    unfold WorldModelTree._merge_matrix, nrows. rewrite Hr, Hcols.
    assert (E : (s1 <? K) && (s2 <? K) = true)
      by (apply andb_true_intro; split; apply Nat.ltb_lt; assumption).
    rewrite E. cbn [assert bind].
    set (R := add_rows (nth s1 M []) (nth s2 M [])).
    assert (HR : length R = K).
    { unfold R. rewrite length_add_rows;
        rewrite !(shape_row HM) by assumption; reflexivity. }
    set (M1 := WorldModelTree.delete_at s2 (set_at s1 R M)).
    assert (HM1 : Forall (fun row => length row = K) M1).
    { apply Forall_delete_at, Forall_set_at; assumption. }
    eexists. split; [reflexivity|]. split; [|split].
    + split.
      * rewrite !length_map. unfold M1.
        rewrite length_delete_at by (rewrite length_set_at; lia).
        rewrite length_set_at. lia.
      * rewrite Forall_map, Forall_map.
        eapply Forall_impl; [|exact HM1]. cbn beta. intros row Hrow.
        rewrite length_delete_at by (rewrite length_set_at; lia).
        rewrite length_set_at. lia.
    + intros Hne. unfold msum. rewrite !map_map.
      rewrite (map_ext_in _ vsum).
      2:{ intros row Hrow. rewrite Forall_forall in HM1.
          apply vsum_merge; rewrite ?(HM1 row Hrow); assumption. }
      unfold M1. rewrite map_delete_at, map_set_at.
      unfold R. rewrite vsum_add_rows
        by (rewrite !(shape_row HM) by assumption; reflexivity).
      rewrite <- !(map_nth vsum).
      change (vsum []) with 0%Z.
      apply vsum_merge; rewrite ?length_map; lia.
    + intros <-. unfold M1. rewrite delete_at_set_at, map_map.
      apply map_ext. intros row. apply delete_at_set_at.
  - intros Hout. unfold WorldModelTree._merge_matrix, nrows. rewrite Hr.
    assert (E : (s1 <? K) && (s2 <? K) = false).
    { apply andb_false_iff. destruct Hout; [left|right];
        apply Nat.ltb_ge; assumption. }
    rewrite E. reflexivity.
Qed.

(** [_merge_matrix] on a K-by-K matrix: with two states of the matrix
    it returns a (K-1)-by-(K-1) matrix; the sum of the entries is kept
    when the states differ, and a state merged with itself is dropped
    with its row and its column.  An index past the matrix raises. *)
Theorem merge_matrix_sum (M : Matrix) (K s1 s2 : nat) :
  shape M K K ->
  (s1 < K -> s2 < K ->
   exists M',
     WorldModelTree._merge_matrix M s1 s2 = Some M'
     /\ shape M' (K - 1) (K - 1)
     /\ (s1 <> s2 -> msum M' = msum M)
     /\ (s1 = s2 ->
         M' = map (WorldModelTree.delete_at s1)
                  (WorldModelTree.delete_at s1 M)))
  /\ (K <= s1 \/ K <= s2 -> WorldModelTree._merge_matrix M s1 s2 = None).
Proof. apply merge_matrix_facts. Qed.

Lemma merge_matrix_sum_witness :
  (0 < 2 -> 1 < 2 ->
   exists M',
     WorldModelTree._merge_matrix [[1; 2]; [3; 4]]%Z 0 1 = Some M'
     /\ shape M' (2 - 1) (2 - 1)
     /\ (0 <> 1 -> msum M' = msum [[1; 2]; [3; 4]]%Z)
     /\ (0 = 1 ->
         M' = map (WorldModelTree.delete_at 0)
                  (WorldModelTree.delete_at 0 [[1; 2]; [3; 4]]%Z)))
  /\ (2 <= 0 \/ 2 <= 1 ->
      WorldModelTree._merge_matrix [[1; 2]; [3; 4]]%Z 0 1 = None).
Proof.
  apply (@merge_matrix_sum [[1; 2]; [3; 4]]%Z 2 0 1).
  split; [reflexivity|]. repeat constructor.
Defined.

Lemma nth_add_rows (u v : list Z) (t : nat) :
  length u = length v ->
  nth t (add_rows u v) 0%Z = (nth t u 0 + nth t v 0)%Z.
Proof.
  unfold add_rows. revert v t.
  induction u as [|x u IH]; intros [|y v] t H; try discriminate H.
  - now destruct t.
  - destruct t as [|t]; [reflexivity|].
    simpl. apply IH. now injection H.
Qed.

(** The cells of a merged matrix, for [s1 < s2]: row (column) [s1] is
    the sum of the rows (columns) [s1] and [s2], the rows and columns
    past [s2] move down by one. *)
Lemma cell_merge_matrix (M : Matrix) (K s1 s2 : nat) (M' : Matrix)
    (u v : nat) :
  shape M K K -> s1 < s2 -> s2 < K ->
  WorldModelTree._merge_matrix M s1 s2 = Some M' ->
  u < K - 1 -> v < K - 1 ->
  cell M' u v
  = if v =? s1
    then Z.add
           (if u =? s1
            then (cell M s1 s1 + cell M s2 s1)%Z
            else cell M (if u <? s2 then u else S u) s1)
           (if u =? s1
            then (cell M s1 s2 + cell M s2 s2)%Z
            else cell M (if u <? s2 then u else S u) s2)
    else if u =? s1
         then Z.add (cell M s1 (if v <? s2 then v else S v))
                    (cell M s2 (if v <? s2 then v else S v))
         else cell M (if u <? s2 then u else S u)
                     (if v <? s2 then v else S v).
Proof.
  intros HM H12 H2 E Hu Hv. pose proof HM as [Hr Hc].
  assert (Hcols : ncols M = K) by (apply (shape_ncols HM); lia).
  unfold WorldModelTree._merge_matrix, nrows in E. rewrite Hr, Hcols in E.
  replace ((s1 <? K) && (s2 <? K)) with true in E
    by (symmetry; apply andb_true_intro; split; apply Nat.ltb_lt; lia).
  cbn [assert bind] in E. injection E as <-.
  set (R := add_rows (nth s1 M []) (nth s2 M [])).
  assert (HR : length R = K).
  { unfold R. rewrite length_add_rows;
      rewrite !(shape_row HM) by lia; reflexivity. }
  assert (HnR : forall t, nth t R 0%Z = (cell M s1 t + cell M s2 t)%Z).
  { intros t. unfold R, cell. apply nth_add_rows.
    rewrite !(shape_row HM) by lia. reflexivity. }
  set (M1 := WorldModelTree.delete_at s2 (set_at s1 R M)).
  assert (HlM1 : length M1 = K - 1).
  { unfold M1. rewrite length_delete_at by (rewrite length_set_at; lia).
    rewrite length_set_at. lia. }
  assert (Hrow : forall x, x < K - 1 ->
            length (nth x M1 []) = K
            /\ forall t, nth t (nth x M1 []) 0%Z
                         = if x =? s1
                           then (cell M s1 t + cell M s2 t)%Z
                           else cell M (if x <? s2 then x else S x) t).
  { intros x Hx. unfold M1. rewrite nth_delete_at.
    destruct (Nat.eqb_spec x s1) as [->|Hne].
    - replace (s1 <? s2) with true by (symmetry; apply Nat.ltb_lt; lia).
      rewrite nth_set_at_same by lia. split; [exact HR|exact HnR].
    - rewrite nth_set_at_other by (destruct (x <? s2) eqn:Ex;
        [exact Hne|apply Nat.ltb_ge in Ex; lia]).
      split; [|reflexivity].
      apply (shape_row HM). destruct (x <? s2); lia. }
  unfold cell at 1. rewrite map_map.
  rewrite (@nth_map_lt _ _ _ M1 u [] []) by lia.
  destruct (Hrow u Hu) as [Hlen Hnth].
  rewrite nth_delete_at.
  destruct (Nat.eqb_spec v s1) as [->|Hne].
  - replace (s1 <? s2) with true by (symmetry; apply Nat.ltb_lt; lia).
    rewrite nth_set_at_same by lia. rewrite !Hnth.
    destruct (u =? s1); reflexivity.
  - rewrite nth_set_at_other by (destruct (v <? s2) eqn:Ev;
      [exact Hne|apply Nat.ltb_ge in Ev; lia]).
    rewrite Hnth. reflexivity.
Qed.

(** Which labels become the state [u] when [s2] is merged into [s1]. *)
Lemma merged_label_eqb (s1 s2 u : nat) (l : Z) :
  s1 < s2 ->
  (WorldModelTree.merged_label s1 s2 l =? Z.of_nat u)%Z
  = if u =? s1
    then (l =? Z.of_nat s1)%Z || (l =? Z.of_nat s2)%Z
    else (l =? Z.of_nat (if (u <? s2)%nat then u else S u))%Z.
Proof.
  intros H. unfold WorldModelTree.merged_label.
  destruct (Nat.eqb_spec u s1) as [->|Hne];
    destruct (Z.eqb_spec l (Z.of_nat s2)) as [->|Hl2].
  - rewrite orb_true_r. cmp_Z; lia.
  - rewrite orb_false_r. cmp_Z; lia.
  - cmp_nat; cmp_Z; lia.
  - cmp_nat; cmp_Z; lia.
Qed.

Lemma is_transition_merged (s1 s2 u v : nat) (labels : list Z)
    (actions : list action) (a : action) (i : nat) :
  s1 < s2 -> S i < length labels ->
  is_transition (map (WorldModelTree.merged_label s1 s2) labels) actions a
    u v i
  = (if u =? s1
     then (nth i labels 0 =? Z.of_nat s1)%Z || (nth i labels 0 =? Z.of_nat s2)%Z
     else (nth i labels 0 =? Z.of_nat (if (u <? s2)%nat then u else S u))%Z)
    && (if v =? s1
        then (nth (S i) labels 0 =? Z.of_nat s1)%Z
             || (nth (S i) labels 0 =? Z.of_nat s2)%Z
        else (nth (S i) labels 0
              =? Z.of_nat (if (v <? s2)%nat then v else S v))%Z)
    && action_eqb (nth i actions None) a.
Proof.
  intros H Hi. unfold is_transition.
  rewrite (@nth_map_lt _ _ _ labels i 0%Z 0%Z) by lia.
  rewrite (@nth_map_lt _ _ _ labels (S i) 0%Z 0%Z) by lia.
  now rewrite !merged_label_eqb.
Qed.

Lemma count_or (A : Type) (p q r : A -> bool) (l : list A) :
  (forall x, In x l -> r x = p x || q x) ->
  (forall x, In x l -> p x = true -> q x = false) ->
  Z.of_nat (length (filter r l))
  = (Z.of_nat (length (filter p l)) + Z.of_nat (length (filter q l)))%Z.
Proof.
  intros H1 H2. rewrite <- (length_filter_split p q r l H1 H2). lia.
Qed.

(** The counts of the merged labelling are the sums of the counts of
    the states that are merged. *)
Lemma transition_count_merged (s1 s2 u v : nat) (labels : list Z)
    (actions : list action) (a : action) :
  s1 < s2 ->
  transition_count (map (WorldModelTree.merged_label s1 s2) labels)
    actions a u v
  = if v =? s1
    then Z.add
           (if u =? s1
            then (transition_count labels actions a s1 s1
                  + transition_count labels actions a s2 s1)%Z
            else transition_count labels actions a
                   (if u <? s2 then u else S u) s1)
           (if u =? s1
            then (transition_count labels actions a s1 s2
                  + transition_count labels actions a s2 s2)%Z
            else transition_count labels actions a
                   (if u <? s2 then u else S u) s2)
    else if u =? s1
         then Z.add (transition_count labels actions a s1
                       (if v <? s2 then v else S v))
                    (transition_count labels actions a s2
                       (if v <? s2 then v else S v))
         else transition_count labels actions a
                (if u <? s2 then u else S u)
                (if v <? s2 then v else S v).
Proof.
  intros H. unfold transition_count. rewrite length_map.
  set (idx := seq 0 (length labels - 1)).
  assert (Hidx : forall i, In i idx -> S i < length labels)
    by (intros i Hi; apply in_seq in Hi; lia).
  rewrite (filter_ext_in _ _ _
             (fun i Hi => @is_transition_merged s1 s2 u v labels actions a i
                            H (Hidx i Hi))).
  assert (Hz : forall x y : nat, x <> y ->
            forall l : Z, (l =? Z.of_nat x)%Z = true ->
                          (l =? Z.of_nat y)%Z = false).
  { intros x y Hxy l Hl. apply Z.eqb_eq in Hl. apply Z.eqb_neq. lia. }
  assert (H12 : s1 <> s2) by lia.
  destruct (v =? s1), (u =? s1).
  - rewrite <- !count_or with
      (r := fun i => ((nth i labels 0 =? Z.of_nat s1)%Z
                      || (nth i labels 0 =? Z.of_nat s2)%Z)
                     && (nth (S i) labels 0 =? Z.of_nat s1)%Z
                     && action_eqb (nth i actions None) a)
      (p := is_transition labels actions a s1 s1)
      (q := is_transition labels actions a s2 s1).
    + rewrite <- !count_or with
        (r := fun i => ((nth i labels 0 =? Z.of_nat s1)%Z
                        || (nth i labels 0 =? Z.of_nat s2)%Z)
                       && (nth (S i) labels 0 =? Z.of_nat s2)%Z
                       && action_eqb (nth i actions None) a)
        (p := is_transition labels actions a s1 s2)
        (q := is_transition labels actions a s2 s2).
      * apply count_or.
        -- intros i _.
           destruct ((nth i labels 0 =? Z.of_nat s1)%Z
                     || (nth i labels 0 =? Z.of_nat s2)%Z),
             (nth (S i) labels 0 =? Z.of_nat s1)%Z,
             (nth (S i) labels 0 =? Z.of_nat s2)%Z,
             (action_eqb (nth i actions None) a); reflexivity.
        -- intros i _ Hp.
           apply andb_prop in Hp as [Hp _]. apply andb_prop in Hp as [_ Hp].
           rewrite (Hz _ _ H12 _ Hp). now rewrite !andb_false_r.
      * intros i _. unfold is_transition.
        destruct (nth i labels 0 =? Z.of_nat s1)%Z,
          (nth i labels 0 =? Z.of_nat s2)%Z,
          (nth (S i) labels 0 =? Z.of_nat s2)%Z,
          (action_eqb (nth i actions None) a); reflexivity.
      * intros i _ Hp. unfold is_transition in *.
        apply andb_prop in Hp as [Hp _]. apply andb_prop in Hp as [Hp _].
        now rewrite (Hz _ _ H12 _ Hp).
    + intros i _. unfold is_transition.
      destruct (nth i labels 0 =? Z.of_nat s1)%Z,
        (nth i labels 0 =? Z.of_nat s2)%Z,
        (nth (S i) labels 0 =? Z.of_nat s1)%Z,
        (action_eqb (nth i actions None) a); reflexivity.
    + intros i _ Hp. unfold is_transition in *.
      apply andb_prop in Hp as [Hp _]. apply andb_prop in Hp as [Hp _].
      now rewrite (Hz _ _ H12 _ Hp).
  - rewrite <- count_or with
      (r := fun i => (nth i labels 0
                      =? Z.of_nat (if (u <? s2)%nat then u else S u))%Z
                     && ((nth (S i) labels 0 =? Z.of_nat s1)%Z
                         || (nth (S i) labels 0 =? Z.of_nat s2)%Z)
                     && action_eqb (nth i actions None) a);
      [reflexivity| |].
    + intros i _. unfold is_transition.
      destruct (nth i labels 0 =? Z.of_nat (if (u <? s2)%nat then u else S u))%Z,
        (nth (S i) labels 0 =? Z.of_nat s1)%Z,
        (nth (S i) labels 0 =? Z.of_nat s2)%Z,
        (action_eqb (nth i actions None) a); reflexivity.
    + intros i _ Hp. unfold is_transition in *.
      apply andb_prop in Hp as [Hp _]. apply andb_prop in Hp as [_ Hp].
      rewrite (Hz _ _ H12 _ Hp). now rewrite !andb_false_r.
  - rewrite <- count_or with
      (r := fun i => ((nth i labels 0 =? Z.of_nat s1)%Z
                      || (nth i labels 0 =? Z.of_nat s2)%Z)
                     && (nth (S i) labels 0
                         =? Z.of_nat (if (v <? s2)%nat then v else S v))%Z
                     && action_eqb (nth i actions None) a);
      [reflexivity| |].
    + intros i _. unfold is_transition.
      destruct (nth i labels 0 =? Z.of_nat s1)%Z,
        (nth i labels 0 =? Z.of_nat s2)%Z,
        (nth (S i) labels 0 =? Z.of_nat (if (v <? s2)%nat then v else S v))%Z,
        (action_eqb (nth i actions None) a); reflexivity.
    + intros i _ Hp. unfold is_transition in *.
      apply andb_prop in Hp as [Hp _]. apply andb_prop in Hp as [Hp _].
      now rewrite (Hz _ _ H12 _ Hp).
  - reflexivity.
Qed.

Lemma merge_recount (K s1 s2 : nat) (labels : list Z)
    (actions : list action) (a : action) :
  s1 < s2 -> s2 < K ->
  WorldModelTree._merge_matrix (recount K labels actions a) s1 s2
  = Some (recount (K - 1) (map (WorldModelTree.merged_label s1 s2) labels)
            actions a).
Proof.
  intros H12 H2.
  pose proof (shape_recount K labels actions a) as HM.
  destruct (@merge_matrix_facts _ K s1 s2 HM) as [Hsome _].
  destruct Hsome as (M' & E & HM' & _); [lia|lia|].
  rewrite E. f_equal.
  apply (@matrix_ext _ _ (K - 1) (K - 1) HM' (shape_recount _ _ _ _)).
  intros u v Hu Hv.
  rewrite (@cell_merge_matrix _ K s1 s2 M' u v HM H12 H2 E Hu Hv).
  rewrite (cell_recount _ _ _ Hu Hv).
  rewrite (transition_count_merged u v labels actions a H12).
  assert (Hup : forall x, x < K - 1 -> (if x <? s2 then x else S x) < K)
    by (intros x Hx; destruct (x <? s2); lia).
  rewrite !cell_recount by (try apply Hup; lia).
  reflexivity.
Qed.

(** [_merge_matrix] on the transition counts of a labelling, for two
    states [s1 < s2]: the result is the matrix of counts of the
    labelling in which [s2] is renamed [s1] and the labels above [s2]
    move down by one, as [_merge_nodes] rewrites the labels. *)
Theorem merge_matrix_recount (K s1 s2 : nat) (labels : list Z)
    (actions : list action) (a : action) :
  s1 < s2 -> s2 < K ->
  WorldModelTree._merge_matrix (recount K labels actions a) s1 s2
  = Some (recount (K - 1) (map (WorldModelTree.merged_label s1 s2) labels)
            actions a).
Proof. apply merge_recount. Qed.

Lemma merge_matrix_recount_witness :
  WorldModelTree._merge_matrix (recount 2 sample_labels sample_actions
                                  (Some 0%Z)) 0 1
  = Some (recount (2 - 1) (map (WorldModelTree.merged_label 0 1) sample_labels)
            sample_actions (Some 0%Z)).
Proof.
  apply (@merge_matrix_recount 2 0 1 sample_labels sample_actions
           (Some 0%Z)); lia.
Defined.

Lemma merged_relabelled (i : nat) (t : nat -> Z) (labels : list Z) :
  (forall r, t r = 0%Z \/ t r = 1%Z) ->
  map (WorldModelTree.merged_label i (S i)) (relabelled i t labels) = labels.
Proof.
  intros Hb. unfold relabelled. rewrite map_map.
  apply nth_ext with (d := 0%Z) (d' := 0%Z).
  - now rewrite length_map, length_seq.
  - intros n Hn. rewrite length_map, length_seq in Hn.
    rewrite (@nth_map_lt _ _ _ (seq 0 (length labels)) n 0%Z 0)
      by now rewrite length_seq.
    rewrite seq_nth by exact Hn. cbn [Nat.add].
    unfold WorldModelTree.merged_label, relabel.
    rewrite (Z.gtb_ltb (nth n labels 0%Z)).
    destruct (Z.ltb_spec (Z.of_nat i) (nth n labels 0%Z));
      [|destruct (Z.eqb_spec (nth n labels 0%Z) (Z.of_nat i))];
      destruct (Hb n) as [Ht | Ht]; rewrite ?Ht; cmp_Z; lia.
Qed.

(** Merging undoes splitting: the counts of the labels after a split of
    state [i] by a binary test, merged at the states [i] and [i + 1] of
    the two children, are the counts of the labels before the split. *)
Theorem split_then_merge_matrix (K i : nat) (t : nat -> Z)
    (labels : list Z) (actions : list action) (a : action) :
  i < K ->
  (forall r, t r = 0%Z \/ t r = 1%Z) ->
  WorldModelTree._merge_matrix
    (recount (S K) (relabelled i t labels) actions a) i (S i)
  = Some (recount K labels actions a).
Proof.
  intros Hi Hb.
  rewrite merge_recount by lia.
  rewrite (@merged_relabelled i t labels Hb).
  now replace (S K - 1) with K by lia.
Qed.

Lemma split_then_merge_matrix_witness :
  WorldModelTree._merge_matrix
    (recount (S 2)
       (relabelled 0 (fun r => if Nat.even r then 0%Z else 1%Z)
          sample_labels)
       sample_actions (Some 0%Z)) 0 (S 0)
  = Some (recount 2 sample_labels sample_actions (Some 0%Z)).
Proof.
  apply (@split_then_merge_matrix 2 0
           (fun r => if Nat.even r then 0%Z else 1%Z)
           sample_labels sample_actions (Some 0%Z)).
  - lia.
  - intros r. destruct (Nat.even r); auto.
Defined.

(** ** worldmodel_methods.py: the cells of WorldmodelTrivial *)

Lemma argmax_from_spec (v : list R) :
  forall (l pre : list R) (best : nat) (bv : R) (i : nat),
    l = pre ++ v -> length pre = i -> best < i ->
    nth best l 0%R = bv ->
    (forall j, j < i -> (nth j l 0 <= bv)%R) ->
    (forall j, j < best -> (nth j l 0 < bv)%R) ->
    let k := WorldmodelTrivial.argmax_from best bv i v in
    k < length l
    /\ (forall j, j < length l -> (nth j l 0 <= nth k l 0)%R)
    /\ (forall j, j < k -> (nth j l 0 < nth k l 0)%R).
Proof.
  induction v as [|x v IH]; intros l pre best bv i El Hi Hb Hbv Hle Hlt.
  - simpl. rewrite app_nil_r in El. subst l. rewrite Hbv.
    split; [lia|]. split; [|exact Hlt].
    intros j Hj. apply Hle. lia.
  - assert (Hx : nth i l 0%R = x).
    { subst l. rewrite app_nth2 by lia.
      replace (i - length pre) with 0 by lia. reflexivity. }
    cbn [WorldmodelTrivial.argmax_from]. unfold Rltb.
    destruct (Rlt_dec bv x) as [Hgt|Hng].
    + apply (IH l (pre ++ [x]) i x (S i)).
      * subst l. now rewrite <- app_assoc.
      * rewrite length_app. simpl. lia.
      * lia.
      * exact Hx.
      * intros j Hj. destruct (Nat.eq_dec j i) as [->|Hne].
        -- rewrite Hx. lra.
        -- assert (nth j l 0 <= bv)%R by (apply Hle; lia). lra.
      * intros j Hj. assert (nth j l 0 <= bv)%R by (apply Hle; lia). lra.
    + apply (IH l (pre ++ [x]) best bv (S i)).
      * subst l. now rewrite <- app_assoc.
      * rewrite length_app. simpl. lia.
      * lia.
      * exact Hbv.
      * intros j Hj. destruct (Nat.eq_dec j i) as [->|Hne].
        -- rewrite Hx. lra.
        -- apply Hle. lia.
      * exact Hlt.
Qed.

Lemma argmax_spec (v : list R) :
  v <> [] ->
  exists k,
    WorldmodelTrivial.argmax v = Some k
    /\ k < length v
    /\ (forall j, j < length v -> (nth j v 0 <= nth k v 0)%R)
    /\ (forall j, j < k -> (nth j v 0 < nth k v 0)%R).
Proof.
  destruct v as [|x v]; [congruence|]. intros _.
  eexists. split; [reflexivity|].
  apply (@argmax_from_spec v (x :: v) [x] 0 x 1); try reflexivity; try lia.
  - intros j Hj. replace j with 0 by lia. simpl. lra.
Qed.

Lemma sub_arrays_same (a b : list R) :
  length a = length b ->
  exists d,
    WorldmodelTrivial.sub_arrays a b = Some d
    /\ length d = length a
    /\ forall j, j < length a -> nth j d 0%R = (nth j a 0 - nth j b 0)%R.
Proof.
  intros H. unfold WorldmodelTrivial.sub_arrays.
  rewrite H, Nat.eqb_refl. eexists. split; [reflexivity|]. split.
  - rewrite length_map, length_combine. lia.
  - intros j Hj.
    rewrite (@nth_map_lt _ _ _ (combine a b) j 0%R (0%R, 0%R))
      by (rewrite length_combine; lia).
    rewrite combine_nth by exact H. reflexivity.
Qed.

Lemma nth_error_some (A : Type) (l : list A) (k : nat) (d : A) :
  k < length l -> nth_error l k = Some (nth k l d).
Proof.
  revert k. induction l as [|x l IH]; intros [|k] H; simpl in *;
    try lia; auto.
  apply IH. lia.
Qed.

(** The part of [_calc_test_params] that follows the borders. *)
Lemma calc_test_params_own (D D' : nat) (b : WorldmodelTrivial.Borders)
    (parent : option WorldmodelTrivial.Parent) :
  0 < D -> WorldmodelTrivial.proper D b ->
  exists p,
    WorldmodelTrivial._calc_test_params D' (Some b) parent = Some (p, b)
    /\ WorldmodelTrivial.halves p b
    /\ (nth (WorldmodelTrivial.dim p) (WorldmodelTrivial._minima b) 0
        < WorldmodelTrivial.cut p)%R
    /\ (WorldmodelTrivial.cut p
        < nth (WorldmodelTrivial.dim p) (WorldmodelTrivial._maxima b) 0)%R.
Proof.
  intros HD (Hmn & Hmx & Hb).
  destruct (@sub_arrays_same (WorldmodelTrivial._maxima b)
              (WorldmodelTrivial._minima b)) as (d & Ed & Hd & Hnd);
    [lia|].
  assert (Hne : d <> []) by (destruct d; [simpl in Hd; lia|discriminate]).
  destruct (argmax_spec Hne) as (k & Ek & Hk & Hmax & Hfirst).
  rewrite Hd, Hmx in Hk, Hmax.
  unfold WorldmodelTrivial._calc_test_params. cbn [bind].
  rewrite Ed. cbn [bind]. rewrite Ek. cbn [bind].
  rewrite (@nth_error_some _ (WorldmodelTrivial._minima b) k 0%R) by lia.
  cbn [bind].
  rewrite (@nth_error_some _ (WorldmodelTrivial._maxima b) k 0%R) by lia.
  cbn [bind]. eexists. split; [reflexivity|].
  unfold WorldmodelTrivial.halves.
  cbn [WorldmodelTrivial.dim WorldmodelTrivial.cut].
  destruct (Hb k Hk) as (H0 & Hlt & H1).
  split; [|split; lra].
  split; [lia|]. split; [reflexivity|]. split.
  - intros j Hj. rewrite Hmn in Hj.
    rewrite <- !Hnd by lia. now apply Hmax.
  - intros j Hj. rewrite <- !Hnd by lia. now apply Hfirst.
Qed.

Lemma proper_child (D : nat) (p : WorldmodelTrivial.TestParams)
    (b : WorldmodelTrivial.Borders) (second : bool) :
  WorldmodelTrivial.proper D b ->
  WorldmodelTrivial.dim p < D ->
  (nth (WorldmodelTrivial.dim p) (WorldmodelTrivial._minima b) 0
   < WorldmodelTrivial.cut p)%R ->
  (WorldmodelTrivial.cut p
   < nth (WorldmodelTrivial.dim p) (WorldmodelTrivial._maxima b) 0)%R ->
  WorldmodelTrivial.proper D (WorldmodelTrivial.child_borders p b second).
Proof.
  intros (Hmn & Hmx & Hb) Hd Hlo Hhi.
  destruct (Hb _ Hd) as (H0 & _ & H1).
  unfold WorldmodelTrivial.child_borders, WorldmodelTrivial.proper.
  destruct second; cbn [WorldmodelTrivial._minima WorldmodelTrivial._maxima];
    rewrite ?length_set_at.
  - split; [exact Hmn|]. split; [exact Hmx|].
    intros j Hj. destruct (Hb j Hj) as (Hj0 & Hjlt & Hj1).
    destruct (Nat.eq_dec j (WorldmodelTrivial.dim p)) as [->|Hne].
    + rewrite nth_set_at_same by lia. repeat split; lra.
    + rewrite nth_set_at_other by exact Hne. repeat split; lra.
  - split; [exact Hmn|]. split; [exact Hmx|].
    intros j Hj. destruct (Hb j Hj) as (Hj0 & Hjlt & Hj1).
    destruct (Nat.eq_dec j (WorldmodelTrivial.dim p)) as [->|Hne].
    + rewrite nth_set_at_same by lia. repeat split; lra.
    + rewrite nth_set_at_other by exact Hne. repeat split; lra.
Qed.

(** [_calc_test_params] of a child that has no borders yet. *)
Lemma calc_test_params_child (D : nat) (p : WorldmodelTrivial.TestParams)
    (b : WorldmodelTrivial.Borders) (second : bool) :
  WorldmodelTrivial.dim p < length (WorldmodelTrivial._minima b) ->
  length (WorldmodelTrivial._maxima b) = length (WorldmodelTrivial._minima b) ->
  WorldmodelTrivial._calc_test_params D None
    (Some {| WorldmodelTrivial.parent_borders := Some b;
             WorldmodelTrivial.parent_test_params := p;
             WorldmodelTrivial.is_first_child := negb second |})
  = WorldmodelTrivial._calc_test_params D
      (Some (WorldmodelTrivial.child_borders p b second)) None.
Proof.
  intros Hd Hlen. unfold WorldmodelTrivial._calc_test_params.
  cbn [WorldmodelTrivial.parent_borders WorldmodelTrivial.parent_test_params
       WorldmodelTrivial.is_first_child bind].
  unfold WorldmodelTrivial.set_item, WorldmodelTrivial.child_borders.
  destruct second; cbn [negb].
  - replace (WorldmodelTrivial.dim p <? length (WorldmodelTrivial._minima b))
      with true by (symmetry; apply Nat.ltb_lt; lia).
    reflexivity.
  - replace (WorldmodelTrivial.dim p <? length (WorldmodelTrivial._maxima b))
      with true by (symmetry; apply Nat.ltb_lt; lia).
    reflexivity.
Qed.

Lemma halves_inside (D : nat) (p : WorldmodelTrivial.TestParams)
    (b : WorldmodelTrivial.Borders) :
  WorldmodelTrivial.proper D b -> WorldmodelTrivial.halves p b ->
  WorldmodelTrivial.dim p < D
  /\ (nth (WorldmodelTrivial.dim p) (WorldmodelTrivial._minima b) 0
      < WorldmodelTrivial.cut p)%R
  /\ (WorldmodelTrivial.cut p
      < nth (WorldmodelTrivial.dim p) (WorldmodelTrivial._maxima b) 0)%R.
Proof.
  intros (Hmn & Hmx & Hb) (Hd & Hcut & _).
  rewrite Hmn in Hd. destruct (Hb _ Hd) as (_ & Hlt & _).
  split; [exact Hd|]. rewrite Hcut. split; lra.
Qed.

Lemma proper_unit_cube (D : nat) :
  WorldmodelTrivial.proper D
    {| WorldmodelTrivial._minima := repeat 0%R D;
       WorldmodelTrivial._maxima := repeat 1%R D |}.
Proof.
  unfold WorldmodelTrivial.proper.
  cbn [WorldmodelTrivial._minima WorldmodelTrivial._maxima].
  rewrite !repeat_length. split; [reflexivity|]. split; [reflexivity|].
  intros j Hj.
  rewrite !nth_repeat_lt by exact Hj. repeat split; lra.
Qed.

Lemma descend_cells (D : nat) (path : list bool) :
  0 < D ->
  forall node,
    WorldmodelTrivial.proper D (snd node) ->
    WorldmodelTrivial.halves (fst node) (snd node) ->
    exists p b,
      WorldmodelTrivial.descend D path node = Some (p, b)
      /\ WorldmodelTrivial.proper D b
      /\ WorldmodelTrivial.halves p b.
Proof.
  intros HD. induction path as [|second path IH]; intros [p b] Hp Hh.
  - exists p, b. auto.
  - cbn [fst snd] in Hp, Hh.
    destruct (halves_inside Hp Hh) as (Hd & Hlo & Hhi).
    pose proof Hp as (Hmn & Hmx & _).
    cbn [WorldmodelTrivial.descend fst snd].
    rewrite calc_test_params_child by lia.
    pose proof (@proper_child D p b second Hp Hd Hlo Hhi) as Hc.
    destruct (@calc_test_params_own D D _ None HD Hc)
      as (p' & E & Hh' & _).
    rewrite E. cbn [bind]. apply IH; assumption.
Qed.



(** The first cut of a model with [D >= 1] input dimensions is at 1/2
    in dimension 0; with no input dimension [_calc_test_params]
    raises ([np.argmax] of an empty array). *)
Theorem trivial_top_node (D : nat) :
  (D = 0 -> WorldmodelTrivial._calc_test_params D None None = None)
  /\ (0 < D ->
      WorldmodelTrivial._calc_test_params D None None
      = Some ({| WorldmodelTrivial.dim := 0;
                 WorldmodelTrivial.cut := (0 + (1 - 0) / 2)%R |},
              {| WorldmodelTrivial._minima := repeat 0%R D;
                 WorldmodelTrivial._maxima := repeat 1%R D |})).
Proof.
  split.
  - intros ->. reflexivity.
  - intros HD.
    destruct (@calc_test_params_own D D _ None HD (proper_unit_cube D))
      as ([d c] & E & (Hd & Hcut & _ & Hfirst) & _).
    change (WorldmodelTrivial._calc_test_params D None None)
      with (WorldmodelTrivial._calc_test_params D
              (Some {| WorldmodelTrivial._minima := repeat 0%R D;
                       WorldmodelTrivial._maxima := repeat 1%R D |}) None).
    rewrite E.
    cbn [WorldmodelTrivial.dim WorldmodelTrivial.cut
         WorldmodelTrivial._minima WorldmodelTrivial._maxima] in *.
    rewrite repeat_length in Hd.
    assert (d = 0).
    { destruct d as [|d]; [reflexivity|].
      specialize (Hfirst 0 (Nat.lt_0_succ d)).
      rewrite !nth_repeat_lt in Hfirst by lia. lra. }
    subst d. rewrite !nth_repeat_lt in Hcut by lia. now rewrite Hcut.
Qed.

Lemma trivial_top_node_witness :
  (3 = 0 -> WorldmodelTrivial._calc_test_params 3 None None = None)
  /\ (0 < 3 ->
      WorldmodelTrivial._calc_test_params 3 None None
      = Some ({| WorldmodelTrivial.dim := 0;
                 WorldmodelTrivial.cut := (0 + (1 - 0) / 2)%R |},
              {| WorldmodelTrivial._minima := repeat 0%R 3;
                 WorldmodelTrivial._maxima := repeat 1%R 3 |})).
Proof. exact (trivial_top_node 3). Defined.

(** An observation in the cell of a node that is split goes, by
    [_test], to the child whose cell contains it: the cells of the two
    children are the two halves of the cell, each with sides of
    positive length, and an observation that is sent to the second
    child is not in the cell of the first. *)
Theorem trivial_test_cell (D : nat) (p : WorldmodelTrivial.TestParams)
    (b : WorldmodelTrivial.Borders) (x : list R) :
  WorldmodelTrivial.proper D b ->
  WorldmodelTrivial.halves p b ->
  WorldmodelTrivial.inside b x ->
  exists s,
    WorldmodelTrivial._test x p = Some s
    /\ WorldmodelTrivial.inside (WorldmodelTrivial.child_borders p b s) x
    /\ WorldmodelTrivial.proper D (WorldmodelTrivial.child_borders p b s)
    /\ (s = true ->
        ~ WorldmodelTrivial.inside
            (WorldmodelTrivial.child_borders p b false) x)
    /\ exists p',
         WorldmodelTrivial._calc_test_params D None
           (Some {| WorldmodelTrivial.parent_borders := Some b;
                    WorldmodelTrivial.parent_test_params := p;
                    WorldmodelTrivial.is_first_child := negb s |})
         = Some (p', WorldmodelTrivial.child_borders p b s).
Proof.
  intros Hp Hh (Hlen & Hx).
  destruct (halves_inside Hp Hh) as (Hd & Hlo & Hhi).
  pose proof Hp as (Hmn & Hmx & _).
  unfold WorldmodelTrivial._test.
  rewrite (@nth_error_some _ x (WorldmodelTrivial.dim p) 0%R) by lia.
  cbn [bind]. eexists. split; [reflexivity|].
  split; [|split; [|split]].
  - unfold WorldmodelTrivial.inside, WorldmodelTrivial.child_borders, Rltb.
    destruct (Rlt_dec _ _) as [Hgt|Hle];
      cbn [WorldmodelTrivial._minima WorldmodelTrivial._maxima];
      rewrite ?length_set_at; (split; [exact Hlen|]);
      intros j Hj; specialize (Hx j Hj);
      (destruct (Nat.eq_dec j (WorldmodelTrivial.dim p)) as [->|Hne];
       [rewrite nth_set_at_same by lia|rewrite nth_set_at_other by exact Hne]);
      lra.
  - apply proper_child; assumption.
  - intros Hs (_ & Hin).
    unfold Rltb in Hs. destruct (Rlt_dec _ _) as [Hgt|]; [|discriminate].
    assert (Hdx : WorldmodelTrivial.dim p < length x) by lia.
    specialize (Hin _ Hdx).
    unfold WorldmodelTrivial.child_borders in Hin.
    cbn [WorldmodelTrivial._minima WorldmodelTrivial._maxima] in Hin.
    rewrite nth_set_at_same in Hin by lia. lra.
  - rewrite calc_test_params_child by lia.
    assert (HD : 0 < D) by lia.
    match goal with
    | |- context [WorldmodelTrivial.child_borders p b ?s] =>
        destruct (@calc_test_params_own D D _ None HD
                    (@proper_child D p b s Hp Hd Hlo Hhi)) as (p' & E & _)
    end.
    exists p'. exact E.
Qed.

Lemma trivial_test_cell_witness :
  exists s,
    WorldmodelTrivial._test [(3 / 4)%R]
      {| WorldmodelTrivial.dim := 0;
         WorldmodelTrivial.cut := (0 + (1 - 0) / 2)%R |} = Some s
    /\ WorldmodelTrivial.inside
         (WorldmodelTrivial.child_borders
            {| WorldmodelTrivial.dim := 0;
               WorldmodelTrivial.cut := (0 + (1 - 0) / 2)%R |}
            {| WorldmodelTrivial._minima := [0%R];
               WorldmodelTrivial._maxima := [1%R] |} s)
         [(3 / 4)%R]
    /\ WorldmodelTrivial.proper 1
         (WorldmodelTrivial.child_borders
            {| WorldmodelTrivial.dim := 0;
               WorldmodelTrivial.cut := (0 + (1 - 0) / 2)%R |}
            {| WorldmodelTrivial._minima := [0%R];
               WorldmodelTrivial._maxima := [1%R] |} s)
    /\ (s = true ->
        ~ WorldmodelTrivial.inside
            (WorldmodelTrivial.child_borders
               {| WorldmodelTrivial.dim := 0;
                  WorldmodelTrivial.cut := (0 + (1 - 0) / 2)%R |}
               {| WorldmodelTrivial._minima := [0%R];
                  WorldmodelTrivial._maxima := [1%R] |} false)
            [(3 / 4)%R])
    /\ exists p',
         WorldmodelTrivial._calc_test_params 1 None
           (Some {| WorldmodelTrivial.parent_borders :=
                      Some {| WorldmodelTrivial._minima := [0%R];
                              WorldmodelTrivial._maxima := [1%R] |};
                    WorldmodelTrivial.parent_test_params :=
                      {| WorldmodelTrivial.dim := 0;
                         WorldmodelTrivial.cut := (0 + (1 - 0) / 2)%R |};
                    WorldmodelTrivial.is_first_child := negb s |})
         = Some (p',
                 WorldmodelTrivial.child_borders
                   {| WorldmodelTrivial.dim := 0;
                      WorldmodelTrivial.cut := (0 + (1 - 0) / 2)%R |}
                   {| WorldmodelTrivial._minima := [0%R];
                      WorldmodelTrivial._maxima := [1%R] |} s).
Proof.
  apply (@trivial_test_cell 1
           {| WorldmodelTrivial.dim := 0;
              WorldmodelTrivial.cut := (0 + (1 - 0) / 2)%R |}
           {| WorldmodelTrivial._minima := [0%R];
              WorldmodelTrivial._maxima := [1%R] |}
           [(3 / 4)%R]).
  - exact (proper_unit_cube 1).
  - unfold WorldmodelTrivial.halves. simpl.
    split; [lia|]. split; [reflexivity|].
    split; intros j Hj; [|lia].
    destruct j as [|j]; [lra|lia].
  - split; [reflexivity|]. simpl. intros j Hj.
    destruct j as [|j]; [lra|lia].
Defined.

(** ** worldmodel_tree.py: the references of a node's transitions *)

Lemma insert_unique_spec (x : Z) (l : list Z) :
  StronglySorted Z.lt l ->
  StronglySorted Z.lt (WorldmodelTree.insert_unique x l)
  /\ forall y, In y (WorldmodelTree.insert_unique x l) <-> y = x \/ In y l.
Proof.
  induction 1 as [|z l Hl IH Hz]; simpl.
  - split; [repeat constructor|]. intros y. simpl. intuition.
  - destruct IH as [IHs IHi].
    destruct (Z.ltb_spec x z) as [Hlt|Hge].
    + split.
      * constructor; [now constructor|].
        constructor; [exact Hlt|].
        rewrite Forall_forall in *. intros y Hy.
        specialize (Hz y Hy). lia.
      * intros y. simpl. intuition.
    + destruct (Z.eqb_spec x z) as [->|Hne].
      * split; [now constructor|]. intros y. simpl. intuition.
      * split.
        -- constructor; [exact IHs|].
           rewrite Forall_forall in *. intros y Hy.
           apply IHi in Hy as [->|Hy]; [lia|now apply Hz].
        -- intros y. simpl. rewrite IHi. intuition.
Qed.

Lemma np_unique_spec (l : list Z) :
  StronglySorted Z.lt (WorldmodelTree.np_unique l)
  /\ forall y, In y (WorldmodelTree.np_unique l) <-> In y l.
Proof.
  induction l as [|x l [IHs IHi]]; simpl.
  - split; [constructor|]. tauto.
  - destruct (insert_unique_spec x IHs) as [Hs Hi].
    split; [exact Hs|]. intros y. rewrite Hi, IHi. intuition.
Qed.

Lemma select_map (A : Type) (p : A -> bool) (a : list A) :
  WorldmodelTree.select a (map p a) = filter p a.
Proof.
  unfold WorldmodelTree.select. induction a as [|x a IH]; simpl;
    [reflexivity|].
  destruct (p x); simpl; now rewrite IH.
Qed.

Lemma existsb_Zeqb (x : Z) (l : list Z) :
  existsb (Z.eqb x) l = true <-> In x l.
Proof.
  rewrite existsb_exists. split.
  - intros [y [Hy E]]. apply Z.eqb_eq in E. now subst.
  - intros H. exists x. split; [exact H|apply Z.eqb_refl].
Qed.

Lemma In_pred (x : Z) (refs : list Z) :
  In x (map (fun r => (r - 1)%Z) refs) <-> In (x + 1)%Z refs.
Proof.
  rewrite in_map_iff. split.
  - intros [r [E Hr]]. now replace (x + 1)%Z with r by lia.
  - intros H. exists (x + 1)%Z. split; [lia|exact H].
Qed.

Lemma inside_refs (refs : list Z) (x : Z) :
  In x (WorldmodelTree.select refs
          (WorldmodelTree.in1d refs (map (fun r => (r - 1)%Z) refs)))
  <-> In x refs /\ In (x + 1)%Z refs.
Proof.
  unfold WorldmodelTree.in1d. rewrite select_map, filter_In.
  now rewrite existsb_Zeqb, In_pred.
Qed.

Lemma setdiff1d_unique_In (a b : list Z) (x : Z) :
  In x (WorldmodelTree.setdiff1d_unique a b) <-> In x a /\ ~ In x b.
Proof.
  unfold WorldmodelTree.setdiff1d_unique, WorldmodelTree.in1d.
  rewrite map_map, select_map, filter_In, negb_true_iff.
  rewrite <- not_true_iff_false, existsb_Zeqb. tauto.
Qed.

Lemma setdiff1d_In (a b : list Z) (x : Z) :
  In x (WorldmodelTree.setdiff1d a b) <-> In x a /\ ~ In x b.
Proof.
  unfold WorldmodelTree.setdiff1d.
  rewrite setdiff1d_unique_In.
  now rewrite !(proj2 (np_unique_spec _)).
Qed.

Lemma set_eqb_true (a b : list Z) :
  WorldmodelTree.set_eqb a b = true <-> forall x, In x a <-> In x b.
Proof.
  unfold WorldmodelTree.set_eqb.
  rewrite andb_true_iff, !forallb_forall. split.
  - intros [H1 H2] x. split; intros Hx.
    + now apply existsb_Zeqb, H1.
    + now apply existsb_Zeqb, H2.
  - intros H. split; intros x Hx; apply existsb_Zeqb; now apply H.
Qed.

Lemma outgoing_refs (refs : list Z) (N x : Z) :
  In x (WorldmodelTree.setdiff1d
          (WorldmodelTree.setdiff1d_unique refs
             (map (fun r => (r - 1)%Z) refs)) [(N - 1)%Z])
  <-> In x refs /\ ~ In (x + 1)%Z refs /\ x <> (N - 1)%Z.
Proof.
  rewrite setdiff1d_In, setdiff1d_unique_In, In_pred. simpl.
  intuition.
Qed.

Lemma out_assert (refs : list Z) (N : Z) :
  (forall x, In x refs -> (x < N)%Z) ->
  WorldmodelTree.set_eqb
    (WorldmodelTree.setdiff1d
       (WorldmodelTree.setdiff1d_unique refs
          (map (fun r => (r - 1)%Z) refs)) [(N - 1)%Z])
    (filter (fun ref => negb (existsb (Z.eqb (ref + 1)) refs)
                        && (ref + 1 <? N)%Z) refs) = true.
Proof.
  intros HN. apply set_eqb_true. intros x.
  rewrite outgoing_refs, filter_In, andb_true_iff, negb_true_iff.
  rewrite <- not_true_iff_false, existsb_Zeqb, Z.ltb_lt.
  split.
  - intros (Hx & Hn & Hne). specialize (HN x Hx).
    repeat split; try assumption. lia.
  - intros (Hx & Hn & Hlt). repeat split; try assumption. lia.
Qed.

Lemma transition_refs_facts (refs : list Z) (N : Z) :
  NoDup refs ->
  (forall x, In x refs -> (x < N)%Z) ->
  exists r_in r_out r_all,
    WorldmodelTree.get_transition_refs refs N false true false = Some r_in
    /\ WorldmodelTree.get_transition_refs refs N false false true
       = Some r_out
    /\ WorldmodelTree.get_transition_refs refs N false true true
       = Some r_all
    /\ StronglySorted Z.lt r_in
    /\ StronglySorted Z.lt r_out
    /\ StronglySorted Z.lt r_all
    /\ (forall x, In x r_in <-> In x refs /\ In (x + 1)%Z refs)
    /\ (forall x, In x r_out <->
                  In x refs /\ ~ In (x + 1)%Z refs /\ x <> (N - 1)%Z)
    /\ (forall x, In x r_all <-> In x refs /\ x <> (N - 1)%Z).
Proof.
  intros _ HN.
  unfold WorldmodelTree.get_transition_refs. cbn [bind assert].
  rewrite (out_assert refs HN). cbn [bind assert].
  unfold WorldmodelTree.union1d.
  do 3 eexists. do 3 (split; [reflexivity|]).
  split; [apply np_unique_spec|].
  split; [apply np_unique_spec|].
  split; [apply np_unique_spec|].
  split; [|split].
  - intros x. rewrite (proj2 (np_unique_spec _)). cbn [app].
    apply inside_refs.
  - intros x. rewrite (proj2 (np_unique_spec _)). cbn [app].
    apply outgoing_refs.
  - intros x. rewrite (proj2 (np_unique_spec _)), in_app_iff.
    rewrite (proj2 (np_unique_spec _)). cbn [app].
    rewrite inside_refs, outgoing_refs. split.
    + intros [[Hx Hs]|(Hx & Hn & Hne)]; split; try assumption.
      specialize (HN _ Hs). lia.
    + intros [Hx Hne].
      destruct (in_dec Z.eq_dec (x + 1)%Z refs) as [Hs|Hs]; [left|right];
        repeat split; assumption.
Qed.

(** [get_transition_refs] of a node whose references are distinct
    samples of the model: the default call returns, in ascending order
    and without repetition, the references whose successor is a
    reference of the node too; with [heading_out] alone, those whose
    successor is not, the last sample of the model apart; with both
    flags, every reference but the last sample. *)
Theorem transition_refs_inside_out (refs : list Z) (N : Z) :
  NoDup refs ->
  (forall x, In x refs -> (x < N)%Z) ->
  exists r_in r_out r_all,
    WorldmodelTree.get_transition_refs refs N false true false = Some r_in
    /\ WorldmodelTree.get_transition_refs refs N false false true
       = Some r_out
    /\ WorldmodelTree.get_transition_refs refs N false true true
       = Some r_all
    /\ StronglySorted Z.lt r_in
    /\ StronglySorted Z.lt r_out
    /\ StronglySorted Z.lt r_all
    /\ (forall x, In x r_in <-> In x refs /\ In (x + 1)%Z refs)
    /\ (forall x, In x r_out <->
                  In x refs /\ ~ In (x + 1)%Z refs /\ x <> (N - 1)%Z)
    /\ (forall x, In x r_all <-> In x refs /\ x <> (N - 1)%Z).
Proof. exact (@transition_refs_facts refs N). Qed.

Lemma transition_refs_inside_out_witness :
  exists r_in r_out r_all,
    WorldmodelTree.get_transition_refs [0; 2; 3; 5]%Z 6 false true false
    = Some r_in
    /\ WorldmodelTree.get_transition_refs [0; 2; 3; 5]%Z 6 false false true
       = Some r_out
    /\ WorldmodelTree.get_transition_refs [0; 2; 3; 5]%Z 6 false true true
       = Some r_all
    /\ StronglySorted Z.lt r_in
    /\ StronglySorted Z.lt r_out
    /\ StronglySorted Z.lt r_all
    /\ (forall x, In x r_in <->
                  In x [0; 2; 3; 5]%Z /\ In (x + 1)%Z [0; 2; 3; 5]%Z)
    /\ (forall x, In x r_out <->
                  In x [0; 2; 3; 5]%Z /\ ~ In (x + 1)%Z [0; 2; 3; 5]%Z
                  /\ x <> (6 - 1)%Z)
    /\ (forall x, In x r_all <-> In x [0; 2; 3; 5]%Z /\ x <> (6 - 1)%Z).
Proof.
  apply (@transition_refs_inside_out [0; 2; 3; 5]%Z 6).
  - repeat constructor; simpl; intuition lia.
  - simpl. intros x Hx. intuition lia.
Defined.

(** What [get_transition_refs] refuses: a call with [heading_in]
    raises whatever the node is ([assert False]); a call with
    [heading_out] raises when a reference of the node is not a sample
    of the model and its successor is not a reference (the assertion
    on the outgoing references fails). *)
Theorem transition_refs_raises (refs : list Z) (N : Z)
    (inside heading_out : bool) (x : Z) :
  WorldmodelTree.get_transition_refs refs N true inside heading_out = None
  /\ (In x refs -> (N <= x)%Z -> ~ In (x + 1)%Z refs ->
      WorldmodelTree.get_transition_refs refs N false inside true = None).
Proof.
  split; [reflexivity|].
  intros Hx HN Hs. unfold WorldmodelTree.get_transition_refs.
  cbn [bind].
  match goal with
  | |- context [WorldmodelTree.set_eqb ?a ?b] =>
      destruct (WorldmodelTree.set_eqb a b) eqn:E; [|reflexivity]
  end.
  exfalso. rewrite set_eqb_true in E.
  assert (Hin : In x (filter (fun ref =>
                                negb (existsb (Z.eqb (ref + 1)) refs)
                                && (ref + 1 <? N)%Z) refs)).
  { apply E, outgoing_refs. repeat split; try assumption. lia. }
  apply filter_In in Hin as [_ Hin].
  apply andb_prop in Hin as [_ Hin]. apply Z.ltb_lt in Hin. lia.
Qed.

Lemma transition_refs_raises_witness :
  WorldmodelTree.get_transition_refs [5]%Z 3 true true true = None
  /\ (In 5%Z [5]%Z -> (3 <= 5)%Z -> ~ In (5 + 1)%Z [5]%Z ->
      WorldmodelTree.get_transition_refs [5]%Z 3 false true true = None).
Proof. exact (@transition_refs_raises [5]%Z 3 true true 5%Z). Defined.

Lemma np_unique_sorted (l : list Z) :
  StronglySorted Z.lt l -> WorldmodelTree.np_unique l = l.
Proof.
  induction 1 as [|x l Hl IH Hx]; [reflexivity|].
  simpl. rewrite IH. destruct l as [|y l]; [reflexivity|].
  simpl. inversion Hx as [|? ? Hxy _]; subst.
  now replace (x <? y)%Z with true by (symmetry; apply Z.ltb_lt; lia).
Qed.

Lemma filter_sorted (A : Type) (R : A -> A -> Prop) (p : A -> bool)
    (l : list A) :
  StronglySorted R l -> StronglySorted R (filter p l).
Proof.
  induction 1 as [|x l Hl IH Hx]; simpl; [constructor|].
  destruct (p x); [|exact IH].
  constructor; [exact IH|].
  rewrite Forall_forall in *. intros y Hy.
  apply filter_In in Hy as [Hy _]. now apply Hx.
Qed.

(** [get_transition_refs_for_action] of a node whose references are
    distinct samples of the model: the references whose successor is a
    reference of the node and whose action is the given one, in
    ascending order. *)
Theorem transition_refs_for_action (refs : list Z) (N : nat)
    (model_actions : list action) (a : action) :
  NoDup refs ->
  (forall x, In x refs -> (0 <= x < Z.of_nat N)%Z) ->
  length model_actions = N ->
  exists r,
    WorldmodelTree.get_transition_refs_for_action refs (Z.of_nat N)
      model_actions a false true false = Some r
    /\ StronglySorted Z.lt r
    /\ forall x, In x r <->
                 In x refs /\ In (x + 1)%Z refs
                 /\ nth (Z.to_nat x) model_actions None = a.
Proof.
  intros Hnd HN Hlen.
  destruct (@transition_refs_facts refs (Z.of_nat N) Hnd)
    as (r_in & _ & _ & E & _ & _ & Hs & _ & _ & Hin & _);
    [intros x Hx; apply HN; exact Hx|].
  unfold WorldmodelTree.get_transition_refs_for_action.
  rewrite E. cbn [bind].
  rewrite (@mapM_some _ _ _
             (fun r => nth (Z.to_nat r) model_actions None)).
  2:{ intros x Hx. apply Hin in Hx as [Hx _]. specialize (HN x Hx).
      unfold py_index. rewrite Hlen.
      replace ((0 <=? x)%Z && (x <? Z.of_nat N)%Z) with true
        by (symmetry; apply andb_true_intro; split;
            [apply Z.leb_le|apply Z.ltb_lt]; lia).
      cbn [bind]. apply nth_error_some. lia. }
  cbn [bind]. rewrite map_map, select_map.
  eexists. split; [reflexivity|]. split.
  - now apply filter_sorted.
  - intros x. rewrite filter_In, Hin, action_eqb_eq. tauto.
Qed.

Lemma transition_refs_for_action_witness :
  exists r,
    WorldmodelTree.get_transition_refs_for_action [0; 2; 3; 5]%Z
      (Z.of_nat 6) sample_actions (Some 0%Z) false true false = Some r
    /\ StronglySorted Z.lt r
    /\ forall x, In x r <->
                 In x [0; 2; 3; 5]%Z /\ In (x + 1)%Z [0; 2; 3; 5]%Z
                 /\ nth (Z.to_nat x) sample_actions None = Some 0%Z.
Proof.
  apply (@transition_refs_for_action [0; 2; 3; 5]%Z 6 sample_actions
           (Some 0%Z)).
  - repeat constructor; simpl; intuition lia.
  - simpl. intros x Hx. intuition lia.
  - reflexivity.
Defined.

Lemma insert_sorted_spec (x : nat) (l : list nat) :
  StronglySorted le l ->
  StronglySorted le (WorldmodelTree.insert_sorted x l)
  /\ Permutation (WorldmodelTree.insert_sorted x l) (x :: l).
Proof.
  induction 1 as [|y l Hl IH Hy]; simpl.
  - split; [repeat constructor|apply Permutation_refl].
  - destruct IH as [IHs IHp].
    destruct (Nat.leb_spec x y) as [Hle|Hgt].
    + split; [|apply Permutation_refl].
      constructor; [now constructor|].
      constructor; [exact Hle|].
      rewrite Forall_forall in *. intros z Hz. specialize (Hy z Hz). lia.
    + split.
      * constructor; [exact IHs|].
        rewrite Forall_forall in *. intros z Hz.
        apply (Permutation_in _ IHp) in Hz as [<-|Hz]; [lia|now apply Hy].
      * rewrite IHp. apply perm_swap.
Qed.

Lemma np_sort_spec (l : list nat) :
  StronglySorted le (WorldmodelTree.np_sort l)
  /\ Permutation (WorldmodelTree.np_sort l) l.
Proof.
  induction l as [|x l [IHs IHp]]; simpl.
  - split; [constructor|apply Permutation_refl].
  - destruct (insert_sorted_spec x IHs) as [Hs Hp].
    split; [exact Hs|]. rewrite Hp. now constructor.
Qed.

(** [get_data_refs] of a node gives the references held by the leaves
    below it, each as often as the leaves hold it; below an inner node
    they come in ascending order. *)
Theorem data_refs_of_node (Params : Type)
    (node : WorldmodelTree.Tree Params) :
  Permutation (WorldmodelTree.get_data_refs node)
              (WorldmodelTree.leaf_refs node)
  /\ (WorldmodelTree.is_leaf node = false ->
      StronglySorted le (WorldmodelTree.get_data_refs node)).
Proof.
  induction node as [d|params a [IHa _] b [IHb _]]; simpl.
  - split; [apply Permutation_refl|discriminate].
  - split; [|intros _; apply np_sort_spec].
    rewrite (proj2 (np_sort_spec _)). now apply Permutation_app.
Qed.

Lemma existsb_succ (refs : list nat) (t : nat) :
  existsb (Z.eqb (Z.of_nat t)) (map (fun r => (r - 1)%Z) (map Z.of_nat refs))
  = existsb (Nat.eqb (t + 1)) refs.
Proof.
  apply eq_true_iff_eq. rewrite existsb_Zeqb, In_pred, existsb_exists.
  rewrite in_map_iff. split.
  - intros [r [E Hr]]. exists r. split; [exact Hr|].
    apply Nat.eqb_eq. lia.
  - intros [r [Hr E]]. apply Nat.eqb_eq in E. exists r.
    split; [lia|exact Hr].
Qed.

Lemma sorted_of_nat (l : list nat) :
  StronglySorted lt l -> StronglySorted Z.lt (map Z.of_nat l).
Proof.
  induction 1 as [|x l Hl IH Hx]; simpl; constructor; [exact IH|].
  rewrite Forall_forall in *. intros y Hy.
  apply in_map_iff in Hy as [z [<- Hz]]. specialize (Hx z Hz). lia.
Qed.

Lemma filter_map_comm (A B : Type) (f : A -> B) (p : B -> bool)
    (l : list A) :
  filter p (map f l) = map f (filter (fun x => p (f x)) l).
Proof.
  induction l as [|x l IH]; simpl; [reflexivity|].
  destruct (p (f x)); simpl; now rewrite IH.
Qed.

(** The two versions of the tree agree on the transitions inside a
    node: for references in ascending order without repetition,
    [get_transition_refs()] of worldmodel_tree.py returns the starting
    points of the pairs that [get_transition_refs_strict()] of
    worldmodel.py returns. *)
Theorem inside_refs_agree (Obs : Type) (root : WorldModelTree.Root Obs)
    (refs : list nat) (N : Z) :
  StronglySorted lt refs ->
  exists strict,
    WorldModelTree.get_transition_refs_strict root refs None
    = WorldModelTree.Ok strict
    /\ WorldmodelTree.get_transition_refs (map Z.of_nat refs) N
         false true false
       = Some (map Z.of_nat strict).
Proof.
  intros Hs. eexists. split; [reflexivity|].
  unfold WorldmodelTree.get_transition_refs, WorldmodelTree.union1d,
    WorldmodelTree.in1d.
  cbn [bind app]. rewrite select_map, filter_map_comm.
  rewrite np_unique_sorted.
  - f_equal. f_equal. apply filter_ext. intros t. apply existsb_succ.
  - apply sorted_of_nat, filter_sorted, Hs.
Qed.

Lemma inside_refs_agree_witness :
  exists strict,
    WorldModelTree.get_transition_refs_strict sample_root [0; 1; 2] None
    = WorldModelTree.Ok strict
    /\ WorldmodelTree.get_transition_refs (map Z.of_nat [0; 1; 2]) 3
         false true false
       = Some (map Z.of_nat strict).
Proof.
  apply (@inside_refs_agree nat sample_root [0; 1; 2] 3).
  repeat constructor.
Defined.

(** ** worldmodel.py: the range of the entropies *)

Lemma ln_le_sub (y : R) : (0 < y)%R -> (ln y <= y - 1)%R.
Proof.
  intros Hy. pose proof (exp_ineq1_le (ln y)) as H.
  rewrite exp_ln in H by exact Hy. lra.
Qed.

Lemma ln_2_pos : (0 < ln 2)%R.
Proof. rewrite <- ln_1. apply ln_increasing; lra. Qed.

Lemma log2_pos (K : nat) : 2 <= K -> (0 < WorldModelTree.log2 (INR K))%R.
Proof.
  intros HK. unfold WorldModelTree.log2.
  apply Rdiv_lt_0_compat; [|exact ln_2_pos].
  rewrite <- ln_1. apply ln_increasing; [lra|].
  apply le_INR in HK. simpl in HK. lra.
Qed.

Lemma Rsum_le (A : Type) (f g : A -> R) (l : list A) :
  (forall x, In x l -> (f x <= g x)%R) ->
  (WorldModelTree.Rsum (map f l) <= WorldModelTree.Rsum (map g l))%R.
Proof.
  unfold WorldModelTree.Rsum. induction l as [|x l IH]; intros H; simpl.
  - lra.
  - pose proof (H x (or_introl eq_refl)).
    assert (fold_right Rplus 0 (map f l) <= fold_right Rplus 0 (map g l))%R
      by (apply IH; intros y Hy; apply H; now right).
    lra.
Qed.

Lemma Rsum_affine (a b c : R) (l : list R) :
  WorldModelTree.Rsum (map (fun p => (p * a + b - p) / c)%R l)
  = ((a * WorldModelTree.Rsum l + b * INR (length l)
      - WorldModelTree.Rsum l) / c)%R.
Proof.
  unfold WorldModelTree.Rsum. induction l as [|x l IH].
  - simpl. lra.
  - cbn [map fold_right length]. rewrite IH, S_INR. lra.
Qed.

Lemma Rsum_scale (c : R) (l : list R) :
  WorldModelTree.Rsum (map (fun x => x / c)%R l)
  = (WorldModelTree.Rsum l / c)%R.
Proof.
  unfold WorldModelTree.Rsum. induction l as [|x l IH]; simpl.
  - lra.
  - rewrite IH. lra.
Qed.

Lemma Rsum_nonneg (l : list R) :
  Forall (fun x => 0 <= x)%R l -> (0 <= WorldModelTree.Rsum l)%R.
Proof.
  unfold WorldModelTree.Rsum. induction 1; simpl; lra.
Qed.

Lemma le_Rsum (l : list R) (x : R) :
  Forall (fun x => 0 <= x)%R l -> In x l -> (x <= WorldModelTree.Rsum l)%R.
Proof.
  unfold WorldModelTree.Rsum. induction 1 as [|y l Hy Hl IH]; intros Hx.
  - destruct Hx.
  - pose proof (Rsum_nonneg Hl) as Hs. unfold WorldModelTree.Rsum in Hs.
    simpl. destruct Hx as [->|Hx]; [lra|].
    specialize (IH Hx). lra.
Qed.

Lemma combine_map_self (f : R -> R) (l : list R) :
  map (fun pl => (fst pl * snd pl)%R) (combine l (map f l))
  = map (fun p => (p * f p)%R) l.
Proof. induction l as [|x l IH]; simpl; [reflexivity|now rewrite IH]. Qed.

(** One term of the entropy, against the bound of Gibbs' inequality. *)
Lemma entropy_term_upper (p k : R) :
  (0 <= p)%R -> (0 < k)%R ->
  (- (p * (if Rltb 0 p then WorldModelTree.log2 p else 0))
   <= (p * ln k + / k - p) / ln 2)%R.
Proof.
  intros Hp Hk. pose proof ln_2_pos as H2. unfold Rltb.
  assert (Hik : (0 < / k)%R) by now apply Rinv_0_lt_compat.
  destruct (Rlt_dec 0 p) as [Hpos|Hz].
  - unfold WorldModelTree.log2.
    assert (Hy : (0 < / (k * p))%R)
      by (apply Rinv_0_lt_compat, Rmult_lt_0_compat; assumption).
    pose proof (ln_le_sub Hy) as Hln.
    rewrite ln_Rinv in Hln by (apply Rmult_lt_0_compat; assumption).
    rewrite ln_mult in Hln by assumption.
    assert (Hm : (p * (- (ln k + ln p)) <= p * (/ (k * p) - 1))%R)
      by (apply Rmult_le_compat_l; lra).
    replace (p * (/ (k * p) - 1))%R with (/ k - p)%R in Hm
      by (field; split; lra).
    apply Rmult_le_reg_r with (r := ln 2); [exact H2|].
    replace ((p * ln k + / k - p) / ln 2 * ln 2)%R
      with (p * ln k + / k - p)%R by (field; lra).
    replace (- (p * (ln p / ln 2)) * ln 2)%R with (- (p * ln p))%R
      by (field; lra).
    lra.
  - assert (p = 0%R) by lra. subst p.
    apply Rmult_le_reg_r with (r := ln 2); [exact H2|].
    replace ((0 * ln k + / k - 0) / ln 2 * ln 2)%R with (/ k)%R
      by (field; lra).
    lra.
Qed.

Lemma entropy_term_lower (p : R) :
  (0 <= p <= 1)%R ->
  (p * (if Rltb 0 p then WorldModelTree.log2 p else 0) <= 0)%R.
Proof.
  intros [H0 H1]. pose proof ln_2_pos as H2. unfold Rltb.
  destruct (Rlt_dec 0 p) as [Hpos|Hz]; [|lra].
  unfold WorldModelTree.log2.
  assert (Hln : (ln p <= 0)%R).
  { destruct (Req_dec p 1) as [->|Hne]; [rewrite ln_1; lra|].
    rewrite <- ln_1. left. apply ln_increasing; lra. }
  assert (Hq : (ln p / ln 2 <= 0)%R).
  { apply Rmult_le_reg_r with (r := ln 2); [exact H2|].
    replace (ln p / ln 2 * ln 2)%R with (ln p) by (field; lra). lra. }
  replace 0%R with (p * 0)%R by lra.
  apply Rmult_le_compat_l; lra.
Qed.

(** The sum that [_entropy] evaluates lies between 0 and [log2 K]. *)
Lemma entropy_sum_range (probs : list R) :
  Forall (fun p => 0 <= p)%R probs ->
  WorldModelTree.Rsum probs = 1%R ->
  2 <= length probs ->
  let e := (- WorldModelTree.Rsum
              (map (fun p => p * (if Rltb 0 p then WorldModelTree.log2 p
                                  else 0)) probs))%R in
  (0 <= e <= WorldModelTree.log2 (INR (length probs)))%R.
Proof.
  intros Hp Hs HK e. pose proof (INR_pos HK) as HI.
  pose proof ln_2_pos as H2. split.
  - unfold e.
    assert (H : (WorldModelTree.Rsum
                   (map (fun p => p * (if Rltb 0 p
                                       then WorldModelTree.log2 p else 0))
                        probs)
                 <= WorldModelTree.Rsum (map (fun _ => 0) probs))%R).
    { apply Rsum_le. intros p Hin. apply entropy_term_lower.
      rewrite Forall_forall in Hp. split; [now apply Hp|].
      rewrite <- Hs. apply le_Rsum; [now apply Forall_forall|exact Hin]. }
    rewrite (@Rsum_map_zero _ (fun _ => 0%R)) in H by reflexivity. lra.
  - unfold e.
    assert (H : (WorldModelTree.Rsum
                   (map (fun p => - (p * (if Rltb 0 p
                                          then WorldModelTree.log2 p
                                          else 0))) probs)
                 <= WorldModelTree.Rsum
                      (map (fun p => (p * ln (INR (length probs))
                                      + / INR (length probs) - p) / ln 2)
                           probs))%R).
    { apply Rsum_le. intros p Hin. apply entropy_term_upper; [|exact HI].
      rewrite Forall_forall in Hp. now apply Hp. }
    rewrite Rsum_affine, Hs in H.
    replace (ln (INR (length probs)) * 1
             + / INR (length probs) * INR (length probs) - 1)%R
      with (ln (INR (length probs))) in H by (field; lra).
    assert (Hneg : WorldModelTree.Rsum
                     (map (fun p => - (p * (if Rltb 0 p
                                            then WorldModelTree.log2 p
                                            else 0)))%R probs)
                   = (- WorldModelTree.Rsum
                        (map (fun p => p * (if Rltb 0 p
                                            then WorldModelTree.log2 p
                                            else 0)) probs))%R).
    { unfold WorldModelTree.Rsum. clear.
      induction probs as [|x l IH]; simpl; [lra|]. rewrite IH. lra. }
    rewrite Hneg in H. exact H.
Qed.

Lemma entropy_defined (dist : list R) (normalize ignore_empty : bool) :
  Forall (fun x => 0 <= x)%R dist ->
  2 <= length dist ->
  (0 < WorldModelTree.Rsum dist)%R ->
  exists e,
    WorldModelTree._entropy dist normalize ignore_empty = Some e
    /\ (0 <= e)%R
    /\ (e <= if normalize then 1
             else WorldModelTree.log2 (INR (length dist)))%R.
Proof.
  intros Hd HK Hs. pose proof (log2_pos HK) as HL.
  set (s := WorldModelTree.Rsum dist) in *.
  set (probs := map (fun x => (x / s)%R) dist).
  assert (Hp : Forall (fun p => 0 <= p)%R probs).
  { unfold probs. rewrite Forall_map.
    eapply Forall_impl; [|exact Hd]. cbn beta. intros x Hx.
    apply Rmult_le_pos; [exact Hx|]. left. now apply Rinv_0_lt_compat. }
  assert (Hsum : WorldModelTree.Rsum probs = 1%R).
  { unfold probs. rewrite Rsum_scale. fold s. field. lra. }
  assert (Hlen : length probs = length dist)
    by (unfold probs; now rewrite length_map).
  pose proof (@entropy_sum_range probs Hp Hsum) as Hr.
  rewrite Hlen in Hr. specialize (Hr HK). cbv zeta in Hr.
  unfold WorldModelTree._entropy.
  rewrite no_negative by exact Hd. cbn [negb assert bind].
  replace (length dist <=? 1) with false
    by (symmetry; apply Nat.leb_gt; lia).
  fold s. rewrite Reqb_false by lra.
  fold probs. rewrite combine_map_self.
  rewrite Rleb_true by apply Hr. cbn [assert bind].
  destruct normalize.
  - assert (Hq : (0 <= - WorldModelTree.Rsum
                         (map (fun p => p * (if Rltb 0 p
                                             then WorldModelTree.log2 p
                                             else 0)) probs)
                       / WorldModelTree.log2 (INR (length dist)) <= 1)%R).
    { split.
      - apply Rmult_le_pos; [apply Hr|]. left. now apply Rinv_0_lt_compat.
      - apply Rmult_le_reg_r
          with (r := WorldModelTree.log2 (INR (length dist))); [exact HL|].
        unfold Rdiv. rewrite Rmult_assoc, Rinv_l by lra. lra. }
    rewrite Rleb_true by apply Hq. cbn [assert bind].
    eexists. split; [reflexivity|]. exact Hq.
  - rewrite Rleb_true by apply Hr. cbn [assert bind].
    eexists. split; [reflexivity|]. exact Hr.
Qed.



Lemma mapM_none (A B : Type) (f : A -> option B) (l : list A) (x : A) :
  In x l -> f x = None -> mapM f l = None.
Proof.
  induction l as [|y l IH]; intros Hin Hf; [destruct Hin|].
  simpl. destruct Hin as [->|Hin].
  - now rewrite Hf.
  - destruct (f y); [cbn [bind]|reflexivity].
    now rewrite (IH Hin Hf).
Qed.

Lemma mapM_Forall (A B : Type) (f : A -> option B) (Q : B -> Prop)
    (l : list A) :
  (forall x, In x l -> exists y, f x = Some y /\ Q y) ->
  exists ys, mapM f l = Some ys /\ length ys = length l /\ Forall Q ys.
Proof.
  induction l as [|x l IH]; intros H.
  - exists []. simpl. auto.
  - destruct (H x (or_introl eq_refl)) as (y & Ey & Hy).
    destruct IH as (ys & E & Hl & HQ);
      [intros z Hz; apply H; now right|].
    exists (y :: ys). simpl. rewrite Ey. cbn [bind]. rewrite E.
    cbn [bind]. repeat split; [now rewrite Hl|now constructor].
Qed.

Lemma weighted_range (B : R) (ws es : list R) :
  (0 <= B)%R ->
  Forall (fun w => 0 <= w)%R ws ->
  Forall (fun e => 0 <= e <= B)%R es ->
  (0 <= WorldModelTree.Rsum
          (map (fun we => fst we * snd we) (combine ws es))
   <= B * WorldModelTree.Rsum ws)%R.
Proof.
  intros HB Hw. revert es. unfold WorldModelTree.Rsum.
  induction Hw as [|w ws H0 Hws IH]; intros es He.
  - simpl. lra.
  - pose proof (Rsum_nonneg Hws) as Hs. unfold WorldModelTree.Rsum in Hs.
    destruct He as [|e es [He0 HeB] Hes].
    + simpl.
      assert (0 <= B * (w + fold_right Rplus 0 ws))%R
        by (apply Rmult_le_pos; lra). lra.
    + specialize (IH es Hes). cbn [combine map fold_right fst snd].
      assert (0 <= w * e)%R by (apply Rmult_le_pos; lra).
      assert (w * e <= w * B)%R by (apply Rmult_le_compat_l; lra).
      lra.
Qed.

Lemma zero_row_entropy (row : list R) (normalize : bool) :
  Forall (fun x => 0 <= x)%R row ->
  2 <= length row ->
  WorldModelTree.Rsum row = 0%R ->
  WorldModelTree._entropy row normalize false = None.
Proof.
  intros Hr HK Hs.
  exact (proj2 (@entropy_special row normalize false Hr) HK Hs).
Qed.

Lemma mutual_information_rows (P : list (list R)) (K : nat) :
  2 <= K ->
  length P = K ->
  Forall (fun row => length row = K /\ Forall (fun x => 0 <= x)%R row) P ->
  ((forall row, In row P -> (0 < WorldModelTree.Rsum row)%R) ->
   exists m,
     WorldModelTree._mutual_information P = Some m
     /\ (- WorldModelTree.log2 (INR K) <= m <= WorldModelTree.log2 (INR K))%R)
  /\ ((exists row, In row P /\ WorldModelTree.Rsum row = 0%R) ->
      WorldModelTree._mutual_information P = None
      /\ forall normalize,
           WorldModelTree._matrix_entropy P normalize = None).
Proof.
  intros HK HP Hrows. rewrite Forall_forall in Hrows. split.
  - intros Hpos.
    set (weights := WorldModelTree.row_sums P).
    assert (Hw : Forall (fun w => 0 < w)%R weights).
    { unfold weights, WorldModelTree.row_sums. rewrite Forall_map.
      apply Forall_forall. exact Hpos. }
    assert (Hw0 : Forall (fun w => 0 <= w)%R weights)
      by (eapply Forall_impl; [|exact Hw]; cbn beta; intros; lra).
    assert (Hlw : length weights = K)
      by (unfold weights, WorldModelTree.row_sums; now rewrite length_map).
    assert (Hsw : (0 < WorldModelTree.Rsum weights)%R).
    { destruct weights as [|w ws]; [simpl in Hlw; lia|].
      inversion Hw as [|? ? Hw1 Hw2]; subst.
      inversion Hw0 as [|? ? _ Hw3]; subst.
      pose proof (Rsum_nonneg Hw3) as Hn.
      unfold WorldModelTree.Rsum in *. simpl. lra. }
    set (mu := map (fun w => (w / WorldModelTree.Rsum weights)%R) weights).
    assert (Hmu0 : Forall (fun w => 0 <= w)%R mu).
    { unfold mu. rewrite Forall_map.
      eapply Forall_impl; [|exact Hw0]. cbn beta. intros x Hx.
      apply Rmult_le_pos; [exact Hx|]. left. now apply Rinv_0_lt_compat. }
    assert (Hmus : WorldModelTree.Rsum mu = 1%R)
      by (unfold mu; rewrite Rsum_scale; field; lra).
    assert (Hlmu : length mu = K) by (unfold mu; now rewrite length_map).
    destruct (@entropy_defined mu false false Hmu0)
      as (e_mu & Emu & Hmu_lo & Hmu_hi); [lia|lra|].
    rewrite Hlmu in Hmu_hi.
    destruct (@mapM_Forall _ _
                (fun row => WorldModelTree._entropy row false false)
                (fun e => 0 <= e <= WorldModelTree.log2 (INR K))%R P)
      as (es & Ees & Hles & Hes).
    { intros row Hrow. destruct (Hrows row Hrow) as [Hlen Hnn].
      destruct (@entropy_defined row false false Hnn)
        as (e & Ee & He0 & He1); [lia|now apply Hpos|].
      rewrite Hlen in He1. exists e. auto. }
    unfold WorldModelTree._mutual_information, WorldModelTree.Rmsum.
    fold (WorldModelTree.row_sums P). fold weights.
    rewrite Rltb_true by exact Hsw. cbn [assert bind].
    fold mu. rewrite Emu. cbn [bind].
    unfold WorldModelTree._matrix_entropy. rewrite Ees. cbn [bind].
    fold weights. fold mu.
    eexists. split; [reflexivity|].
    pose proof (@weighted_range _ mu es (log2_nonneg HK) Hmu0 Hes) as Hwr.
    rewrite Hmus in Hwr. lra.
  - intros (row & Hin & Hz).
    destruct (Hrows row Hin) as [Hlen Hnn].
    assert (Hnone : forall normalize,
              WorldModelTree._matrix_entropy P normalize = None).
    { intros normalize. unfold WorldModelTree._matrix_entropy.
      rewrite (@mapM_none _ _ _ P row Hin); [reflexivity|].
      apply zero_row_entropy; [exact Hnn|lia|exact Hz]. }
    split; [|exact Hnone].
    unfold WorldModelTree._mutual_information.
    destruct (assert _); [cbn [bind]|reflexivity].
    destruct (WorldModelTree._entropy _ false false);
      [cbn [bind]|reflexivity].
    now rewrite Hnone.
Qed.



(** ** worldmodel.py: the first call of add_data *)

Section FirstData.
Variable Obs : Type.

Lemma classify_single_leaf (d : list nat)
    (k : option (WorldModelTree.Knn Obs)) (x : list Obs) :
  WorldModelTree.classify (WorldModelTree.Leaf d k) x
  = WorldModelTree.Ok (repeat 0 (length x)).
Proof.
  unfold WorldModelTree.classify. cbn [WorldModelTree.classify_from].
  induction x as [|row x IH]; [reflexivity|].
  cbn [WorldModelTree.rmapM WorldModelTree.rbind]. rewrite IH.
  reflexivity.
Qed.

Lemma py_index_nat (len i : nat) :
  i < len -> py_index len (Z.of_nat i) = Some i.
Proof.
  intros H. unfold py_index.
  replace ((0 <=? Z.of_nat i)%Z && (Z.of_nat i <? Z.of_nat len)%Z)
    with true
    by (symmetry; apply andb_true_intro; split;
        [apply Z.leb_le|apply Z.ltb_lt]; lia).
  now rewrite Nat2Z.id.
Qed.

Lemma py_get_nat (A : Type) (l : list A) (i : nat) (d : A) :
  i < length l -> WorldModelTree.py_get l (Z.of_nat i) = Some (nth i l d).
Proof.
  intros H. unfold WorldModelTree.py_get.
  rewrite py_index_nat by exact H. cbn [bind].
  now apply nth_error_some.
Qed.

(** The loop that hands the new references to the leaves, on a tree of
    one leaf. *)
Lemma refs_loop_single_leaf (n : nat) (k : option (WorldModelTree.Knn Obs)) :
  forall m first,
    first + m <= n ->
    WorldModelTree.rfoldM
      (fun t i =>
         WorldModelTree.rbind
           (WorldModelTree.lift
              (WorldModelTree.label_at
                 (WorldModelTree.Arr1 (repeat 0%Z n)) (Z.of_nat i)))
           (fun state =>
              WorldModelTree.rbind
                (WorldModelTree.lift
                   (py_index (WorldModelTree.n_leaves t) state))
                (fun leaf =>
                   WorldModelTree.Ok
                     (WorldModelTree.update_leaf
                        (fun d k => WorldModelTree.Leaf (d ++ [i]) k)
                        leaf t))))
      (seq first m) (WorldModelTree.Leaf (seq 0 first) k)
    = WorldModelTree.Ok (WorldModelTree.Leaf (seq 0 (first + m)) k).
Proof.
  induction m as [|m IH]; intros first H.
  - simpl. now rewrite Nat.add_0_r.
  - cbn [seq WorldModelTree.rfoldM WorldModelTree.label_at].
    rewrite (@py_get_nat _ (repeat 0%Z n) first 0%Z)
      by (rewrite repeat_length; lia).
    rewrite nth_repeat_lt by lia.
    cbn [WorldModelTree.lift WorldModelTree.rbind WorldModelTree.n_leaves
         WorldModelTree.update_leaf].
    change (py_index 1 0) with (Some 0).
    cbn [WorldModelTree.lift WorldModelTree.rbind WorldModelTree.update_leaf
         Nat.eqb].
    replace (seq 0 first ++ [first]) with (seq 0 (S first))
      by (rewrite seq_S; reflexivity).
    rewrite IH by lia. now replace (S first + m) with (first + S m) by lia.
Qed.

Lemma action_eqb_sym (a b : action) : action_eqb a b = action_eqb b a.
Proof.
  destruct a as [x|], b as [y|]; simpl; try reflexivity. apply Z.eqb_sym.
Qed.

Lemma update_key_counts (keys : list action) (c : action -> Z) (a : action) :
  NoDup keys -> In a keys ->
  WorldModelTree.update_key a (incr_at 0 0)
    (map (fun k => (k, [[c k]])) keys)
  = Some (map (fun k => (k, [[(c k + (if action_eqb k a then 1 else 0))%Z]]))
              keys).
Proof.
  induction keys as [|k keys IH]; intros Hnd Hin; [destruct Hin|].
  inversion Hnd as [|? ? Hk Hnd']; subst.
  cbn [map WorldModelTree.update_key].
  destruct (action_eqb k a) eqn:E.
  - apply action_eqb_eq in E. subst k.
    change (incr_at 0 0 [[c a]]) with (Some [[(c a + 1)%Z]]).
    cbn [bind]. f_equal. f_equal.
    apply map_ext_in. intros k' Hk'.
    assert (E' : action_eqb k' a = false).
    { destruct (action_eqb k' a) eqn:E'; [|reflexivity].
      apply action_eqb_eq in E'. now subst. }
    now rewrite E', Z.add_0_r.
  - destruct Hin as [->|Hin]; [now rewrite action_eqb_refl in E|].
    rewrite (IH Hnd' Hin). cbn [bind]. now rewrite Z.add_0_r.
Qed.

(** The number of the first [k] actions that are [a]. *)
Lemma counts_step (actions : list action) (a : action) (k : nat) :
  Z.of_nat (length (filter (fun i => action_eqb (nth i actions None) a)
                           (seq 0 (S k))))
  = (Z.of_nat (length (filter (fun i => action_eqb (nth i actions None) a)
                              (seq 0 k)))
     + (if action_eqb a (nth k actions None) then 1 else 0))%Z.
Proof.
  rewrite seq_S, filter_app, length_app. cbn [filter Nat.add].
  rewrite (action_eqb_sym a). destruct (action_eqb _ a); simpl; lia.
Qed.

Section FirstTransitions.
Variables (n : nat) (actions keys : list action).
Hypothesis Hlen : length actions = n.
Hypothesis Hnd : NoDup keys.
Hypothesis Hkeys : forall a, In a actions -> In a keys.

Let body (t : list (action * Matrix)) (i : Z)
  : WorldModelTree.res (list (action * Matrix)) :=
  WorldModelTree.rbind
    (WorldModelTree.lift
       (WorldModelTree.label_at (WorldModelTree.Arr1 (repeat 0%Z n)) i))
    (fun source =>
       WorldModelTree.rbind
         (WorldModelTree.lift
            (WorldModelTree.label_at
               (WorldModelTree.Arr1 (repeat 0%Z n)) (i + 1)))
         (fun target =>
            WorldModelTree.rbind
              (WorldModelTree.lift (WorldModelTree.py_get actions i))
              (fun action =>
                 WorldModelTree.lift
                   (WorldModelTree.update_key action
                      (incr_at source target) t)))).

Lemma body_step (c : action -> Z) (j : nat) :
  S j < n ->
  body (map (fun a => (a, [[c a]])) keys) (0 + Z.of_nat j)%Z
  = WorldModelTree.Ok
      (map (fun a =>
              (a, [[(c a + (if action_eqb a (nth j actions None)
                            then 1 else 0))%Z]])) keys).
Proof.
  intros Hj. unfold body. cbn [Z.add WorldModelTree.label_at].
  rewrite (@py_get_nat _ (repeat 0%Z n) j 0%Z)
    by (rewrite repeat_length; lia).
  replace (Z.of_nat j + 1)%Z with (Z.of_nat (S j)) by lia.
  rewrite (@py_get_nat _ (repeat 0%Z n) (S j) 0%Z)
    by (rewrite repeat_length; lia).
  rewrite !nth_repeat_lt by lia.
  rewrite (@py_get_nat _ actions j None) by lia.
  cbn [WorldModelTree.lift WorldModelTree.rbind].
  rewrite update_key_counts
    by (try exact Hnd; apply Hkeys, nth_In; lia).
  reflexivity.
Qed.

Lemma transitions_loop_single_state :
  forall m first,
    first + m <= n - 1 ->
    WorldModelTree.rfoldM body
      (map (fun k => (0 + Z.of_nat k)%Z) (seq first m))
      (map (fun a =>
              (a, [[Z.of_nat
                      (length (filter
                                 (fun i => action_eqb (nth i actions None) a)
                                 (seq 0 first)))]]))
           keys)
    = WorldModelTree.Ok
        (map (fun a =>
                (a, [[Z.of_nat
                        (length (filter
                                   (fun i => action_eqb (nth i actions None) a)
                                   (seq 0 (first + m))))]]))
             keys).
Proof.
  induction m as [|m IH]; intros first H.
  - simpl. now rewrite Nat.add_0_r.
  - cbn [seq map WorldModelTree.rfoldM].
    rewrite body_step by lia.
    cbn [WorldModelTree.rbind].
    rewrite (map_ext _ _ (fun a => f_equal (fun z => (a, [[z]]))
                                    (eq_sym (counts_step actions a first)))).
    rewrite (IH (S first)) by lia.
    now replace (S first + m) with (first + S m) by lia.
Qed.

End FirstTransitions.

Lemma pad_length (acts : list action) (n : nat) :
  length acts = n \/ S (length acts) = n ->
  length (if length acts <? n then acts ++ [None] else acts) = n.
Proof.
  intros [H|H].
  - replace (length acts <? n) with false
      by (symmetry; apply Nat.ltb_ge; lia). exact H.
  - replace (length acts <? n) with true
      by (symmetry; apply Nat.ltb_lt; lia).
    rewrite length_app. simpl. lia.
Qed.

Lemma add_data_fresh (x : list Obs) (acts : list action) :
  length acts = length x \/ S (length acts) = length x ->
  WorldModelTree.add_data (WorldModelTree.__init__ Obs) x (Some acts)
  = WorldModelTree.Ok
      {| WorldModelTree.tree := WorldModelTree.Leaf (seq 0 (length x)) None;
         WorldModelTree.data := Some x;
         WorldModelTree.labels :=
           WorldModelTree.Arr1 (repeat 0%Z (length x));
         WorldModelTree.actions :=
           if length acts <? length x then acts ++ [None] else acts;
         WorldModelTree.transitions :=
           Some (map (fun a =>
                        (a, [[transitions_with (repeat 0%Z (length x))
                                (if length acts <? length x
                                 then acts ++ [None] else acts) a]]))
                     (WorldModelTree.set_of
                        (if length acts <? length x
                         then acts ++ [None] else acts)));
         WorldModelTree.stats := [] |}.
Proof.
  intros Hl. pose proof (pad_length acts Hl) as Hp.
  set (actions := if length acts <? length x then acts ++ [None] else acts)
    in *.
  unfold WorldModelTree.add_data.
  cbn [WorldModelTree.__init__ WorldModelTree.tree WorldModelTree.data
       WorldModelTree.labels WorldModelTree.actions
       WorldModelTree.transitions WorldModelTree.stats].
  rewrite classify_single_leaf. cbn [WorldModelTree.rbind].
  fold actions. rewrite Hp, Nat.eqb_refl.
  cbn [assert WorldModelTree.lift WorldModelTree.rbind].
  rewrite map_repeat. change (Z.of_nat 0) with 0%Z.
  rewrite Nat.sub_0_r.
  pose proof (@refs_loop_single_leaf (length x) None (length x) 0
                (le_n _)) as Hrefs.
  change (seq 0 0) with (@nil nat) in Hrefs.
  rewrite Hrefs.
  cbn [WorldModelTree.rbind WorldModelTree.n_leaves Nat.add].
  unfold WorldModelTree.range2.
  pose proof (@transitions_loop_single_state (length x) actions
                (WorldModelTree.set_of actions) Hp
                (NoDup_nodup action_eq_dec actions)
                (fun a Ha => proj2 (nodup_In action_eq_dec actions a) Ha)
                (length x - 1) 0) as Hloop.
  cbv zeta in Hloop.
  replace (Z.to_nat (Z.of_nat (length x) - 1 - 0)) with (length x - 1)
    by lia.
  cbn [seq filter length Nat.add] in Hloop.
  change (zeros 1 1) with [[0%Z]].
  change (Z.of_nat 0) with 0%Z in Hloop.
  match goal with
  | |- WorldModelTree.rbind ?m _ = _ =>
      assert (E : m = WorldModelTree.Ok
                        (map (fun a =>
                                (a, [[transitions_with
                                        (repeat 0%Z (length x)) actions a]]))
                             (WorldModelTree.set_of actions)))
  end.
  { unfold transitions_with. rewrite repeat_length.
    apply Hloop. lia. }
  rewrite E. reflexivity.
Qed.

Lemma firstn_succ (A : Type) (l : list A) (k : nat) (d : A) :
  k < length l -> firstn (S k) l = firstn k l ++ [nth k l d].
Proof.
  revert k. induction l as [|x l IH]; intros k H; [simpl in H; lia|].
  destruct k as [|k]; [reflexivity|].
  simpl in H. cbn [firstn nth app]. f_equal.
  rewrite <- IH by lia. reflexivity.
Qed.

Lemma count_first_actions (actions : list action) (a : action) (k : nat) :
  k <= length actions ->
  length (filter (fun i => action_eqb (nth i actions None) a) (seq 0 k))
  = count_occ action_eq_dec (firstn k actions) a.
Proof.
  induction k as [|k IH]; intros H; [reflexivity|].
  rewrite seq_S, filter_app, length_app, IH by lia.
  rewrite (@firstn_succ _ actions k None) by lia.
  rewrite count_occ_app. f_equal. cbn [filter Nat.add count_occ].
  destruct (action_eq_dec (nth k actions None) a) as [E|E].
  - rewrite (proj2 (action_eqb_eq _ _) E). reflexivity.
  - destruct (action_eqb (nth k actions None) a) eqn:Eb; [|reflexivity].
    now apply action_eqb_eq in Eb.
Qed.

(** The first call of [add_data], with [N] observations and [N] or
    [N - 1] actions: it succeeds; the observations are stored, in the
    single state 0 and referenced by the single leaf; an action list
    that is one short is closed by the unknown action; every action of
    the list is a key of the transition matrices, and its matrix holds
    the number of its occurrences among the first [N - 1] actions, so
    that the last action (the unknown one, when the list was one
    short) is not counted. *)
Theorem add_data_first_call_counts (x : list Obs) (acts : list action) :
  length acts = length x \/ S (length acts) = length x ->
  exists root T,
    WorldModelTree.add_data (WorldModelTree.__init__ Obs) x (Some acts)
    = WorldModelTree.Ok root
    /\ WorldModelTree.tree root
       = WorldModelTree.Leaf (seq 0 (length x)) None
    /\ WorldModelTree.data root = Some x
    /\ WorldModelTree.labels root
       = WorldModelTree.Arr1 (repeat 0%Z (length x))
    /\ WorldModelTree.actions root
       = (if length acts <? length x then acts ++ [None] else acts)
    /\ WorldModelTree.transitions root = Some T
    /\ (forall a, In a (WorldModelTree.actions root) ->
          lookup a T
          = Some [[Z.of_nat
                     (count_occ action_eq_dec
                        (firstn (length x - 1) (WorldModelTree.actions root))
                        a)]])
    /\ (S (length acts) = length x ->
        firstn (length x - 1) (WorldModelTree.actions root) = acts).
Proof.
  intros Hl. pose proof (pad_length acts Hl) as Hp.
  eexists. eexists. split; [exact (@add_data_fresh x acts Hl)|].
  cbn [WorldModelTree.tree WorldModelTree.data WorldModelTree.labels
       WorldModelTree.actions WorldModelTree.transitions].
  do 5 (split; [reflexivity|]). split.
  - intros a Ha.
    rewrite (@lookup_map _ _ _ a)
      by (apply nodup_In; exact Ha).
    unfold transitions_with. rewrite repeat_length.
    rewrite count_first_actions by lia. reflexivity.
  - intros Hs.
    replace (length acts <? length x) with true
      by (symmetry; apply Nat.ltb_lt; lia).
    replace (length x - 1) with (length acts) by lia.
    rewrite firstn_app, Nat.sub_diag, firstn_all. simpl.
    apply app_nil_r.
Qed.

End FirstData.

Lemma add_data_first_call_counts_witness :
  exists root T,
    WorldModelTree.add_data (WorldModelTree.__init__ unit) [tt; tt; tt]
      (Some [Some 1%Z; Some 2%Z])
    = WorldModelTree.Ok root
    /\ WorldModelTree.tree root = WorldModelTree.Leaf (seq 0 3) None
    /\ WorldModelTree.data root = Some [tt; tt; tt]
    /\ WorldModelTree.labels root = WorldModelTree.Arr1 (repeat 0%Z 3)
    /\ WorldModelTree.actions root = [Some 1%Z; Some 2%Z; None]
    /\ WorldModelTree.transitions root = Some T
    /\ (forall a, In a (WorldModelTree.actions root) ->
          lookup a T
          = Some [[Z.of_nat
                     (count_occ action_eq_dec
                        (firstn (3 - 1) (WorldModelTree.actions root)) a)]])
    /\ (S 2 = 3 ->
        firstn (3 - 1) (WorldModelTree.actions root)
        = [Some 1%Z; Some 2%Z]).
Proof.
  apply (@add_data_first_call_counts unit [tt; tt; tt]
           [Some 1%Z; Some 2%Z]).
  right. reflexivity.
Defined.

(** [add_data] refuses an action list that has neither as many entries
    as there are observations nor one less, in whatever state the
    model is. *)
Theorem add_data_refuses_lengths (Obs : Type)
    (root : WorldModelTree.Root Obs) (x : list Obs) (actions : list action) :
  length actions <> length x -> S (length actions) <> length x ->
  exists e, WorldModelTree.add_data root x (Some actions)
            = WorldModelTree.Raise e.
Proof. exact (@add_data_length_mismatch Obs root x actions). Qed.

Lemma add_data_refuses_lengths_witness :
  exists e,
    WorldModelTree.add_data (WorldModelTree.__init__ unit) [tt; tt; tt]
      (Some [Some 1%Z])
    = WorldModelTree.Raise e.
Proof.
  apply (@add_data_refuses_lengths unit (WorldModelTree.__init__ unit)
           [tt; tt; tt] [Some 1%Z]); simpl; lia.
Defined.

(** ** worldmodel.py: rounds of splitting *)

Section Rounds.
Variable Obs : Type.
Variable spectral_partition :
  list nat -> list Obs -> WorldModelTree.res (list R).
Variable knn_train : list Obs -> list bool -> WorldModelTree.Knn Obs.

Local Abbreviation leaf_loop :=
  (WorldModelTree.leaf_loop spectral_partition knn_train).
Local Abbreviation single_splitting_step :=
  (WorldModelTree.single_splitting_step spectral_partition knn_train).
Local Abbreviation learn_loop :=
  (WorldModelTree.learn_loop spectral_partition knn_train).

Lemma length_get_leaves (t : WorldModelTree.Node Obs) :
  length (WorldModelTree.get_leaves t) = WorldModelTree.n_leaves t.
Proof.
  induction t as [d k|k a IHa b IHb]; simpl; [reflexivity|].
  rewrite length_app. lia.
Qed.

Lemma n_leaves_pos (t : WorldModelTree.Node Obs) :
  0 < WorldModelTree.n_leaves t.
Proof. induction t; simpl; lia. Qed.

Lemma n_leaves_update_leaf (f : list nat -> option (WorldModelTree.Knn Obs)
                                -> WorldModelTree.Node Obs)
    (c : nat) (t : WorldModelTree.Node Obs) :
  (forall d k, WorldModelTree.n_leaves (f d k) = c) ->
  forall i, i < WorldModelTree.n_leaves t ->
    WorldModelTree.n_leaves (WorldModelTree.update_leaf f i t) + 1
    = WorldModelTree.n_leaves t + c.
Proof.
  intros Hf. induction t as [d k|k a IHa b IHb]; intros i Hi.
  - simpl in Hi. replace i with 0 by lia. simpl. rewrite Hf. lia.
  - simpl in Hi. cbn [WorldModelTree.update_leaf].
    destruct (Nat.ltb_spec i (WorldModelTree.n_leaves a)) as [Hlt|Hge].
    + cbn [WorldModelTree.n_leaves]. specialize (IHa i Hlt). lia.
    + cbn [WorldModelTree.n_leaves].
      specialize (IHb (i - WorldModelTree.n_leaves a)). lia.
Qed.

Lemma nth_error_leaf (t : WorldModelTree.Node Obs) (i : nat)
    (leaf : list nat * option (WorldModelTree.Knn Obs)) :
  WorldModelTree.lift (nth_error (WorldModelTree.get_leaves t) i)
  = WorldModelTree.Ok leaf ->
  i < WorldModelTree.n_leaves t /\ In leaf (WorldModelTree.get_leaves t).
Proof.
  intros H. apply lift_ok in H. split.
  - rewrite <- length_get_leaves. apply nth_error_Some. congruence.
  - eapply nth_error_In; eauto.
Qed.

(** What the evaluation of the leaves leaves as it is. *)
Lemma leaf_loop_keeps (indices : list nat) :
  forall root best_gain best root' gain best',
    leaf_loop root indices best_gain best
    = WorldModelTree.Ok (root', gain, best') ->
    WorldModelTree.data root' = WorldModelTree.data root
    /\ WorldModelTree.labels root' = WorldModelTree.labels root
    /\ WorldModelTree.actions root' = WorldModelTree.actions root
    /\ WorldModelTree.transitions root' = WorldModelTree.transitions root
    /\ WorldModelTree.stats root' = WorldModelTree.stats root
    /\ WorldModelTree.n_leaves (WorldModelTree.tree root')
       = WorldModelTree.n_leaves (WorldModelTree.tree root).
Proof.
  induction indices as [|index indices IH];
    intros root bg best root' gain best' H.
  - cbn in H. injection H as <- _ _. auto 6.
  - cbn [WorldModelTree.leaf_loop] in H.
    destruct (WorldModelTree.lift
                (nth_error (WorldModelTree.get_leaves
                              (WorldModelTree.tree root)) index))
      as [leaf|] eqn:El;
      [cbn [WorldModelTree.rbind] in H|discriminate H].
    destruct (WorldModelTree._reached_min_sample_size root (fst leaf))
      as [reached|] eqn:Er;
      [cbn [WorldModelTree.rbind] in H|discriminate H].
    destruct reached; [|exact (IH _ _ _ _ _ _ H)].
    destruct (WorldModelTree._calculate_splitting_gain _ _ root index)
      as [r|] eqn:Ec;
      [cbn [WorldModelTree.rbind] in H|discriminate H].
    destruct (nth_error_leaf _ _ El) as [Hi _].
    assert (Hn : WorldModelTree.n_leaves
                   (WorldModelTree.update_leaf
                      (fun d _ => WorldModelTree.Leaf d (snd r)) index
                      (WorldModelTree.tree root))
                 = WorldModelTree.n_leaves (WorldModelTree.tree root)).
    { pose proof (@n_leaves_update_leaf
                    (fun d _ => WorldModelTree.Leaf d (snd r)) 1
                    (WorldModelTree.tree root) (fun _ _ => eq_refl)
                    index Hi). lia. }
    destruct (WorldModelTree.gain_gtb (fst (fst r)) bg);
      apply IH in H; cbn [WorldModelTree.data WorldModelTree.labels
                          WorldModelTree.actions WorldModelTree.transitions
                          WorldModelTree.stats WorldModelTree.tree] in H;
      rewrite Hn in H; exact H.
Qed.

Lemma labels_len_like (l : WorldModelTree.Labels) (v : list Z) :
  WorldModelTree.labels_len (WorldModelTree.like l v) = length v.
Proof. destruct l; simpl; [reflexivity|apply length_map]. Qed.

Lemma relabel_data_length (root : WorldModelTree.Root Obs)
    (current_state : nat) (refs : list nat)
    (knn : option (WorldModelTree.Knn Obs)) (new_labels : list Z)
    (new_dat_ref : list nat * list nat) :
  WorldModelTree._relabel_data root current_state refs knn
  = WorldModelTree.Ok (Some (new_labels, new_dat_ref)) ->
  length new_labels = WorldModelTree.labels_len (WorldModelTree.labels root).
Proof.
  unfold WorldModelTree._relabel_data. intros H.
  destruct (WorldModelTree.lift (WorldModelTree.scalars _));
    [cbn [WorldModelTree.rbind] in H | discriminate H].
  destruct (WorldModelTree.rfoldM _ _ _) as [[nl [d0 d1]]|];
    [cbn [WorldModelTree.rbind fst snd] in H | discriminate H].
  destruct (length nl =? _) eqn:E; [|discriminate H].
  cbn [assert WorldModelTree.lift WorldModelTree.rbind] in H.
  destruct (0 <? length d0); [|discriminate H].
  cbn [assert WorldModelTree.lift WorldModelTree.rbind] in H.
  destruct (0 <? length d1); [|discriminate H].
  cbn [assert WorldModelTree.lift WorldModelTree.rbind] in H.
  destruct (_ || _); [discriminate H|].
  injection H as <- _. now apply Nat.eqb_eq.
Qed.

(** What [split] changes. *)
Lemma split_keeps (root r : WorldModelTree.Root Obs) (index : nat) :
  WorldModelTree.split root index = WorldModelTree.Ok r ->
  WorldModelTree.data r = WorldModelTree.data root
  /\ WorldModelTree.actions r = WorldModelTree.actions root
  /\ WorldModelTree.stats r = WorldModelTree.stats root
  /\ WorldModelTree.labels_len (WorldModelTree.labels r)
     = WorldModelTree.labels_len (WorldModelTree.labels root)
  /\ WorldModelTree.n_leaves (WorldModelTree.tree r)
     = S (WorldModelTree.n_leaves (WorldModelTree.tree root)).
Proof.
  unfold WorldModelTree.split. intros H.
  destruct (WorldModelTree.lift
              (nth_error (WorldModelTree.get_leaves
                            (WorldModelTree.tree root)) index))
    as [leaf|] eqn:El;
    [cbn [WorldModelTree.rbind] in H|discriminate H].
  destruct (WorldModelTree._relabel_data root index (fst leaf) (snd leaf))
    as [[[nl dr]|]|] eqn:Er;
    try discriminate H.
  cbn [WorldModelTree.lift WorldModelTree.rbind fst snd] in H.
  destruct (WorldModelTree._split_transition_matrices root nl index)
    as [nt|]; [cbn [WorldModelTree.rbind] in H|discriminate H].
  injection H as <-.
  cbn [WorldModelTree.data WorldModelTree.actions WorldModelTree.stats
       WorldModelTree.labels WorldModelTree.tree].
  destruct (nth_error_leaf _ _ El) as [Hi _].
  repeat split.
  - rewrite labels_len_like. exact (relabel_data_length _ _ _ _ Er).
  - pose proof (@n_leaves_update_leaf
                  (fun _ knn =>
                     WorldModelTree.Split knn
                       (WorldModelTree.Leaf (fst dr) None)
                       (WorldModelTree.Leaf (snd dr) None)) 2
                  (WorldModelTree.tree root) (fun _ _ => eq_refl)
                  index Hi). lia.
Qed.


(** With [min_gain = -inf] the loop of [learn] never ends: whatever
    the number of rounds, it has raised or is still running. *)
Theorem learn_loop_never_ends (fuel : nat) (root r : WorldModelTree.Root Obs) :
  learn_loop fuel root WorldModelTree.NegInf <> WorldModelTree.Ok (Some r)
  /\ WorldModelTree.learn spectral_partition knn_train fuel root
       WorldModelTree.NegInf
     <> WorldModelTree.Ok (Some r).
Proof.
  assert (Hloop : forall fuel root,
            learn_loop fuel root WorldModelTree.NegInf
            <> WorldModelTree.Ok (Some r)).
  { clear. induction fuel as [|fuel IH]; intros root.
    - discriminate.
    - cbn [WorldModelTree.learn_loop].
      destruct (single_splitting_step root WorldModelTree.NegInf)
        as [[root' g]|]; [cbn [WorldModelTree.rbind fst snd]|discriminate].
      replace (WorldModelTree.gain_geb g WorldModelTree.NegInf) with true
        by now destruct g.
      apply IH. }
  split; [apply Hloop|].
  unfold WorldModelTree.learn.
  destruct (length (WorldModelTree.stats root) =? 0).
  - destruct (WorldModelTree._calc_stats _ _);
      [cbn [WorldModelTree.rbind]; apply Hloop|discriminate].
  - cbn [WorldModelTree.rbind]. apply Hloop.
Qed.

Lemma min_sample_false (root : WorldModelTree.Root Obs) (refs : list nat)
    (keys : list action) :
  (exists z, In (Some z) keys) ->
  length refs < WorldModelTree._min_class_size ->
  forallb (fun r => r <? length (WorldModelTree.actions root)) refs = true ->
  WorldModelTree.min_sample_loop root refs keys = WorldModelTree.Ok false.
Proof.
  intros [z Hz] Hlen Hrange.
  induction keys as [|[k|] keys IH]; [destruct Hz| |].
  - cbn [WorldModelTree.min_sample_loop
         WorldModelTree.get_transition_refs_strict].
    unfold take. rewrite Hrange.
    cbn [WorldModelTree.lift WorldModelTree.rbind].
    match goal with
    | |- context [length (filter ?p refs) <? ?c] =>
        pose proof (filter_length_le p refs) as Hf;
        replace (length (filter p refs) <? c) with true
          by (symmetry; apply Nat.ltb_lt; lia)
    end.
    reflexivity.
  - cbn [WorldModelTree.min_sample_loop]. apply IH.
    destruct Hz as [Hz|Hz]; [discriminate|exact Hz].
Qed.

Section SmallLeaves.
Variable root : WorldModelTree.Root Obs.
Variable own : list (action * Matrix).
Hypothesis Hown : WorldModelTree.transitions root = Some own.
Hypothesis Hkey : exists z, In (Some z) (map fst own).
Hypothesis Hsmall :
  forall leaf, In leaf (WorldModelTree.get_leaves (WorldModelTree.tree root)) ->
    length (fst leaf) < WorldModelTree._min_class_size
    /\ forallb (fun r => r <? length (WorldModelTree.actions root)) (fst leaf)
       = true.

Lemma leaf_loop_small (indices : list nat) :
  Forall (fun i => i < WorldModelTree.n_leaves (WorldModelTree.tree root))
         indices ->
  forall best_gain best,
    leaf_loop root indices best_gain best
    = WorldModelTree.Ok (root, best_gain, best).
Proof.
  induction 1 as [|index indices Hi _ IH]; intros bg best; [reflexivity|].
  cbn [WorldModelTree.leaf_loop].
  rewrite <- length_get_leaves in Hi.
  destruct (nth_error (WorldModelTree.get_leaves (WorldModelTree.tree root))
              index) as [leaf|] eqn:El;
    [|apply nth_error_None in El; lia].
  cbn [WorldModelTree.lift WorldModelTree.rbind].
  destruct (Hsmall leaf (nth_error_In _ _ El)) as [Hlen Hrange].
  unfold WorldModelTree._reached_min_sample_size. rewrite Hown.
  cbn [WorldModelTree.lift WorldModelTree.rbind].
  rewrite (@min_sample_false root (fst leaf) _ Hkey Hlen Hrange).
  cbn [WorldModelTree.rbind]. apply IH.
Qed.

Lemma single_step_small (min_gain : WorldModelTree.Gain) :
  single_splitting_step root min_gain
  = WorldModelTree.Ok (root, WorldModelTree.NegInf).
Proof.
  unfold WorldModelTree.single_splitting_step.
  rewrite leaf_loop_small; [reflexivity|].
  apply Forall_forall. intros i Hi. apply in_seq in Hi. lia.
Qed.

End SmallLeaves.

(** A model none of whose leaves holds [_min_class_size] (50)
    references is not split: when some action is known and the
    references are samples of the model, [single_splitting_step]
    evaluates no candidate, returns [-inf] and leaves the model as it
    is, and the loop of [learn] with a finite [min_gain] ends after its
    first round. *)
Theorem small_leaves_not_split (root : WorldModelTree.Root Obs)
    (own : list (action * Matrix)) (min_gain : WorldModelTree.Gain) :
  WorldModelTree.transitions root = Some own ->
  (exists z, In (Some z) (map fst own)) ->
  (forall leaf,
      In leaf (WorldModelTree.get_leaves (WorldModelTree.tree root)) ->
      length (fst leaf) < WorldModelTree._min_class_size
      /\ forallb (fun r => r <? length (WorldModelTree.actions root))
                 (fst leaf) = true) ->
  single_splitting_step root min_gain
  = WorldModelTree.Ok (root, WorldModelTree.NegInf)
  /\ forall fuel g,
       learn_loop (S fuel) root (WorldModelTree.Fin g)
       = WorldModelTree.Ok (Some root).
Proof.
  intros Hown Hkey Hsmall. split.
  - exact (@single_step_small root own Hown Hkey Hsmall min_gain).
  - intros fuel g. cbn [WorldModelTree.learn_loop].
    rewrite (@single_step_small root own Hown Hkey Hsmall (WorldModelTree.Fin g)).
    reflexivity.
Qed.

End Rounds.

Lemma small_leaves_not_split_witness :
  WorldModelTree.single_splitting_step sample_spectral sample_knn_train
    sample_root WorldModelTree.NegInf
  = WorldModelTree.Ok (sample_root, WorldModelTree.NegInf)
  /\ forall fuel g,
       WorldModelTree.learn_loop sample_spectral sample_knn_train
         (S fuel) sample_root (WorldModelTree.Fin g)
       = WorldModelTree.Ok (Some sample_root).
Proof.
  apply (@small_leaves_not_split nat sample_spectral sample_knn_train
           sample_root [(Some 1%Z, [[2%Z]]); (None, [[0%Z]])]
           WorldModelTree.NegInf).
  - reflexivity.
  - exists 1%Z. simpl. auto.
  - intros leaf [<-|[]]. split; [vm_compute; lia|reflexivity].
Defined.



(** ** The legacy split of the transition matrices *)

Lemma cell_incr_cell (s t : nat) (M : Matrix) (n s' t' : nat) :
  shape M n n -> s < n -> t < n ->
  cell (incr_cell s t M) s' t' =
  Z.add (cell M s' t') (if (s' =? s) && (t' =? t) then 1%Z else 0%Z).
Proof.
  intros H Hs Ht. unfold incr_cell.
  rewrite (@cell_set_cell s t _ M n n s' t' H Hs Ht).
  destruct ((s' =? s) && (t' =? t)) eqn:E; [|lia].
  apply andb_prop in E as [E1 E2]. apply Nat.eqb_eq in E1, E2. now subst.
Qed.

Lemma incr_at_nat (s t : nat) (M : Matrix) (n : nat) :
  shape M n n -> s < n -> t < n ->
  incr_at (Z.of_nat s) (Z.of_nat t) M = Some (incr_cell s t M).
Proof.
  intros H Hs Ht. unfold incr_at, nrows.
  rewrite (shape_ncols H) by lia. destruct H as [-> _].
  now rewrite !py_index_nat.
Qed.

Section LegacySplit.
Variable Obs : Type.
Variable root : WorldModelTree.Root Obs.
Variables (labels : list Z) (K i1 : nat) (t : nat -> Z).
Hypothesis Hlabels : WorldModelTree.labels root = WorldModelTree.Arr1 labels.
Hypothesis Hrange : labels_in_range K labels = true.
Hypothesis Hi1 : i1 < K.
Hypothesis Ht : forall r, t r = 0%Z \/ t r = 1%Z.
Hypothesis Hactions : length (WorldModelTree.actions root) = length labels.

Let new := relabelled i1 t labels.
Let actions := WorldModelTree.actions root.

Let touched (i : nat) : bool :=
  ((nth i labels 0 =? Z.of_nat i1) || (nth (S i) labels 0 =? Z.of_nat i1))%Z.

Let body (a : action) (new_trans : Matrix) (i : Z) : WorldModelTree.res Matrix :=
  WorldModelTree.rbind
    (WorldModelTree.lift (WorldModelTree.label_at (WorldModelTree.labels root) i))
    (fun source =>
  WorldModelTree.rbind
    (WorldModelTree.lift
       (WorldModelTree.label_at (WorldModelTree.labels root) (i + 1)))
    (fun target =>
  WorldModelTree.rbind
    (WorldModelTree.lift (WorldModelTree.py_get (WorldModelTree.actions root) i))
    (fun act =>
       if action_eqb act a
       then
         if (source =? Z.of_nat i1)%Z || (target =? Z.of_nat i1)%Z
         then
           WorldModelTree.rbind
             (WorldModelTree.lift (WorldModelTree.py_get new i))
             (fun new_source =>
           WorldModelTree.rbind
             (WorldModelTree.lift (WorldModelTree.py_get new (i + 1)))
             (fun new_target =>
                WorldModelTree.lift (incr_at new_source new_target new_trans)))
         else WorldModelTree.Ok new_trans
       else WorldModelTree.Ok new_trans))).

Lemma new_nat (i : nat) :
  i < length labels ->
  nth i new 0%Z = Z.of_nat (Z.to_nat (nth i new 0%Z))
  /\ Z.to_nat (nth i new 0%Z) < S K.
Proof.
  intros Hi.
  pose proof (@relabelled_in_range labels i1 K t Hrange Hi1 Ht) as Hr.
  assert (Hi' : i < length (relabelled i1 t labels))
    by now rewrite length_relabelled.
  pose proof (@nth_in_range (S K) _ i Hr Hi') as Hn. fold new in Hn. lia.
Qed.

Lemma split_body_step (a : action) (M : Matrix) (i : nat) :
  shape M (S K) (S K) -> S i < length labels ->
  body a M (Z.of_nat i) =
  WorldModelTree.Ok
    (if action_eqb (nth i actions None) a && touched i
     then incr_cell (Z.to_nat (nth i new 0%Z)) (Z.to_nat (nth (S i) new 0%Z)) M
     else M).
Proof.
  intros HM Hi. unfold body.
  replace (Z.of_nat i + 1)%Z with (Z.of_nat (S i)) by lia.
  rewrite Hlabels. cbn [WorldModelTree.label_at].
  rewrite (@py_get_nat Z labels i 0%Z) by lia.
  rewrite (@py_get_nat Z labels (S i) 0%Z) by lia.
  rewrite (@py_get_nat (option Z) (WorldModelTree.actions root) i None)
    by (rewrite Hactions; lia).
  cbn [WorldModelTree.lift WorldModelTree.rbind]. fold actions.
  destruct (action_eqb (nth i actions None) a); [|reflexivity].
  cbn [andb]. fold (touched i).
  destruct (touched i); [|reflexivity].
  assert (Hl : length new = length labels)
    by (unfold new; apply length_relabelled).
  rewrite (@py_get_nat Z new i 0%Z) by lia.
  rewrite (@py_get_nat Z new (S i) 0%Z) by lia.
  cbn [WorldModelTree.lift WorldModelTree.rbind].
  destruct (@new_nat i) as [E1 B1]; [lia|].
  destruct (@new_nat (S i)) as [E2 B2]; [lia|].
  rewrite E1 at 1. rewrite E2 at 1.
  now rewrite (@incr_at_nat _ _ M (S K) HM B1 B2).
Qed.

Lemma split_loop (a : action) (l : list nat) :
  (forall i, In i l -> S i < length labels) ->
  forall M, shape M (S K) (S K) ->
  exists M',
    WorldModelTree.rfoldM (body a) (map Z.of_nat l) M = WorldModelTree.Ok M'
    /\ shape M' (S K) (S K)
    /\ forall s u,
         cell M' s u =
         (cell M s u
          + Z.of_nat (length (filter
              (fun i => touched i && is_transition new actions a s u i) l)))%Z.
Proof.
  induction l as [|i l IH]; intros Hl M HM.
  - exists M. split; [reflexivity|]. split; [exact HM|].
    intros s u. cbn [filter length]. lia.
  - cbn [map WorldModelTree.rfoldM].
    rewrite (@split_body_step a M i HM) by (apply Hl; now left).
    cbn [WorldModelTree.rbind].
    destruct (@new_nat i) as [E1 B1]; [specialize (Hl i (or_introl eq_refl)); lia|].
    destruct (@new_nat (S i)) as [E2 B2]; [specialize (Hl i (or_introl eq_refl)); lia|].
    match goal with
    | |- context [WorldModelTree.rfoldM _ _ ?m] => set (M1 := m)
    end.
    assert (HM1 : shape M1 (S K) (S K)).
    { unfold M1. destruct (_ && _); [|exact HM].
      unfold incr_cell. now apply shape_set_cell. }
    destruct (IH (fun j Hj => Hl j (or_intror Hj)) M1 HM1) as [M' [E [HM' Hc]]].
    exists M'. split; [exact E|]. split; [exact HM'|].
    intros s u. rewrite Hc. cbn [filter].
    assert (Hcell : cell M1 s u =
                    (cell M s u
                     + if touched i && is_transition new actions a s u i
                       then 1 else 0)%Z).
    { unfold M1, is_transition.
      destruct (action_eqb (nth i actions None) a); cbn [andb];
        [|rewrite !andb_false_r; lia].
      destruct (touched i); cbn [andb]; [|lia].
      rewrite (@cell_incr_cell _ _ M (S K) s u HM B1 B2).
      rewrite andb_true_r. f_equal.
      replace (s =? Z.to_nat (nth i new 0%Z))
        with (nth i new 0 =? Z.of_nat s)%Z
        by (rewrite E1 at 1; cmp_Z; cmp_nat; try reflexivity; lia).
      replace (u =? Z.to_nat (nth (S i) new 0%Z))
        with (nth (S i) new 0 =? Z.of_nat u)%Z
        by (rewrite E2 at 1; cmp_Z; cmp_nat; try reflexivity; lia).
      reflexivity. }
    rewrite Hcell.
    destruct (touched i && is_transition new actions a s u i);
      cbn [length]; lia.
Qed.

Lemma touched_children (a : action) (s u i : nat) :
  S i < length labels ->
  s = i1 \/ s = S i1 \/ u = i1 \/ u = S i1 ->
  is_transition new actions a s u i = true -> touched i = true.
Proof.
  intros Hi Hsu H. unfold is_transition in H.
  apply andb_prop in H as [H _]. apply andb_prop in H as [H1 H2].
  apply Z.eqb_eq in H1, H2. unfold touched. apply orb_true_iff.
  destruct Hsu as [Hs|[Hs|[Hu|Hu]]].
  - left. apply Z.eqb_eq.
    apply (@relabelled_child labels i1 K t Hrange Hi1 Ht i s); [lia|auto|exact H1].
  - left. apply Z.eqb_eq.
    apply (@relabelled_child labels i1 K t Hrange Hi1 Ht i s); [lia|auto|exact H1].
  - right. apply Z.eqb_eq.
    apply (@relabelled_child labels i1 K t Hrange Hi1 Ht (S i) u); [lia|auto|exact H2].
  - right. apply Z.eqb_eq.
    apply (@relabelled_child labels i1 K t Hrange Hi1 Ht (S i) u); [lia|auto|exact H2].
Qed.

Lemma untouched_others (a : action) (s u i : nat) :
  S i < length labels ->
  s <> i1 -> s <> S i1 -> u <> i1 -> u <> S i1 ->
  touched i && is_transition new actions a s u i = false.
Proof.
  intros Hi Hs1 Hs2 Hu1 Hu2.
  destruct (touched i) eqn:E; [cbn [andb]|reflexivity].
  unfold is_transition, new.
  rewrite (@relabelled_other labels i1 K t Hrange Hi1 Ht i s) by (auto; lia).
  rewrite (@relabelled_other labels i1 K t Hrange Hi1 Ht (S i) u) by (auto; lia).
  unfold touched in E. unfold unshift.
  apply orb_prop in E as [E|E]; apply Z.eqb_eq in E; rewrite E.
  - destruct (s <? i1) eqn:Es;
      [apply Nat.ltb_lt in Es|apply Nat.ltb_ge in Es];
      (destruct (Z.eqb_spec (Z.of_nat i1) (Z.of_nat s));
       [lia|reflexivity])
      || (destruct (Z.eqb_spec (Z.of_nat i1) (Z.of_nat (s - 1)));
          [lia|reflexivity]).
  - destruct (u <? i1) eqn:Eu;
      [apply Nat.ltb_lt in Eu|apply Nat.ltb_ge in Eu];
      (destruct (Z.eqb_spec (Z.of_nat i1) (Z.of_nat u));
       [lia|now rewrite andb_false_r])
      || (destruct (Z.eqb_spec (Z.of_nat i1) (Z.of_nat (u - 1)));
          [lia|now rewrite andb_false_r]).
Qed.

Lemma split_transition_matrix_some (a : action)
    (own : list (action * Matrix)) :
  WorldModelTree.n_leaves (WorldModelTree.tree root) = K ->
  WorldModelTree.transitions root = Some own ->
  lookup a own = Some (recount K labels actions a) ->
  py_max new = Some (Z.of_nat K) ->
  WorldModelTree._split_transition_matrix root a new i1
  = WorldModelTree.Ok (recount (S K) new actions a).
Proof.
  intros HK Hown Hlook Hmax.
  unfold WorldModelTree._split_transition_matrix.
  rewrite HK, Hown.
  replace (i1 <? K) with true by (symmetry; now apply Nat.ltb_lt).
  cbn [assert WorldModelTree.lift WorldModelTree.rbind].
  fold actions in Hlook |- *.
  rewrite Hlook. cbn [WorldModelTree.lift WorldModelTree.rbind].
  rewrite Hmax. cbn [WorldModelTree.lift WorldModelTree.rbind].
  replace (nrows (recount K labels actions a)) with K
    by (unfold nrows, recount; now rewrite length_map, length_seq).
  rewrite Z.eqb_refl.
  cbn [assert WorldModelTree.lift WorldModelTree.rbind].
  rewrite (split_row_col_some (shape_recount K labels actions a) Hi1).
  cbn [WorldModelTree.lift WorldModelTree.rbind].
  set (M0 := insert_col i1 _).
  assert (S0 : shape M0 (S K) (S K)).
  { apply (@shape_split_row_col (recount K labels actions a) K i1 i1 M0).
    - apply shape_recount.
    - apply (split_row_col_some (shape_recount K labels actions a) Hi1). }
  assert (Hl : length new = length labels)
    by (unfold new; apply length_relabelled).
  replace (WorldModelTree.range2 0 (Z.of_nat (length new) - 1))
    with (map Z.of_nat (seq 0 (length labels - 1))).
  2:{ unfold WorldModelTree.range2. rewrite Hl.
      replace (Z.to_nat (Z.of_nat (length labels) - 1 - 0))
        with (length labels - 1) by lia.
      reflexivity. }
  destruct (@split_loop a (seq 0 (length labels - 1))) with (M := M0)
    as [M' [E [HM' Hc]]]; [|exact S0|].
  { intros i Hi. apply in_seq in Hi. lia. }
  transitivity (WorldModelTree.Ok M'); [exact E|]. f_equal.
  apply (matrix_ext HM' (shape_recount (S K) new actions a)).
  intros s u Hs Hu. rewrite cell_recount by assumption.
  rewrite Hc. unfold M0. rewrite cell_split_row_col.
  destruct ((s =? i1) || (s =? S i1) || (u =? i1) || (u =? S i1)) eqn:Ec.
  - unfold transition_count. rewrite Hl. rewrite Z.add_0_l. do 2 f_equal.
    apply filter_ext_in. intros i Hi. apply in_seq in Hi.
    destruct (is_transition new actions a s u i) eqn:Ei;
      [|now rewrite andb_false_r].
    rewrite (@touched_children a s u i); [reflexivity|lia| |exact Ei].
    repeat (apply orb_prop in Ec as [Ec|Ec]); apply Nat.eqb_eq in Ec; auto.
  - repeat (apply orb_false_elim in Ec as [Ec ?]).
    repeat match goal with
           | H : (_ =? _) = false |- _ => apply Nat.eqb_neq in H
           end.
    rewrite filter_none.
    + cbn [length]. rewrite Z.add_0_r.
      unfold new.
      rewrite (@transition_count_other labels actions i1 K t Hrange Hi1 Ht a s u)
        by lia.
      unfold unshift. apply cell_recount; cmp_nat; lia.
    + intros i Hi. apply in_seq in Hi.
      apply untouched_others; lia.
Qed.

End LegacySplit.

(** ** The legacy split keeps the invariants *)

Lemma test_at_binary (Obs : Type) (root : WorldModelTree.Root Obs)
    (knn : option (WorldModelTree.Knn Obs)) (r : nat) :
  WorldModelTree.test_at root knn r = 0%Z
  \/ WorldModelTree.test_at root knn r = 1%Z.
Proof.
  unfold WorldModelTree.test_at.
  destruct (WorldModelTree.data root) as [d|]; [|now left].
  destruct knn as [k|]; [|now left].
  destruct (nth_error d r) as [x|]; [|now left].
  destruct (k x); [now right|now left].
Qed.

Section RelabelLoop.
Variable Obs : Type.
Variable root : WorldModelTree.Root Obs.
Variable knn : option (WorldModelTree.Knn Obs).

Let t := WorldModelTree.test_at root knn.

Let body (acc : list Z * (list nat * list nat)) (ref_i : nat)
  : WorldModelTree.res (list Z * (list nat * list nat)) :=
  WorldModelTree.rbind (WorldModelTree.lift (WorldModelTree.data root))
    (fun d =>
  WorldModelTree.rbind (WorldModelTree.lift (nth_error d ref_i))
    (fun dat =>
  WorldModelTree.rbind (WorldModelTree._test knn dat)
    (fun child_i =>
  WorldModelTree.rbind (WorldModelTree.lift (nth_error (fst acc) ref_i))
    (fun l =>
       WorldModelTree.Ok
         (set_at ref_i (l + Z.b2z child_i)%Z (fst acc),
          if (child_i : bool)
          then (fst (snd acc), snd (snd acc) ++ [ref_i])
          else (fst (snd acc) ++ [ref_i], snd (snd acc))))))).

Lemma relabel_body_step (acc acc' : list Z * (list nat * list nat))
    (r : nat) :
  body acc r = WorldModelTree.Ok acc' ->
  r < length (fst acc)
  /\ acc' = (set_at r (nth r (fst acc) 0 + t r)%Z (fst acc),
             if (t r =? 0)%Z
             then (fst (snd acc) ++ [r], snd (snd acc))
             else (fst (snd acc), snd (snd acc) ++ [r])).
Proof.
  unfold body, t, WorldModelTree.test_at. intros H.
  destruct (WorldModelTree.data root) as [d|]; [|discriminate H].
  cbn [WorldModelTree.lift WorldModelTree.rbind] in H.
  destruct (nth_error d r) as [dat|]; [|discriminate H].
  cbn [WorldModelTree.lift WorldModelTree.rbind] in H.
  destruct knn as [k|]; [|discriminate H].
  cbn [WorldModelTree._test WorldModelTree.rbind] in H.
  destruct (nth_error (fst acc) r) as [l|] eqn:El; [|discriminate H].
  cbn [WorldModelTree.lift WorldModelTree.rbind] in H.
  injection H as <-.
  assert (Hr : r < length (fst acc))
    by (apply nth_error_Some; congruence).
  split; [exact Hr|].
  rewrite (nth_error_nth _ _ 0%Z El).
  destruct (k dat); reflexivity.
Qed.

Lemma relabel_loop (refs : list nat) :
  NoDup refs ->
  forall nl0 d0 d1 nl e0 e1,
    WorldModelTree.rfoldM body refs (nl0, (d0, d1))
    = WorldModelTree.Ok (nl, (e0, e1)) ->
    length nl = length nl0
    /\ (forall i, nth i nl 0%Z
                  = Z.add (nth i nl0 0%Z)
                          (if existsb (Nat.eqb i) refs then t i else 0%Z))
    /\ e0 = d0 ++ filter (fun r => (t r =? 0)%Z) refs
    /\ e1 = d1 ++ filter (fun r => negb (t r =? 0)%Z) refs.
Proof.
  induction 1 as [|r refs Hnot Hnd IH]; intros nl0 d0 d1 nl e0 e1 H.
  - cbn [WorldModelTree.rfoldM] in H. injection H as <- <- <-.
    cbn [existsb filter]. rewrite !app_nil_r.
    repeat split; auto. intros i. lia.
  - cbn [WorldModelTree.rfoldM] in H.
    destruct (body (nl0, (d0, d1)) r) as [acc'|] eqn:Eb;
      [cbn [WorldModelTree.rbind] in H|discriminate H].
    apply relabel_body_step in Eb as [Hr ->]. cbn [fst snd] in *.
    assert (Hsplit :
      (if (t r =? 0)%Z then (d0 ++ [r], d1) else (d0, d1 ++ [r]))
      = (d0 ++ (if (t r =? 0)%Z then [r] else []),
         d1 ++ (if (t r =? 0)%Z then [] else [r]))).
    { destruct (t r =? 0)%Z; now rewrite app_nil_r. }
    rewrite Hsplit in H.
    apply IH in H as (Hlen & Hnth & -> & ->).
    rewrite length_set_at in Hlen.
    split; [exact Hlen|]. split.
    + intros i. rewrite Hnth. cbn [existsb].
      destruct (Nat.eqb_spec i r) as [->|Hne].
      * rewrite nth_set_at_same by exact Hr.
        replace (existsb (Nat.eqb r) refs) with false; [cbn [orb]; lia|].
        symmetry. apply not_true_is_false. intros E.
        apply existsb_exists in E as [y [Hy Ey]].
        apply Nat.eqb_eq in Ey. now subst.
      * rewrite nth_set_at_other by exact Hne. reflexivity.
    + cbn [filter]. rewrite <- !app_assoc.
      destruct (t r =? 0)%Z; cbn [negb app]; split; reflexivity.
Qed.

Variables (labels : list Z) (K index : nat) (refs : list nat).
Hypothesis Hc : WorldModelTree.consistent root K labels.
Hypothesis Hrefs : Permutation refs (where_eq (Z.of_nat index) labels).

Lemma relabel_data_relabelled (nl : list Z) (e0 e1 : list nat) :
  WorldModelTree._relabel_data root index refs knn
  = WorldModelTree.Ok (Some (nl, (e0, e1))) ->
  nl = relabelled index t labels
  /\ e0 = filter (fun r => (t r =? 0)%Z) refs
  /\ e1 = filter (fun r => negb (t r =? 0)%Z) refs.
Proof.
  intros H. unfold WorldModelTree._relabel_data in H.
  rewrite (WorldModelTree.labels_stored Hc) in H.
  cbn [WorldModelTree.scalars WorldModelTree.lift WorldModelTree.rbind] in H.
  match type of H with
  | WorldModelTree.rbind (WorldModelTree.rfoldM ?f ?l ?a) _ = _ =>
      change f with body in H;
      destruct (WorldModelTree.rfoldM body l a) as [[nl' [e0' e1']]|] eqn:El;
      [cbn [WorldModelTree.rbind fst snd] in H|discriminate H]
  end.
  apply relabel_loop in El as (Hlen & Hnth & -> & ->);
    [|exact (@NoDup_refs labels index refs Hrefs)].
  destruct (length nl' =? _); [|discriminate H].
  cbn [assert WorldModelTree.lift WorldModelTree.rbind] in H.
  destruct (0 <? _); [|discriminate H].
  cbn [assert WorldModelTree.lift WorldModelTree.rbind] in H.
  destruct (0 <? _); [|discriminate H].
  cbn [assert WorldModelTree.lift WorldModelTree.rbind] in H.
  destruct (_ || _); [discriminate H|].
  injection H as <- <- <-. cbn [app]. split; [|split; reflexivity].
  rewrite length_map in Hlen.
  apply (nth_ext _ _ 0%Z 0%Z).
  - now rewrite length_relabelled.
  - intros i Hi. rewrite Hlen in Hi.
    rewrite (@nth_relabelled labels index t i Hi), Hnth.
    rewrite (nth_map_lt _ _ _ 0%Z) by exact Hi.
    unfold relabel.
    pose proof (@In_refs labels index refs Hrefs i) as Hin.
    destruct (existsb (Nat.eqb i) refs) eqn:Ex.
    + apply existsb_exists in Ex as [y [Hy Ey]].
      apply Nat.eqb_eq in Ey. subst y.
      apply Hin in Hy as [_ Hy]. rewrite Hy. cmp_Z; lia.
    + assert (Hne : nth i labels 0%Z <> Z.of_nat index).
      { intros E. assert (Hy : In i refs) by (apply Hin; auto).
        apply not_true_iff_false in Ex. apply Ex.
        apply existsb_exists. exists i. split; [exact Hy|].
        apply Nat.eqb_refl. }
      cmp_Z; lia.
Qed.

End RelabelLoop.

Lemma get_leaves_update_leaf (Obs : Type)
    (f : list nat -> option (WorldModelTree.Knn Obs)
         -> WorldModelTree.Node Obs)
    (tree : WorldModelTree.Node Obs) :
  forall i d k,
    nth_error (WorldModelTree.get_leaves tree) i = Some (d, k) ->
    WorldModelTree.get_leaves (WorldModelTree.update_leaf f i tree)
    = firstn i (WorldModelTree.get_leaves tree)
      ++ WorldModelTree.get_leaves (f d k)
      ++ skipn (S i) (WorldModelTree.get_leaves tree).
Proof.
  induction tree as [d0 k0|k0 a IHa b IHb]; intros i d k H.
  - cbn [WorldModelTree.get_leaves WorldModelTree.update_leaf] in *.
    destruct i as [|i]; [|destruct i; discriminate H].
    injection H as -> ->. cbn. now rewrite app_nil_r.
  - cbn [WorldModelTree.get_leaves WorldModelTree.update_leaf] in *.
    rewrite <- (length_get_leaves a).
    destruct (Nat.ltb_spec i (length (WorldModelTree.get_leaves a)))
      as [Hlt|Hge].
    + rewrite nth_error_app1 in H by exact Hlt.
      cbn [WorldModelTree.get_leaves]. rewrite (IHa i d k H).
      rewrite firstn_app, skipn_app.
      replace (i - length (WorldModelTree.get_leaves a)) with 0 by lia.
      replace (S i - length (WorldModelTree.get_leaves a)) with 0 by lia.
      cbn [firstn skipn]. now rewrite app_nil_r, <- !app_assoc.
    + rewrite nth_error_app2 in H by exact Hge.
      cbn [WorldModelTree.get_leaves]. rewrite (IHb _ d k H).
      rewrite firstn_app, skipn_app.
      rewrite (@firstn_all2 _ i (WorldModelTree.get_leaves a)) by lia.
      rewrite (@skipn_all2 _ (S i) (WorldModelTree.get_leaves a)) by lia.
      replace (S i - length (WorldModelTree.get_leaves a))
        with (S (i - length (WorldModelTree.get_leaves a))) by lia.
      cbn [app]. now rewrite <- !app_assoc.
Qed.

Lemma nth_error_split_leaf (A : Type) (l : list A) (i : nat) (x0 x1 : A)
    (j : nat) :
  i < length l ->
  nth_error (firstn i l ++ x0 :: x1 :: skipn (S i) l) j
  = if j <? i then nth_error l j
    else if j =? i then Some x0
    else if j =? S i then Some x1
    else nth_error l (j - 1).
Proof.
  intros Hi.
  assert (Hf : length (firstn i l) = i) by (rewrite length_firstn; lia).
  destruct (Nat.ltb_spec j i) as [Hlt|Hge].
  - rewrite nth_error_app1 by lia. rewrite nth_error_firstn.
    now replace (j <? i) with true by (symmetry; apply Nat.ltb_lt; lia).
  - rewrite nth_error_app2 by lia. rewrite Hf.
    destruct (Nat.eqb_spec j i) as [->|Hne].
    + now rewrite Nat.sub_diag.
    + destruct (Nat.eqb_spec j (S i)) as [->|Hne'].
      * replace (S i - i) with 1 by lia. reflexivity.
      * replace (j - i) with (S (S (j - i - 2))) by lia.
        cbn [app nth_error]. rewrite nth_error_skipn. f_equal. lia.
Qed.

Lemma rmapM_ok (A B : Type) (f : A -> WorldModelTree.res B) (g : A -> B)
    (l : list A) (ys : list B) :
  (forall x y, In x l -> f x = WorldModelTree.Ok y -> y = g x) ->
  WorldModelTree.rmapM f l = WorldModelTree.Ok ys -> ys = map g l.
Proof.
  revert ys. induction l as [|x l IH]; intros ys Hf H.
  - now injection H as <-.
  - cbn [WorldModelTree.rmapM] in H.
    destruct (f x) as [y|] eqn:Ex;
      [cbn [WorldModelTree.rbind] in H|discriminate H].
    destruct (WorldModelTree.rmapM f l) as [ys'|];
      [cbn [WorldModelTree.rbind] in H|discriminate H].
    injection H as <-. cbn [map]. f_equal.
    + apply Hf; [now left|exact Ex].
    + apply IH; [|reflexivity]. intros x' y' Hx'. apply Hf. now right.
Qed.

Section SplitConsistent.
Variable Obs : Type.
Variable root : WorldModelTree.Root Obs.
Variables (labels : list Z) (K index : nat).
Variables (refs : list nat) (knn : option (WorldModelTree.Knn Obs)).
Hypothesis Hc : WorldModelTree.consistent root K labels.
Hypothesis Hleaf :
  nth_error (WorldModelTree.get_leaves (WorldModelTree.tree root)) index
  = Some (refs, knn).

Let t := WorldModelTree.test_at root knn.
Let new := relabelled index t labels.

Lemma split_index : index < K.
Proof.
  rewrite <- (WorldModelTree.leaves_states Hc), <- length_get_leaves.
  apply nth_error_Some. congruence.
Qed.

Lemma split_refs : Permutation refs (where_eq (Z.of_nat index) labels).
Proof. exact (WorldModelTree.leaves_refs Hc index Hleaf). Qed.

Lemma where_eq_relabelled (i : nat) :
  i <> index -> i <> S index ->
  where_eq (Z.of_nat i) new = where_eq (Z.of_nat (unshift index i)) labels.
Proof.
  intros H1 H2. unfold where_eq, new. rewrite length_relabelled.
  apply filter_ext_in. intros r Hr. apply in_seq in Hr.
  apply (@relabelled_other labels index K t
           (WorldModelTree.labels_range Hc) split_index
           (test_at_binary root knn) r i); [lia|exact H1|exact H2].
Qed.

Lemma child_refs (side : Z) :
  side = 0%Z \/ side = 1%Z ->
  Permutation (filter (fun r => (t r =? side)%Z) refs)
              (where_eq (Z.of_nat index + side) new).
Proof.
  intros Hside. apply NoDup_Permutation.
  - apply NoDup_filter. exact (@NoDup_refs labels index refs split_refs).
  - apply NoDup_where_eq.
  - intros r. rewrite filter_In, In_where_eq.
    rewrite (@In_refs labels index refs split_refs r).
    unfold new. rewrite length_relabelled. split.
    + intros [[Hr Hl] Et]. apply Z.eqb_eq in Et. split; [exact Hr|].
      rewrite (@nth_relabelled labels index t r Hr), Hl. unfold relabel.
      cmp_Z; lia.
    + intros [Hr Hn].
      assert (Hl : nth r labels 0%Z = Z.of_nat index).
      { apply (@relabelled_child labels index K t
                 (WorldModelTree.labels_range Hc) split_index
                 (test_at_binary root knn) r
                 (Z.to_nat (Z.of_nat index + side)) Hr).
        - destruct Hside as [-> | ->]; lia.
        - rewrite Hn. destruct Hside as [-> | ->]; lia. }
      split; [split; [exact Hr|exact Hl]|].
      rewrite (@nth_relabelled labels index t r Hr), Hl in Hn.
      unfold relabel in Hn. apply Z.eqb_eq.
      revert Hn. cmp_Z; lia.
Qed.

Lemma split_transition_matrices_recount (nt : list (action * Matrix))
    (own : list (action * Matrix)) :
  WorldModelTree.transitions root = Some own ->
  (forall a, In a (map fst own) ->
     lookup a own
     = Some (recount K labels (WorldModelTree.actions root) a)) ->
  WorldModelTree._split_transition_matrices root new index
  = WorldModelTree.Ok nt ->
  nt = map (fun a => (a, recount (S K) new (WorldModelTree.actions root) a))
           (map fst own).
Proof.
  intros Hown Hlook H.
  unfold WorldModelTree._split_transition_matrices in H.
  destruct (WorldModelTree._merge_transition_matrices root None);
    [cbn [WorldModelTree.rbind] in H|discriminate H].
  destruct (WorldModelTree.lift _);
    [cbn [WorldModelTree.rbind] in H|discriminate H].
  destruct (WorldModelTree.lift _);
    [cbn [WorldModelTree.rbind] in H|discriminate H].
  rewrite Hown in H. cbn [WorldModelTree.lift WorldModelTree.rbind] in H.
  rewrite map_map.
  apply (rmapM_ok _ (fun kv : action * Matrix =>
           (fst kv,
            recount (S K) new (WorldModelTree.actions root) (fst kv)))
           own) in H; [exact H|].
  intros kv y Hkv Ey.
  destruct (WorldModelTree._split_transition_matrix root (fst kv) new index)
    as [M|] eqn:Em; [cbn [WorldModelTree.rbind] in Ey|discriminate Ey].
  injection Ey as <-. f_equal.
  assert (Hk : lookup (fst kv) own
               = Some (recount K labels (WorldModelTree.actions root)
                               (fst kv)))
    by (apply Hlook, in_map, Hkv).
  assert (Hmax : py_max new = Some (Z.of_nat K)).
  { unfold WorldModelTree._split_transition_matrix in Em.
    destruct (WorldModelTree.lift (assert _));
      [cbn [WorldModelTree.rbind] in Em|discriminate Em].
    rewrite Hown in Em.
    cbn [WorldModelTree.lift WorldModelTree.rbind] in Em.
    rewrite Hk in Em.
    cbn [WorldModelTree.lift WorldModelTree.rbind] in Em.
    destruct (py_max new) as [m|];
      [cbn [WorldModelTree.lift WorldModelTree.rbind] in Em|discriminate Em].
    destruct (m =? _)%Z eqn:E; [|discriminate Em].
    apply Z.eqb_eq in E. rewrite E.
    unfold nrows, recount. now rewrite length_map, length_seq. }
  unfold new in Em |- *.
  rewrite (@split_transition_matrix_some Obs root labels K index t
             (WorldModelTree.labels_stored Hc)
             (WorldModelTree.labels_range Hc) split_index
             (test_at_binary root knn)
             (WorldModelTree.actions_stored Hc)
             (fst kv) own (WorldModelTree.leaves_states Hc) Hown Hk Hmax)
    in Em.
  now injection Em as <-.
Qed.

Lemma split_consistent (root' : WorldModelTree.Root Obs) :
  WorldModelTree.split root index = WorldModelTree.Ok root' ->
  WorldModelTree.consistent root' (S K) new.
Proof.
  intros H. pose proof (split_keeps _ _ H) as (Hd & Ha & _ & _ & Hn).
  unfold WorldModelTree.split in H. rewrite Hleaf in H.
  cbn [WorldModelTree.lift WorldModelTree.rbind fst snd] in H.
  destruct (WorldModelTree._relabel_data root index refs knn)
    as [[[nl [e0 e1]]|]|] eqn:Er;
    [cbn [WorldModelTree.lift WorldModelTree.rbind fst snd] in H
    |discriminate H|discriminate H].
  apply (@relabel_data_relabelled Obs root knn labels K index refs Hc
           split_refs) in Er as (-> & -> & ->).
  fold t new in H.
  destruct (WorldModelTree._split_transition_matrices root new index)
    as [nt|] eqn:Et; [cbn [WorldModelTree.rbind] in H|discriminate H].
  destruct (WorldModelTree.transitions_counted Hc) as [own [Hown Hlook]].
  apply (@split_transition_matrices_recount nt own Hown Hlook) in Et.
  injection H as <-.
  cbn [WorldModelTree.tree WorldModelTree.data WorldModelTree.actions] in *.
  constructor;
    cbn [WorldModelTree.tree WorldModelTree.data WorldModelTree.labels
         WorldModelTree.actions WorldModelTree.transitions].
  - rewrite (WorldModelTree.labels_stored Hc). reflexivity.
  - rewrite Hn. now rewrite (WorldModelTree.leaves_states Hc).
  - exact (@relabelled_in_range labels index K t
             (WorldModelTree.labels_range Hc) split_index
             (test_at_binary root knn)).
  - destruct (WorldModelTree.data_stored Hc) as [d [Ed El]].
    exists d. split; [exact Ed|].
    unfold new. now rewrite length_relabelled.
  - unfold new. rewrite length_relabelled.
    exact (WorldModelTree.actions_stored Hc).
  - intros i leaf Hi.
    rewrite (@get_leaves_update_leaf Obs _ _ index refs knn Hleaf) in Hi.
    cbn [WorldModelTree.get_leaves app] in Hi.
    assert (Hlt : index
                  < length (WorldModelTree.get_leaves
                              (WorldModelTree.tree root)))
      by (apply nth_error_Some; congruence).
    rewrite (@nth_error_split_leaf _ _ index _ _ i Hlt) in Hi.
    destruct (Nat.ltb_spec i index) as [Hlo|Hhi].
    + rewrite where_eq_relabelled by lia.
      unfold unshift.
      replace (i <? index) with true by (symmetry; apply Nat.ltb_lt; lia).
      exact (WorldModelTree.leaves_refs Hc i Hi).
    + destruct (Nat.eqb_spec i index) as [->|Hne].
      * injection Hi as <-. cbn [fst].
        replace (Z.of_nat index) with (Z.of_nat index + 0)%Z by lia.
        apply child_refs. now left.
      * destruct (Nat.eqb_spec i (S index)) as [->|Hne'].
        -- injection Hi as <-. cbn [fst].
           replace (Z.of_nat (S index)) with (Z.of_nat index + 1)%Z by lia.
           eapply Permutation_trans; [|apply child_refs; now right].
           apply Permutation_refl'. apply filter_ext. intros r.
           destruct (test_at_binary root knn r) as [E|E];
             fold t in E; rewrite E; reflexivity.
        -- rewrite where_eq_relabelled by lia.
           unfold unshift.
           replace (i <? index) with false
             by (symmetry; apply Nat.ltb_ge; lia).
           exact (WorldModelTree.leaves_refs Hc (i - 1) Hi).
  - exists nt. split; [reflexivity|].
    intros a Hin. rewrite Et in Hin |- *.
    rewrite map_map in Hin. cbn [fst] in Hin. rewrite map_id in Hin.
    now apply lookup_map.
Qed.

End SplitConsistent.

Lemma consistent_fields (Obs : Type) (root root' : WorldModelTree.Root Obs)
    (K : nat) (labels : list Z) :
  WorldModelTree.consistent root K labels ->
  map fst (WorldModelTree.get_leaves (WorldModelTree.tree root'))
  = map fst (WorldModelTree.get_leaves (WorldModelTree.tree root)) ->
  WorldModelTree.data root' = WorldModelTree.data root ->
  WorldModelTree.labels root' = WorldModelTree.labels root ->
  WorldModelTree.actions root' = WorldModelTree.actions root ->
  WorldModelTree.transitions root' = WorldModelTree.transitions root ->
  WorldModelTree.consistent root' K labels.
Proof.
  intros Hc Hl Hd Hlab Ha Ht. constructor.
  - rewrite Hlab. exact (WorldModelTree.labels_stored Hc).
  - rewrite <- length_get_leaves.
    rewrite <- (length_map fst), Hl, length_map, length_get_leaves.
    exact (WorldModelTree.leaves_states Hc).
  - exact (WorldModelTree.labels_range Hc).
  - rewrite Hd. exact (WorldModelTree.data_stored Hc).
  - rewrite Ha. exact (WorldModelTree.actions_stored Hc).
  - intros i leaf Hi.
    assert (E : nth_error
                  (map fst (WorldModelTree.get_leaves
                              (WorldModelTree.tree root'))) i
                = Some (fst leaf))
      by (rewrite nth_error_map, Hi; reflexivity).
    rewrite Hl, nth_error_map in E.
    destruct (nth_error (WorldModelTree.get_leaves
                           (WorldModelTree.tree root)) i)
      as [leaf0|] eqn:E0; [|discriminate E].
    injection E as <-. exact (WorldModelTree.leaves_refs Hc i E0).
  - rewrite Ht, Ha. exact (WorldModelTree.transitions_counted Hc).
Qed.

Lemma firstn_skipn_split (A : Type) (l1 l2 : list A) (x : A) :
  firstn (length l1) (l1 ++ x :: l2) = l1
  /\ skipn (S (length l1)) (l1 ++ x :: l2) = l2.
Proof.
  split.
  - rewrite firstn_app, Nat.sub_diag, firstn_all. cbn [firstn].
    apply app_nil_r.
  - induction l1 as [|y l1 IH]; [reflexivity|exact IH].
Qed.

Lemma refit_leaves (Obs : Type) (tree : WorldModelTree.Node Obs)
    (knn' : option (WorldModelTree.Knn Obs)) (index : nat) :
  index < WorldModelTree.n_leaves tree ->
  map fst (WorldModelTree.get_leaves
             (WorldModelTree.update_leaf
                (fun d _ => WorldModelTree.Leaf d knn') index tree))
  = map fst (WorldModelTree.get_leaves tree).
Proof.
  intros Hi. rewrite <- length_get_leaves in Hi.
  destruct (nth_error (WorldModelTree.get_leaves tree) index)
    as [[d k]|] eqn:E; [|apply nth_error_None in E; lia].
  rewrite (@get_leaves_update_leaf Obs _ tree index d k E).
  cbn [WorldModelTree.get_leaves app].
  destruct (nth_error_split _ _ E) as (l1 & l2 & El & Hl1).
  rewrite El, <- Hl1.
  destruct (firstn_skipn_split l1 l2 (d, k)) as [-> ->].
  now rewrite !map_app.
Qed.

Section RoundsConsistent.
Variable Obs : Type.
Variable spectral_partition :
  list nat -> list Obs -> WorldModelTree.res (list R).
Variable knn_train : list Obs -> list bool -> WorldModelTree.Knn Obs.

Local Abbreviation leaf_loop :=
  (WorldModelTree.leaf_loop spectral_partition knn_train).
Local Abbreviation single_splitting_step :=
  (WorldModelTree.single_splitting_step spectral_partition knn_train).
Local Abbreviation learn_loop :=
  (WorldModelTree.learn_loop spectral_partition knn_train).
Local Abbreviation learn :=
  (WorldModelTree.learn spectral_partition knn_train).

Lemma leaf_loop_consistent (K : nat) (labels : list Z) (indices : list nat) :
  forall root best_gain best root' gain best',
    WorldModelTree.consistent root K labels ->
    leaf_loop root indices best_gain best
    = WorldModelTree.Ok (root', gain, best') ->
    WorldModelTree.consistent root' K labels.
Proof.
  induction indices as [|index indices IH];
    intros root bg best root' gain best' Hc H.
  - cbn in H. now injection H as <- _ _.
  - cbn [WorldModelTree.leaf_loop] in H.
    destruct (WorldModelTree.lift
                (nth_error (WorldModelTree.get_leaves
                              (WorldModelTree.tree root)) index))
      as [leaf|] eqn:El;
      [cbn [WorldModelTree.rbind] in H|discriminate H].
    destruct (WorldModelTree._reached_min_sample_size root (fst leaf))
      as [reached|] eqn:Er;
      [cbn [WorldModelTree.rbind] in H|discriminate H].
    destruct reached; [|exact (IH _ _ _ _ _ _ Hc H)].
    destruct (WorldModelTree._calculate_splitting_gain _ _ root index)
      as [r|] eqn:Ec;
      [cbn [WorldModelTree.rbind] in H|discriminate H].
    destruct (nth_error_leaf _ _ El) as [Hi _].
    assert (Hc' : WorldModelTree.consistent
                    {| WorldModelTree.tree :=
                         WorldModelTree.update_leaf
                           (fun d _ => WorldModelTree.Leaf d (snd r)) index
                           (WorldModelTree.tree root);
                       WorldModelTree.data := WorldModelTree.data root;
                       WorldModelTree.labels := WorldModelTree.labels root;
                       WorldModelTree.actions := WorldModelTree.actions root;
                       WorldModelTree.transitions :=
                         WorldModelTree.transitions root;
                       WorldModelTree.stats := WorldModelTree.stats root |}
                    K labels).
    { apply (@consistent_fields _ _ _ _ _ Hc); try reflexivity.
      cbn [WorldModelTree.tree]. now apply refit_leaves. }
    destruct (WorldModelTree.gain_gtb (fst (fst r)) bg);
      exact (IH _ _ _ _ _ _ Hc' H).
Qed.

Lemma step_consistent (K : nat) (labels : list Z)
    (root root' : WorldModelTree.Root Obs)
    (min_gain gain : WorldModelTree.Gain) :
  WorldModelTree.consistent root K labels ->
  single_splitting_step root min_gain = WorldModelTree.Ok (root', gain) ->
  exists K' labels',
    WorldModelTree.consistent root' K' labels' /\ K <= K'.
Proof.
  intros Hc H. unfold WorldModelTree.single_splitting_step in H.
  destruct (leaf_loop root _ _ _) as [[[root1 bg] best]|] eqn:El;
    [cbn [WorldModelTree.rbind fst snd] in H|discriminate H].
  apply (@leaf_loop_consistent K labels _ _ _ _ _ _ _ Hc) in El.
  assert (Hsame : forall g,
            WorldModelTree.Ok (root1, g) = WorldModelTree.Ok (root', gain) ->
            exists K' labels',
              WorldModelTree.consistent root' K' labels' /\ K <= K').
  { intros g E. injection E as <- _. exists K, labels. auto. }
  destruct best as [[best_leaf [best_action|]]|]; try exact (Hsame _ H).
  destruct (WorldModelTree.gain_geb bg min_gain); [|exact (Hsame _ H)].
  destruct (WorldModelTree.split root1 best_leaf) as [root2|] eqn:Es;
    [|exact (Hsame _ H)].
  assert (Hc2 : exists labels2,
            WorldModelTree.consistent root2 (S K) labels2).
  { destruct (nth_error (WorldModelTree.get_leaves
                           (WorldModelTree.tree root1)) best_leaf)
      as [[refs knn]|] eqn:E.
    - eexists. exact (@split_consistent Obs root1 labels K best_leaf
                        refs knn El E root2 Es).
    - unfold WorldModelTree.split in Es. rewrite E in Es. discriminate Es. }
  destruct Hc2 as [labels2 Hc2].
  exists (S K), labels2. split; [|lia].
  destruct (WorldModelTree._calc_stats root2 _);
    injection H as <- _; [|exact Hc2].
  apply (@consistent_fields _ _ _ _ _ Hc2); reflexivity.
Qed.

Lemma learn_loop_consistent (fuel : nat) (min_gain : WorldModelTree.Gain) :
  forall K labels root r,
    WorldModelTree.consistent root K labels ->
    learn_loop fuel root min_gain = WorldModelTree.Ok (Some r) ->
    exists K' labels',
      WorldModelTree.consistent r K' labels' /\ K <= K'.
Proof.
  induction fuel as [|fuel IH]; intros K labels root r Hc H;
    [discriminate H|].
  cbn [WorldModelTree.learn_loop] in H.
  destruct (single_splitting_step root min_gain) as [[root1 g]|] eqn:Es;
    [cbn [WorldModelTree.rbind fst snd] in H|discriminate H].
  destruct (@step_consistent K labels root root1 min_gain g Hc Es) as (K1 & labels1 & Hc1 & HK).
  destruct (WorldModelTree.gain_geb g min_gain).
  - destruct (IH K1 labels1 root1 r Hc1 H) as (K' & labels' & Hc' & HK').
    exists K', labels'. split; [exact Hc'|lia].
  - injection H as <-. exists K1, labels1. auto.
Qed.

Lemma learn_consistent (fuel : nat) (min_gain : WorldModelTree.Gain)
    (K : nat) (labels : list Z) (root r : WorldModelTree.Root Obs) :
  WorldModelTree.consistent root K labels ->
  learn fuel root min_gain = WorldModelTree.Ok (Some r) ->
  exists K' labels',
    WorldModelTree.consistent r K' labels' /\ K <= K'.
Proof.
  intros Hc H. unfold WorldModelTree.learn in H.
  destruct (length (WorldModelTree.stats root) =? 0).
  - destruct (WorldModelTree._calc_stats root _) as [s|];
      [cbn [WorldModelTree.rbind] in H|discriminate H].
    apply (@learn_loop_consistent fuel min_gain K labels _ r) in H;
      [exact H|].
    apply (@consistent_fields _ _ _ _ _ Hc); reflexivity.
  - cbn [WorldModelTree.rbind] in H.
    exact (@learn_loop_consistent fuel min_gain K labels root r Hc H).
Qed.

End RoundsConsistent.

Lemma filter_all (A : Type) (p : A -> bool) (l : list A) :
  (forall x, In x l -> p x = true) -> filter p l = l.
Proof.
  induction l as [|x l IH]; intros H; [reflexivity|].
  cbn [filter]. rewrite (H x (or_introl eq_refl)). f_equal.
  apply IH. intros y Hy. apply H. now right.
Qed.

Lemma nth_zeros (n i : nat) : nth i (repeat 0%Z n) 0%Z = 0%Z.
Proof.
  revert i. induction n as [|n IH]; intros [|i]; cbn; auto.
Qed.

Lemma fresh_consistent (Obs : Type) (x : list Obs) (actions : list action) :
  length actions = length x ->
  WorldModelTree.consistent
    {| WorldModelTree.tree := WorldModelTree.Leaf (seq 0 (length x)) None;
       WorldModelTree.data := Some x;
       WorldModelTree.labels := WorldModelTree.Arr1 (repeat 0%Z (length x));
       WorldModelTree.actions := actions;
       WorldModelTree.transitions :=
         Some (map (fun a =>
                      (a, [[transitions_with (repeat 0%Z (length x))
                              actions a]]))
                   (WorldModelTree.set_of actions));
       WorldModelTree.stats := [] |}
    1 (repeat 0%Z (length x)).
Proof.
  intros Hp. constructor;
    cbn [WorldModelTree.tree WorldModelTree.data WorldModelTree.labels
         WorldModelTree.actions WorldModelTree.transitions
         WorldModelTree.n_leaves WorldModelTree.get_leaves].
  - reflexivity.
  - reflexivity.
  - unfold labels_in_range. apply forallb_forall. intros l Hl.
    apply repeat_spec in Hl. now subst.
  - exists x. split; [reflexivity|]. now rewrite repeat_length.
  - now rewrite repeat_length.
  - intros [|[|i]] leaf Hi; try discriminate Hi.
    injection Hi as <-. cbn [fst]. apply Permutation_refl'.
    unfold where_eq. rewrite repeat_length. symmetry.
    apply filter_all. intros i _. now rewrite nth_zeros.
  - eexists. split; [reflexivity|]. intros a Ha.
    rewrite map_map in Ha. cbn [fst] in Ha. rewrite map_id in Ha.
    rewrite (@lookup_map _ _ _ a Ha). f_equal.
    unfold recount. cbn [seq map]. do 2 f_equal.
    unfold transitions_with, transition_count. do 2 f_equal.
    apply filter_ext. intros i. unfold is_transition.
    now rewrite !nth_zeros.
Qed.

Lemma sample_root_consistent :
  WorldModelTree.consistent sample_root 1 [0; 0; 0]%Z.
Proof.
  exact (@fresh_consistent nat [10; 11; 12] [Some 1%Z; Some 1%Z; None]
           eq_refl).
Defined.

Lemma odd_root_consistent :
  WorldModelTree.consistent odd_root 1 [0; 0; 0; 0]%Z.
Proof.
  constructor.
  - reflexivity.
  - reflexivity.
  - reflexivity.
  - exists [0; 1; 2; 3]. split; reflexivity.
  - reflexivity.
  - intros [|[|i]] leaf Hi; try discriminate Hi.
    injection Hi as <-. apply Permutation_refl.
  - eexists. split; [reflexivity|].
    intros a [<-|[<-|[]]]; reflexivity.
Defined.

(** A split that succeeds keeps the invariants of the model.  When
    the labels are in range, every leaf references the samples that
    carry its label and every transition matrix counts the transitions
    of its action, then after [split] of the leaf at position [index]
    the same holds with one state more: the new labels are the old
    ones, with the labels above [index] moved up by one and the samples
    of the leaf relabelled by its classifier; the two new leaves
    reference the samples of the two new labels; and the matrices that
    [_split_transition_matrices] computed are the matrices recounted
    from the new labels. *)
Theorem split_keeps_consistent (Obs : Type)
    (root root' : WorldModelTree.Root Obs) (K : nat) (labels : list Z)
    (index : nat) :
  WorldModelTree.consistent root K labels ->
  WorldModelTree.split root index = WorldModelTree.Ok root' ->
  exists leaf,
    nth_error (WorldModelTree.get_leaves (WorldModelTree.tree root)) index
    = Some leaf
    /\ WorldModelTree.consistent root' (S K)
         (relabelled index (WorldModelTree.test_at root (snd leaf)) labels).
Proof.
  intros Hc H.
  destruct (nth_error (WorldModelTree.get_leaves (WorldModelTree.tree root))
              index) as [[refs knn]|] eqn:E.
  - exists (refs, knn). split; [reflexivity|].
    exact (@split_consistent Obs root labels K index refs knn Hc E root' H).
  - unfold WorldModelTree.split in H. rewrite E in H. discriminate H.
Qed.

Lemma split_keeps_consistent_witness :
  exists leaf,
    nth_error (WorldModelTree.get_leaves (WorldModelTree.tree odd_root)) 0
    = Some leaf
    /\ WorldModelTree.consistent odd_root_split 2
         (relabelled 0 (WorldModelTree.test_at odd_root (snd leaf))
                     [0; 0; 0; 0]%Z).
Proof.
  apply (@split_keeps_consistent nat odd_root odd_root_split 1
           [0; 0; 0; 0]%Z 0).
  - exact odd_root_consistent.
  - reflexivity.
Defined.

(** The first call of [add_data] sets the invariants up: with [N]
    observations and [N] or [N - 1] actions it returns a model with one
    state in which every sample has the label 0, the single leaf
    references every sample and the matrix of every action counts the
    transitions of the action. *)
Theorem add_data_first_consistent (Obs : Type) (x : list Obs)
    (acts : list action) :
  length acts = length x \/ S (length acts) = length x ->
  exists root,
    WorldModelTree.add_data (WorldModelTree.__init__ Obs) x (Some acts)
    = WorldModelTree.Ok root
    /\ WorldModelTree.consistent root 1 (repeat 0%Z (length x)).
Proof.
  intros Hl. eexists. split; [exact (@add_data_fresh Obs x acts Hl)|].
  apply fresh_consistent. exact (pad_length acts Hl).
Qed.

Lemma add_data_first_consistent_witness :
  exists root,
    WorldModelTree.add_data (WorldModelTree.__init__ nat) [10; 11; 12]
      (Some [Some 1%Z; Some 1%Z])
    = WorldModelTree.Ok root
    /\ WorldModelTree.consistent root 1 (repeat 0%Z 3).
Proof.
  apply (@add_data_first_consistent nat [10; 11; 12]
           [Some 1%Z; Some 1%Z]).
  right. reflexivity.
Defined.


